(** * Type inference constraints (mypy/constraints.py)

    A shallow embedding of mypy's constraint inference: the [Constraint]
    value, the dispatcher [infer_constraints] / [_infer_constraints], the
    shape matcher [ConstraintBuilderVisitor], the protocol matcher and the
    combinator [any_constraints].

    The type representation, the subtype oracle and the type-algebra helpers
    live in other modules of mypy (mypy.types, mypy.subtypes, mypy.typeops,
    ...).  They are consumed here through the record [Oracle]; every
    definition of this file is generic in it. *)

From Stdlib Require Import List ZArith Bool String Lia.
Import ListNotations.
Local Open Scope string_scope.
Local Open Scope list_scope.

Set Implicit Arguments.
Set Warnings "-register-all".

(* ------------------------------------------------------------------ *)
(** ** The type representation consumed by the module *)

(** mypy.types.TypeVarId: an opaque identifier. *)
Definition TypeVarId := Z.

(** mypy.nodes.TypeInfo is a mutable class object; it is identified by its
    full name, and its attributes are read through the [Oracle]. *)
Definition TypeInfo := string.

Inductive TypeOfAny : Type :=
| explicit
| from_another_any
| implementation_artifact
| suggestion_engine.

Inductive ArgKind : Type :=
| ARG_POS | ARG_OPT | ARG_STAR | ARG_NAMED | ARG_STAR2 | ARG_NAMED_OPT.

Inductive Variance : Type :=
| INVARIANT | COVARIANT | CONTRAVARIANT.

(** The fields of an [Instance]. *)
Record InstanceData (T : Type) : Type := mkInstance {
  type : TypeInfo;
  args : list T
}.

(** The fields of a [CallableType] that the module reads or rewrites. *)
Record CallableData (T : Type) : Type := mkCallable {
  arg_types : list T;
  arg_kinds : list ArgKind;
  arg_names : list (option string);
  ret_type : T;
  fallback : option (InstanceData T);
  is_ellipsis_args : bool;
  type_guard : option T;
  from_concatenate : bool
}.

(** The fields of a [Parameters] value (also a ParamSpec's prefix). *)
Record ParametersData (T : Type) : Type := mkParameters {
  params_arg_types : list T;
  params_arg_kinds : list ArgKind;
  params_arg_names : list (option string)
}.

Inductive Ty : Type :=
| AnyType (type_of_any : TypeOfAny) (source_any : option Ty)
| NoneType
| UninhabitedType
| ErasedType
| DeletedType
| UnboundType (name : string)
| PartialType
| LiteralType (literal_fallback : InstanceData Ty)
| TypeVarLike (v : TypeVarLikeType)
| UnpackType (unpacked : Ty)
| Parameters (p : ParametersData Ty)
| Instance (i : InstanceData Ty)
| CallableType (c : CallableData Ty)
| TupleType (items : list Ty) (partial_fallback : InstanceData Ty)
| TypedDictType (td_items : list (string * Ty)) (td_fallback : InstanceData Ty)
| UnionType (items : list Ty)
| Overloaded (items : list (CallableData Ty))
| TypeType (item : Ty)
| TypeAliasType (alias : string) (alias_args : list Ty)
| TypeList (items : list Ty)
with TypeVarLikeType : Type :=
| TypeVarType (id : TypeVarId) (values : list Ty) (upper_bound : Ty)
              (variance : Variance)
| ParamSpecType (id : TypeVarId) (prefix : ParametersData Ty) (upper_bound : Ty)
| TypeVarTupleType (id : TypeVarId) (upper_bound : Ty).

Definition tvl_id (v : TypeVarLikeType) : TypeVarId :=
  match v with
  | TypeVarType i _ _ _ => i
  | ParamSpecType i _ _ => i
  | TypeVarTupleType i _ => i
  end.

Definition tvl_upper_bound (v : TypeVarLikeType) : Ty :=
  match v with
  | TypeVarType _ _ u _ => u
  | ParamSpecType _ _ u => u
  | TypeVarTupleType _ u => u
  end.

Definition is_AnyType (t : Ty) : bool :=
  match t with AnyType _ _ => true | _ => false end.

Definition is_UnionType (t : Ty) : bool :=
  match t with UnionType _ => true | _ => false end.

Definition is_TypeVarType (t : Ty) : bool :=
  match t with TypeVarLike (TypeVarType _ _ _ _) => true | _ => false end.

(* ------------------------------------------------------------------ *)
(** ** Constraints *)

Definition SUBTYPE_OF : Z := 0.
Definition SUPERTYPE_OF : Z := 1.

(** class Constraint: [type_var] is the id of the variable the constraint
    was built from, which is kept whole in [origin_type_var]. *)
Record Constraint : Type := mkConstraint {
  type_var : TypeVarId;
  op : Z;
  target : Ty;
  origin_type_var : TypeVarLikeType
}.

(** Constraint.__init__ *)
Definition Constraint_init (tv : TypeVarLikeType) (o : Z) (t : Ty) : Constraint :=
  {| type_var := tvl_id tv; op := o; target := t; origin_type_var := tv |}.

(* ------------------------------------------------------------------ *)
(** ** Exceptions, the guard stacks and the monad of the module *)

Inductive Exception : Type :=
| AssertionError
| NotImplementedError
| RuntimeError
| ValueError
| IndexError
| RecursionError.

Inductive Result (A : Type) : Type :=
| Ok (a : A)
| Raise (e : Exception).

Arguments Ok {A} a.
Arguments Raise {A} e.

(** The two mutable guards: [TypeState.inferring], and the list
    [TypeInfo.inferring] that every class object carries. *)
Record TypeState : Type := mkState {
  inferring : list (Ty * Ty);
  type_inferring : TypeInfo -> list Ty
}.

(** A computation reads and writes the guards and either returns or raises;
    what it did to the guards before raising stays done. *)
Definition M (A : Type) : Type := TypeState -> Result A * TypeState.

Definition ret {A} (a : A) : M A := fun st => (Ok a, st).

Definition raise {A} (e : Exception) : M A := fun st => (Raise e, st).

Definition bind {A B} (m : M A) (f : A -> M B) : M B :=
  fun st =>
    match m st with
    | (Ok a, st') => f a st'
    | (Raise e, st') => (Raise e, st')
    end.

Declare Scope monad_scope.
Delimit Scope monad_scope with monad.
Notation "x <- m ;; k" := (bind m (fun x => k))
  (at level 61, m at next level, right associativity) : monad_scope.
Notation "m ;;; k" := (bind m (fun _ => k))
  (at level 61, right associativity) : monad_scope.
Local Open Scope monad_scope.

Definition lift {A} (r : Result A) : M A := fun st => (r, st).

(** [res = []; for x in l: res.extend(f(x))] *)
Fixpoint for_extend {A B} (l : list A) (f : A -> M (list B)) : M (list B) :=
  match l with
  | [] => ret []
  | x :: l' => r <- f x ;; rs <- for_extend l' f ;; ret (r ++ rs)
  end.

(** [[f(x) for x in l]] *)
Fixpoint for_collect {A B} (l : list A) (f : A -> M B) : M (list B) :=
  match l with
  | [] => ret []
  | x :: l' => r <- f x ;; rs <- for_collect l' f ;; ret (r :: rs)
  end.

(** TypeState.inferring.append(...) / .pop() *)
Definition inferring_append (p : Ty * Ty) : M unit :=
  fun st => (Ok tt, {| inferring := inferring st ++ [p];
                       type_inferring := type_inferring st |}).

Definition inferring_pop : M unit :=
  fun st =>
    match inferring st with
    | [] => (Raise IndexError, st)
    | _ :: _ => (Ok tt, {| inferring := removelast (inferring st);
                           type_inferring := type_inferring st |})
    end.

Definition get_inferring : M (list (Ty * Ty)) :=
  fun st => (Ok (inferring st), st).

(** info.inferring.append(...) / .pop() / a read of info.inferring *)
Definition type_inferring_append (info : TypeInfo) (t : Ty) : M unit :=
  fun st =>
    (Ok tt,
     {| inferring := inferring st;
        type_inferring := fun k =>
          if String.eqb k info then type_inferring st k ++ [t]
          else type_inferring st k |}).

Definition type_inferring_pop (info : TypeInfo) : M unit :=
  fun st =>
    match type_inferring st info with
    | [] => (Raise IndexError, st)
    | _ :: _ =>
        (Ok tt,
         {| inferring := inferring st;
            type_inferring := fun k =>
              if String.eqb k info then removelast (type_inferring st k)
              else type_inferring st k |})
    end.

Definition get_type_inferring (info : TypeInfo) : M (list Ty) :=
  fun st => (Ok (type_inferring st info), st).

(** Two guard states hold the same stacks. *)
Definition same_guards (s1 s2 : TypeState) : Prop :=
  inferring s1 = inferring s2 /\
  forall info, type_inferring s1 info = type_inferring s2 info.

Definition empty_guards : TypeState :=
  {| inferring := []; type_inferring := fun _ => [] |}.

(* ------------------------------------------------------------------ *)
(** ** The external collaborators *)

(** What the module imports from the rest of mypy.  Each field stands for
    the function or attribute named in its comment; nothing is assumed of
    them here. *)
Record Oracle : Type := mkOracle {
  (* mypy.types *)
  get_proper_type : Ty -> Ty;
  type_eq : Ty -> Ty -> bool;                     (* Type.__eq__ *)
  has_recursive_types : Ty -> bool;
  has_type_vars : Ty -> bool;
  is_union_with_any : Ty -> bool;
  make_union : list Ty -> Ty;                     (* UnionType.make_union *)
  is_tuple_like_instance : InstanceData Ty -> bool;
      (* is_named_instance(_, TUPLE_LIKE_INSTANCE_NAMES) *)
  callable_with_ellipsis : Ty -> Ty -> option (InstanceData Ty) -> Ty;
  with_unpacked_kwargs : CallableData Ty -> CallableData Ty;
  param_spec : CallableData Ty -> option (TypeVarId * ParametersData Ty * Ty);
      (* CallableType.param_spec(): the id, prefix and upper bound of the
         ParamSpecType it returns *)
  is_type_obj : CallableData Ty -> bool;
  overloaded_fallback : list (CallableData Ty) -> option (InstanceData Ty);
  as_anonymous_fallback : list (string * Ty) -> InstanceData Ty -> InstanceData Ty;
      (* TypedDictType.as_anonymous().fallback *)
  typeddict_zip : list (string * Ty) -> list (string * Ty) -> list (string * Ty * Ty);
      (* TypedDictType.zip *)
  is_complete_type : Ty -> bool;                  (* accept(CompleteTypeVisitor()) *)
  (* mypy.typeops *)
  make_simplified_union : list Ty -> Ty;          (* keep_erased=True *)
  tuple_fallback : list Ty -> InstanceData Ty -> Ty;
  (* mypy.subtypes *)
  is_subtype : Ty -> Ty -> bool;
  is_same_type : Ty -> Ty -> bool;
  is_protocol_implementation : InstanceData Ty -> InstanceData Ty -> bool;
  find_member : string -> InstanceData Ty -> Ty -> bool -> bool -> option Ty;
      (* find_member(name, itype, subtype, is_operator, class_obj) *)
  is_settable : string -> InstanceData Ty -> bool;
      (* IS_SETTABLE in get_member_flags(name, itype) *)
  is_callable_compatible : CallableData Ty -> CallableData Ty -> bool;
      (* is_callable_compatible(_, _, is_compat=is_subtype, ignore_return=True) *)
  (* mypy.erasetype, mypy.maptype *)
  erase_typevars : Ty -> Ty;
  map_instance_to_supertype : InstanceData Ty -> TypeInfo -> InstanceData Ty;
  (* mypy.typevartuples *)
  extract_unpack : list Ty -> option Ty;
  find_unpack_in_list : list Ty -> option nat;
  split_with_instance : InstanceData Ty -> list Ty * list Ty * list Ty;
  split_with_prefix_and_suffix :
    forall A : Type, list A -> nat -> nat -> list A * list A * list A;
  (* mypy.nodes.TypeInfo *)
  is_protocol : TypeInfo -> bool;
  protocol_members : TypeInfo -> list string;
  has_base : TypeInfo -> string -> bool;
  type_vars : TypeInfo -> list TypeVarLikeType;   (* info.defn.type_vars *)
  has_type_var_tuple_type : TypeInfo -> bool;
  type_var_tuple_prefix : TypeInfo -> option nat;
  type_var_tuple_suffix : TypeInfo -> option nat;
  is_named_tuple : TypeInfo -> bool;
  (* mypy.argmap.ArgTypeExpander, a stateful object *)
  ArgumentInferContext : Type;
  ArgTypeExpander : Type;
  ArgTypeExpander_init : ArgumentInferContext -> ArgTypeExpander;
  expand_actual_type :
    ArgTypeExpander -> Ty -> ArgKind -> option string -> ArgKind ->
    Ty * ArgTypeExpander
}.

(* ------------------------------------------------------------------ *)
(** ** Python sequences *)

(** [l[i]] for a Python int [i]: a negative index counts from the end. *)
Definition py_index {A} (l : list A) (i : Z) : option A :=
  if (0 <=? i)%Z then nth_error l (Z.to_nat i)
  else if (- Z.of_nat (List.length l) <=? i)%Z
       then nth_error l (Z.to_nat (Z.of_nat (List.length l) + i))
       else None.

Definition index_or_raise {A} (l : list A) (i : Z) : M A :=
  match py_index l i with
  | Some x => ret x
  | None => raise IndexError
  end.

(** [zip(a, b, c)] *)
Fixpoint zip3 {A B C} (a : list A) (b : list B) (c : list C) : list (A * B * C) :=
  match a, b, c with
  | x :: a', y :: b', z :: c' => (x, y, z) :: zip3 a' b' c'
  | _, _, _ => []
  end.

(** [l == l'] on lists, from the equality [eq] of the elements.  (Python
    takes an element to be equal to itself before it asks its [__eq__]; the
    properties that depend on it assume [eq] reflexive on the elements at
    hand.) *)
Fixpoint list_eq {A} (eq : A -> A -> bool) (l l' : list A) : bool :=
  match l, l' with
  | [], [] => true
  | x :: r, y :: r' => eq x y && list_eq eq r r'
  | _, _ => false
  end.

Definition option_eq {A} (eq : A -> A -> bool) (o o' : option A) : bool :=
  match o, o' with
  | None, None => true
  | Some x, Some y => eq x y
  | _, _ => false
  end.

(** [bool(l)] *)
Definition truthy {A} (l : list A) : bool :=
  match l with [] => false | _ :: _ => true end.

(* ------------------------------------------------------------------ *)
(** ** Equality of constraints *)

(** The tuple [(self.type_var, self.op, self.target)] that [__eq__] compares
    and [__hash__] hashes. *)
Definition Constraint_key (c : Constraint) : TypeVarId * Z * Ty :=
  (type_var c, op c, target c).

Section Combinator.

Variable O : Oracle.

(** Equality of two such tuples: component by component. *)
Definition key_eq (k1 k2 : TypeVarId * Z * Ty) : bool :=
  let '(v1, o1, t1) := k1 in
  let '(v2, o2, t2) := k2 in
  Z.eqb v1 v2 && Z.eqb o1 o2 && type_eq O t1 t2.

(** Constraint.__eq__ (between two constraints) *)
Definition Constraint_eq (c1 c2 : Constraint) : bool :=
  key_eq (Constraint_key c1) (Constraint_key c2).

(** Constraint.__hash__, for a hash function on the tuples. *)
Definition Constraint_hash (hash : TypeVarId * Z * Ty -> Z) (c : Constraint) : Z :=
  hash (Constraint_key c).

Definition is_same_constraint (c1 c2 : Constraint) : bool :=
  let skip_op_check :=
    is_AnyType (get_proper_type O (target c1)) &&
    is_AnyType (get_proper_type O (target c2)) in
  Z.eqb (type_var c1) (type_var c2)
  && (Z.eqb (op c1) (op c2) || skip_op_check)
  && is_same_type O (target c1) (target c2).

Definition is_same_constraints (x y : list Constraint) : bool :=
  forallb (fun c1 => existsb (fun c2 => is_same_constraint c1 c2) y) x
  && forallb (fun c1 => existsb (fun c2 => is_same_constraint c1 c2) x) y.

Definition _is_similar_constraints (x y : list Constraint) : bool :=
  forallb
    (fun c1 =>
       existsb
         (fun c2 =>
            let skip_op_check :=
              is_AnyType (get_proper_type O (target c1)) ||
              is_AnyType (get_proper_type O (target c2)) in
            Z.eqb (type_var c1) (type_var c2)
            && (Z.eqb (op c1) (op c2) || skip_op_check))
         y)
    x.

Definition is_similar_constraints (x y : list Constraint) : bool :=
  _is_similar_constraints x y && _is_similar_constraints y x.

(* ------------------------------------------------------------------ *)
(** ** The combinator *)

Definition select_trivial (options : list (option (list Constraint)))
  : list (list Constraint) :=
  flat_map
    (fun option_ =>
       match option_ with
       | None => []
       | Some o =>
           if forallb (fun c => is_AnyType (get_proper_type O (target c))) o
           then [o] else []
       end)
    options.

Definition merge_with_any (constraint : Constraint) : Constraint :=
  let target := target constraint in
  if is_union_with_any O target then constraint
  else
    let any_type := AnyType implementation_artifact None in
    Constraint_init (origin_type_var constraint) (op constraint)
      (make_union O [target; any_type]).

Definition filter_satisfiable (option_ : option (list Constraint))
  : option (list Constraint) :=
  match option_ with
  | None => None
  | Some [] => Some []
  | Some o =>
      let satisfiable :=
        filter
          (fun c => is_subtype O (target c) (tvl_upper_bound (origin_type_var c)))
          o in
      match satisfiable with
      | [] => None
      | _ :: _ => Some satisfiable
      end
  end.

(** [options == options'] for lists of [list[Constraint] | None] *)
Definition options_eq (a b : list (option (list Constraint))) : bool :=
  list_eq (option_eq (list_eq Constraint_eq)) a b.

(** [option in trivial_options] *)
Definition option_in (o : list Constraint) (l : list (list Constraint)) : bool :=
  existsb (fun t => list_eq Constraint_eq t o) l.

Definition valid_options_of (options : list (option (list Constraint)))
    (eager : bool) : list (list Constraint) :=
  flat_map
    (fun option_ =>
       match option_ with
       | None => []
       | Some o => if eager then (if truthy o then [o] else []) else [o]
       end)
    options.

(** The recursion of [any_constraints] is on lists it builds itself; [fuel]
    bounds its depth, as the interpreter's recursion limit does. *)
Fixpoint any_constraints (fuel : nat) (options : list (option (list Constraint)))
    (eager : bool) : Result (list Constraint) :=
  match fuel with
  | 0%nat => Raise RecursionError
  | S fuel' =>
      let valid_options := valid_options_of options eager in
      let last_resort :=
        let filtered_options := map filter_satisfiable options in
        if negb (options_eq filtered_options options)
        then any_constraints fuel' filtered_options eager
        else Ok [] in
      match valid_options with
      | [] => Ok []
      | [only] => Ok only
      | first :: rest =>
          if forallb (is_same_constraints first) rest then Ok first
          else if forallb (is_similar_constraints first) rest then
            let trivial_options := select_trivial (map Some valid_options) in
            if truthy trivial_options
               && (List.length trivial_options <? List.length valid_options)%nat
            then
              let merged_options :=
                map (fun option_ => Some (map merge_with_any option_))
                    (filter (fun option_ => negb (option_in option_ trivial_options))
                            valid_options) in
              any_constraints fuel' merged_options eager
            else last_resort
          else last_resort
      end
  end.

Definition simplify_away_incomplete_types (types : list Ty) : list Ty :=
  let complete := filter (is_complete_type O) types in
  if truthy complete then complete else types.

(** find_matching_overload_item: [None] stands for the IndexError of
    [items[0]] on an empty overload. *)
Definition find_matching_overload_item (items : list (CallableData Ty))
    (template : CallableData Ty) : option (CallableData Ty) :=
  match find (fun item => is_callable_compatible O item template) items with
  | Some item => Some item
  | None => hd_error items
  end.

Definition find_matching_overload_items (items : list (CallableData Ty))
    (template : CallableData Ty) : list (CallableData Ty) :=
  let res := filter (fun item => is_callable_compatible O item template) items in
  if truthy res then res else items.

End Combinator.

Definition neg_op (op : Z) : Result Z :=
  if Z.eqb op SUBTYPE_OF then Ok SUPERTYPE_OF
  else if Z.eqb op SUPERTYPE_OF then Ok SUBTYPE_OF
  else Raise ValueError.

(* ------------------------------------------------------------------ *)
(** ** Small helpers for the matcher *)

Definition union_items (t : Ty) : option (list Ty) :=
  match t with UnionType items => Some items | _ => None end.

(** [copy_modified(arg_types=..., arg_kinds=..., arg_names=...)] on a
    callable. *)
Definition with_args (c : CallableData Ty) (ts : list Ty) (ks : list ArgKind)
    (ns : list (option string)) : CallableData Ty :=
  {| arg_types := ts; arg_kinds := ks; arg_names := ns;
     ret_type := ret_type c; fallback := fallback c;
     is_ellipsis_args := is_ellipsis_args c; type_guard := type_guard c;
     from_concatenate := from_concatenate c |}.

Definition with_ret_type (c : CallableData Ty) (r : Ty) : CallableData Ty :=
  {| arg_types := arg_types c; arg_kinds := arg_kinds c; arg_names := arg_names c;
     ret_type := r; fallback := fallback c;
     is_ellipsis_args := is_ellipsis_args c; type_guard := type_guard c;
     from_concatenate := from_concatenate c |}.

Definition with_from_concatenate (c : CallableData Ty) (b : bool) : CallableData Ty :=
  {| arg_types := arg_types c; arg_kinds := arg_kinds c; arg_names := arg_names c;
     ret_type := ret_type c; fallback := fallback c;
     is_ellipsis_args := is_ellipsis_args c; type_guard := type_guard c;
     from_concatenate := b |}.

Definition is_positional (k : ArgKind) : bool :=
  match k with ARG_POS | ARG_OPT => true | _ => false end.

(** The constraints a ParamSpec type argument [ps] (with its [prefix]) gets
    from the argument [other] on the other side; the two nominal branches of
    visit_instance share this code. *)
Definition param_spec_arg_constraints (O : Oracle) (ps : TypeVarLikeType)
    (prefix : ParametersData Ty) (other : Ty) : list Constraint :=
  let suffix := get_proper_type O other in
  let suffix :=
    match suffix with
    | CallableType c =>
        let from_concat := truthy (params_arg_types prefix) || from_concatenate c in
        CallableType (with_from_concatenate c from_concat)
    | _ => suffix
    end in
  match suffix with
  | Parameters p =>
      [Constraint_init ps SUPERTYPE_OF
         (Parameters
            {| params_arg_types :=
                 skipn (List.length (params_arg_types prefix)) (params_arg_types p);
               params_arg_kinds :=
                 skipn (List.length (params_arg_kinds prefix)) (params_arg_kinds p);
               params_arg_names :=
                 skipn (List.length (params_arg_names prefix)) (params_arg_names p) |})]
  | CallableType c =>
      [Constraint_init ps SUPERTYPE_OF
         (CallableType
            (with_args c
               (skipn (List.length (params_arg_types prefix)) (arg_types c))
               (skipn (List.length (params_arg_kinds prefix)) (arg_kinds c))
               (skipn (List.length (params_arg_names prefix)) (arg_names c))))]
  | TypeVarLike (ParamSpecType _ _ _) => [Constraint_init ps SUPERTYPE_OF suffix]
  | _ => []
  end.

(* ------------------------------------------------------------------ *)
(** ** The shape matcher: class ConstraintBuilderVisitor *)

Section Visitor.

Variable O : Oracle.

(** The recursion depth left for [any_constraints]. *)
Variable depth : nat.

(** The recursive entry point; the matcher only ever recurses through it. *)
Variable infer_constraints : Ty -> Ty -> Z -> M (list Constraint).

Section Methods.

(** [self.actual] and [self.direction] *)
Variable actual : Ty.
Variable direction : Z.

Definition infer_against_any (types : list Ty) (any_type : Ty) : M (list Constraint) :=
  for_extend types (fun t => infer_constraints t any_type direction).

(** The loop of infer_constraints_from_protocol_members, [res] being what it
    has collected so far. *)
Fixpoint protocol_members_loop (members : list string) (res : list Constraint)
    (instance template : InstanceData Ty) (subtype : Ty)
    (protocol : InstanceData Ty) (class_obj : bool) : M (list Constraint) :=
  match members with
  | [] => ret res
  | member :: rest =>
      let inst := find_member O member instance subtype false class_obj in
      let temp := find_member O member template subtype false false in
      match inst, temp with
      | Some inst, Some temp =>
          r1 <- infer_constraints temp inst direction ;;
          r2 <- (if is_settable O member protocol
                 then d <- lift (neg_op direction) ;; infer_constraints temp inst d
                 else ret []) ;;
          protocol_members_loop rest (res ++ r1 ++ r2)
            instance template subtype protocol class_obj
      | _, _ => ret []
      end
  end.

Definition infer_constraints_from_protocol_members
    (instance template : InstanceData Ty) (subtype : Ty)
    (protocol : InstanceData Ty) (class_obj : bool) : M (list Constraint) :=
  protocol_members_loop (protocol_members O (type protocol)) []
    instance template subtype protocol class_obj.

(** *** Trivial leaf types *)

Definition visit_unbound_type : M (list Constraint) := ret [].
Definition visit_any : M (list Constraint) := ret [].
Definition visit_none_type : M (list Constraint) := ret [].
Definition visit_uninhabited_type : M (list Constraint) := ret [].
Definition visit_erased_type : M (list Constraint) := ret [].
Definition visit_deleted_type : M (list Constraint) := ret [].
Definition visit_literal_type : M (list Constraint) := ret [].

(** *** Errors *)

Definition visit_partial_type : M (list Constraint) := raise AssertionError.

(** *** Non-trivial leaf types *)

Definition visit_type_var : M (list Constraint) := raise AssertionError.
Definition visit_param_spec : M (list Constraint) := ret [].
Definition visit_type_var_tuple : M (list Constraint) := raise NotImplementedError.
Definition visit_unpack_type : M (list Constraint) := raise NotImplementedError.

Definition visit_parameters (template : ParametersData Ty) : M (list Constraint) :=
  if is_AnyType actual
  then infer_against_any (params_arg_types template) actual
  else raise RuntimeError.

Definition visit_union_type : M (list Constraint) := raise AssertionError.
Definition visit_type_alias_type : M (list Constraint) := raise AssertionError.

(** *** Non-leaf types *)

(** One type parameter of a nominal match: [tvar] is the declared
    parameter, [t_arg] the template's argument for it and [a_arg] the
    actual's. *)
Definition nominal_type_var_arg (var_variance : Variance) (t_arg a_arg : Ty)
  : M (list Constraint) :=
  r1 <- (match var_variance with
         | CONTRAVARIANT => ret []
         | _ => infer_constraints t_arg a_arg direction
         end) ;;
  r2 <- (match var_variance with
         | COVARIANT => ret []
         | _ => d <- lift (neg_op direction) ;; infer_constraints t_arg a_arg d
         end) ;;
  ret (r1 ++ r2).

(** The loop of the SUBTYPE_OF nominal branch. *)
Definition nominal_subtype_arg (x : TypeVarLikeType * Ty * Ty) : M (list Constraint) :=
  let '(tvar, mapped_arg, instance_arg) := x in
  match tvar with
  | TypeVarType _ _ _ var_variance =>
      nominal_type_var_arg var_variance mapped_arg instance_arg
  | ParamSpecType _ _ _ =>
      match mapped_arg with
      | TypeVarLike (ParamSpecType _ prefix _ as ps) =>
          ret (param_spec_arg_constraints O ps prefix instance_arg)
      | _ => ret []
      end
  | TypeVarTupleType _ _ => raise NotImplementedError
  end.

(** The loop of the SUPERTYPE_OF nominal branch. *)
Definition nominal_supertype_arg (x : TypeVarLikeType * Ty * Ty) : M (list Constraint) :=
  let '(tvar, mapped_arg, template_arg) := x in
  match tvar with
  | TypeVarTupleType _ _ => raise AssertionError
  | TypeVarType _ _ _ var_variance =>
      nominal_type_var_arg var_variance template_arg mapped_arg
  | ParamSpecType _ _ _ =>
      match template_arg with
      | TypeVarLike (ParamSpecType _ prefix _ as ps) =>
          ret (param_spec_arg_constraints O ps prefix mapped_arg)
      | _ => ret []
      end
  end.

(** The constraints for the unpacked middle of a template with a
    TypeVarTuple parameter (SUPERTYPE_OF nominal branch). *)
Definition unpack_middle_constraints (template_middle mapped_middle : list Ty)
  : M (list Constraint) :=
  match extract_unpack O template_middle with
  | None => ret []
  | Some template_unpack =>
      match template_unpack with
      | TypeVarLike (TypeVarTupleType _ _ as tvt) =>
          ret [Constraint_init tvt SUPERTYPE_OF (TypeList mapped_middle)]
      | Instance ti =>
          if String.eqb (type ti) "builtins.tuple" then
            for_extend mapped_middle
              (fun item =>
                 a0 <- index_or_raise (args ti) 0 ;;
                 infer_constraints a0 item direction)
          else ret []
      | TupleType t_items _ =>
          if Nat.eqb (List.length t_items) (List.length mapped_middle) then
            for_extend (combine t_items mapped_middle)
              (fun '(template_arg, item) =>
                 infer_constraints template_arg item direction)
          else ret []
      | _ => ret []
      end
  end.

(** visit_instance, in the order of its source: the callback-protocol
    special case ([Some res] when it returned), ... *)
Definition visit_instance_callback_protocol (template : InstanceData Ty)
  : M (option (list Constraint)) :=
  let info := type template in
  match actual with
  | CallableType _ | Overloaded _ =>
      if is_protocol O info
         && list_eq String.eqb (protocol_members O info) ["__call__"]
      then
        stack <- get_type_inferring info ;;
        if negb (existsb (fun t => type_eq O (Instance template) t) stack) then
          type_inferring_append info (Instance template) ;;;
          res <- (match find_member O "__call__" template actual true false with
                  | None => raise AssertionError
                  | Some call =>
                      if is_subtype O actual (erase_typevars O call)
                      then infer_constraints call actual direction
                      else ret []
                  end) ;;
          type_inferring_pop info ;;;
          ret (Some res)
        else ret None
      else ret None
  | _ => ret None
  end.

(** ... the class-object cases (a callable with a fallback, a type-of
    wrapper), which leave the actual they go on with and [res], ... *)
Definition visit_instance_class_object (template : InstanceData Ty)
  : M (Ty * list Constraint) :=
  let info := type template in
  p <- (match actual with
        | CallableType c =>
            match fallback c with
            | Some fb =>
                res <- (if is_type_obj O c && is_protocol O info then
                          let ret_type := get_proper_type O (ret_type c) in
                          let ret_type :=
                            match ret_type with
                            | TupleType items pf => tuple_fallback O items pf
                            | _ => ret_type
                            end in
                          match ret_type with
                          | Instance ri =>
                              let subtype :=
                                if Z.eqb direction SUBTYPE_OF
                                then Instance template else ret_type in
                              infer_constraints_from_protocol_members
                                ri template subtype template true
                          | _ => ret []
                          end
                        else ret []) ;;
                ret (Instance fb, res)
            | None => ret (actual, [])
            end
        | _ => ret (actual, [])
        end) ;;
  let '(actual1, res) := p in
  match actual1 with
  | TypeType item =>
      if is_protocol O info then
        match item with
        | Instance ii =>
            let subtype :=
              if Z.eqb direction SUBTYPE_OF then Instance template else item in
            r <- infer_constraints_from_protocol_members
                   ii template subtype template true ;;
            ret (actual1, res ++ r)
        | _ => ret (actual1, res)
        end
      else ret (actual1, res)
  | _ => ret (actual1, res)
  end.

(** ... the unwrapping of an overload, a typed dict or a literal to its
    fallback instance, ... *)
Definition visit_instance_unwrap (actual1 : Ty) : Ty :=
  let actual2 :=
    match actual1 with
    | Overloaded its =>
        match overloaded_fallback O its with
        | Some fb => Instance fb
        | None => actual1
        end
    | _ => actual1
    end in
  let actual3 :=
    match actual2 with
    | TypedDictType its fb => Instance (as_anonymous_fallback O its fb)
    | _ => actual2
    end in
  match actual3 with
  | LiteralType fb => Instance fb
  | _ => actual3
  end.

(** ... the nominal and the structural match against an instance ([Some]
    when one of them returned), ... *)
Definition visit_instance_instance (template : InstanceData Ty)
    (original_actual : Ty) (instance : InstanceData Ty) (res : list Constraint)
  : M (option (list Constraint)) :=
  match erase_typevars O (Instance template) with
  | Instance erased =>
      if Z.eqb direction SUBTYPE_OF && has_base O (type template) (type instance)
      then
        let mapped := map_instance_to_supertype O template (type instance) in
        let tvars := type_vars O (type mapped) in
        r <- for_extend (zip3 tvars (args mapped) (args instance))
               nominal_subtype_arg ;;
        ret (Some (res ++ r))
      else if Z.eqb direction SUPERTYPE_OF
              && has_base O (type instance) (type template)
      then
        let mapped := map_instance_to_supertype O instance (type template) in
        let tvars := type_vars O (type template) in
        pre <- (if has_type_var_tuple_type O (type template) then
                  let '(mapped_prefix, mapped_middle, mapped_suffix) :=
                    split_with_instance O mapped in
                  let '(template_prefix, template_middle, template_suffix) :=
                    split_with_instance O template in
                  r0 <- unpack_middle_constraints template_middle mapped_middle ;;
                  match type_var_tuple_prefix O (type template),
                        type_var_tuple_suffix O (type template) with
                  | Some n_prefix, Some n_suffix =>
                      let '(tvars_prefix, _, tvars_suffix) :=
                        split_with_prefix_and_suffix O tvars n_prefix n_suffix in
                      ret (r0, tvars_prefix ++ tvars_suffix,
                           mapped_prefix ++ mapped_suffix,
                           template_prefix ++ template_suffix)
                  | _, _ => raise AssertionError
                  end
                else ret ([], tvars, args mapped, args template)) ;;
        let '(r0, tvars', mapped_args, template_args) := pre in
        r <- for_extend (zip3 tvars' mapped_args template_args)
               nominal_supertype_arg ;;
        ret (Some (res ++ r0 ++ r))
      else
        stack_t <- get_type_inferring (type template) ;;
        if is_protocol O (type template)
           && Z.eqb direction SUPERTYPE_OF
           && negb (existsb (fun t => type_eq O (Instance template) t) (rev stack_t))
           && is_protocol_implementation O instance erased
        then
          type_inferring_append (type template) (Instance template) ;;;
          r <- infer_constraints_from_protocol_members
                 instance template original_actual template false ;;
          type_inferring_pop (type template) ;;;
          ret (Some (res ++ r))
        else
          stack_i <- get_type_inferring (type instance) ;;
          if is_protocol O (type instance)
             && Z.eqb direction SUBTYPE_OF
             && negb (existsb (fun i => type_eq O (Instance instance) i) (rev stack_i))
             && is_protocol_implementation O erased instance
          then
            type_inferring_append (type instance) (Instance instance) ;;;
            r <- infer_constraints_from_protocol_members
                   instance template (Instance template) instance false ;;
            type_inferring_pop (type instance) ;;;
            ret (Some (res ++ r))
          else ret None
  | _ => raise AssertionError
  end.

(** ... and the fallbacks, tried when nothing above produced constraints. *)
Definition visit_instance_fallbacks (template : InstanceData Ty) (actual' : Ty)
  : M (list Constraint) :=
  match actual' with
  | AnyType _ _ => infer_against_any (args template) actual'
  | TupleType a_items a_fallback =>
      if is_tuple_like_instance O template && Z.eqb direction SUPERTYPE_OF then
        for_extend a_items
          (fun item =>
             a0 <- index_or_raise (args template) 0 ;;
             infer_constraints a0 item SUPERTYPE_OF)
      else if Z.eqb direction SUPERTYPE_OF then
        infer_constraints (Instance template) (tuple_fallback O a_items a_fallback)
          direction
      else ret []
  | TypeVarLike (TypeVarType _ values ub _) =>
      if truthy values then ret []
      else infer_constraints (Instance template) ub direction
  | TypeVarLike (ParamSpecType _ _ ub) =>
      infer_constraints (Instance template) ub direction
  | TypeVarLike (TypeVarTupleType _ _) => raise NotImplementedError
  | _ => ret []
  end.

Definition visit_instance (template : InstanceData Ty) : M (list Constraint) :=
  returned <- visit_instance_callback_protocol template ;;
  match returned with
  | Some res => ret res
  | None =>
      p <- visit_instance_class_object template ;;
      let '(actual1, res) := p in
      let actual' := visit_instance_unwrap actual1 in
      returned' <- (match actual' with
                    | Instance instance =>
                        visit_instance_instance template actual instance res
                    | _ => ret None
                    end) ;;
      match returned' with
      | Some res' => ret res'
      | None =>
          if truthy res then ret res
          else visit_instance_fallbacks template actual'
      end
  end.

Definition infer_against_overloaded (overloaded : list (CallableData Ty))
    (template : CallableData Ty) : M (list Constraint) :=
  match find_matching_overload_item O overloaded template with
  | Some item => infer_constraints (CallableType template) (CallableType item) direction
  | None => raise IndexError
  end.

(** The arguments of two callables (visit_callable_type, actual a callable). *)
Definition callable_args_constraints (template cactual : CallableData Ty)
  : M (list Constraint) :=
  match param_spec O template with
  | None =>
      if negb (is_ellipsis_args template) then
        for_extend (combine (arg_types template) (arg_types cactual))
          (fun '(t, a) =>
             d <- lift (neg_op direction) ;; infer_constraints t a d)
      else ret []
  | Some (ps_id, prefix, ps_bound) =>
      let ps := ParamSpecType ps_id prefix ps_bound in
      let prefix_len := List.length (params_arg_types prefix) in
      let '(prefix_len', first) :=
        match param_spec O cactual with
        | None =>
            let max_prefix_len :=
              List.length (filter is_positional (arg_kinds cactual)) in
            let prefix_len' := Nat.min prefix_len max_prefix_len in
            (prefix_len',
             Constraint_init ps SUBTYPE_OF
               (CallableType
                  (with_ret_type
                     (with_args cactual
                        (skipn prefix_len' (arg_types cactual))
                        (skipn prefix_len' (arg_kinds cactual))
                        (skipn prefix_len' (arg_names cactual)))
                     NoneType)))
        | Some (a_id, a_prefix, a_bound) =>
            (prefix_len,
             Constraint_init ps SUBTYPE_OF
               (TypeVarLike (ParamSpecType a_id a_prefix a_bound)))
        end in
      let cactual_prefix :=
        with_args cactual
          (firstn prefix_len' (arg_types cactual))
          (firstn prefix_len' (arg_kinds cactual))
          (firstn prefix_len' (arg_names cactual)) in
      r <- for_extend (combine (params_arg_types prefix) (arg_types cactual_prefix))
             (fun '(t, a) =>
                d <- lift (neg_op direction) ;; infer_constraints t a d) ;;
      ret (first :: r)
  end.

Definition visit_callable_type (template0 : CallableData Ty) : M (list Constraint) :=
  let template := with_unpacked_kwargs O template0 in
  match actual with
  | CallableType actual_c =>
      let cactual := with_unpacked_kwargs O actual_c in
      res <- callable_args_constraints template cactual ;;
      let template_ret_type :=
        match type_guard template with
        | Some g => g
        | None => ret_type template
        end in
      let cactual_ret_type :=
        match type_guard cactual with
        | Some g => g
        | None => ret_type cactual
        end in
      r <- infer_constraints template_ret_type cactual_ret_type direction ;;
      ret (res ++ r)
  | AnyType _ _ =>
      let any_type := AnyType from_another_any (Some actual) in
      res <- (match param_spec O template with
              | None => infer_against_any (arg_types template) actual
              | Some (ps_id, prefix, ps_bound) =>
                  ret [Constraint_init (ParamSpecType ps_id prefix ps_bound)
                         SUBTYPE_OF
                         (callable_with_ellipsis O any_type any_type
                            (fallback template))]
              end) ;;
      r <- infer_constraints (ret_type template) any_type direction ;;
      ret (res ++ r)
  | Overloaded its => infer_against_overloaded its template
  | TypeType item => infer_constraints (ret_type template) item direction
  | Instance i =>
      match find_member O "__call__" i actual true false with
      | Some call => infer_constraints (CallableType template) call direction
      | None => ret []
      end
  | _ => ret []
  end.

Definition visit_tuple_type (t_items : list Ty) (t_fallback : InstanceData Ty)
  : M (list Constraint) :=
  let is_varlength_tuple :=
    match actual with
    | Instance i => String.eqb (type i) "builtins.tuple"
    | _ => false
    end in
  returned <-
    (match find_unpack_in_list O t_items with
     | None => ret None
     | Some unpack_index =>
         item <- index_or_raise t_items (Z.of_nat unpack_index) ;;
         match get_proper_type O item with
         | UnpackType inner =>
             match get_proper_type O inner with
             | TypeVarLike (TypeVarTupleType _ _ as unpacked_type) =>
                 (if is_varlength_tuple && negb (Nat.eqb (List.length t_items) 1)
                  then raise AssertionError else ret tt) ;;;
                 match actual with
                 | TupleType a_items a_fallback =>
                     let '(_, actual_items, _) :=
                       split_with_prefix_and_suffix O a_items unpack_index
                         (List.length t_items - unpack_index - 1) in
                     ret (Some [Constraint_init unpacked_type direction
                                  (TupleType actual_items a_fallback)])
                 | AnyType _ _ =>
                     ret (Some [Constraint_init unpacked_type direction actual])
                 | _ =>
                     if is_varlength_tuple
                     then ret (Some [Constraint_init unpacked_type direction actual])
                     else ret None
                 end
             | _ => ret None
             end
         | _ => raise AssertionError
         end
     end) ;;
  match returned with
  | Some res => ret res
  | None =>
      match actual with
      | TupleType a_items a_fallback =>
          if Nat.eqb (List.length a_items) (List.length t_items) then
            if is_named_tuple O (type a_fallback) && is_named_tuple O (type t_fallback)
            then infer_constraints (Instance t_fallback) (Instance a_fallback) direction
            else for_extend (combine t_items a_items)
                   (fun '(t, a) => infer_constraints t a direction)
          else ret []
      | AnyType _ _ => infer_against_any t_items actual
      | _ => ret []
      end
  end.

Definition visit_typeddict_type (t_items : list (string * Ty))
    (t_fallback : InstanceData Ty) : M (list Constraint) :=
  match actual with
  | TypedDictType a_items _ =>
      for_extend (typeddict_zip O t_items a_items)
        (fun '(_, template_item_type, actual_item_type) =>
           infer_constraints template_item_type actual_item_type direction)
  | AnyType _ _ => infer_against_any (map snd t_items) actual
  | _ => ret []
  end.

Definition visit_overloaded (t_items : list (CallableData Ty)) : M (list Constraint) :=
  let items :=
    match actual with
    | CallableType c => find_matching_overload_items O t_items c
    | _ => t_items
    end in
  for_extend items (fun t => infer_constraints (CallableType t) actual direction).

Definition visit_type_type (item : Ty) : M (list Constraint) :=
  match actual with
  | CallableType c => infer_constraints item (ret_type c) direction
  | Overloaded its =>
      match its with
      | c :: _ => infer_constraints item (ret_type c) direction
      | [] => raise IndexError
      end
  | TypeType a_item => infer_constraints item a_item direction
  | AnyType _ _ => infer_constraints item actual direction
  | _ => ret []
  end.

(** [template.accept(ConstraintBuilderVisitor(actual, direction))]: the
    visit method of the template's class.  A TypeList only accepts a
    synthetic-type visitor, which this one is not. *)
Definition accept (template : Ty) : M (list Constraint) :=
  match template with
  | AnyType _ _ => visit_any
  | NoneType => visit_none_type
  | UninhabitedType => visit_uninhabited_type
  | ErasedType => visit_erased_type
  | DeletedType => visit_deleted_type
  | UnboundType _ => visit_unbound_type
  | PartialType => visit_partial_type
  | LiteralType _ => visit_literal_type
  | TypeVarLike (TypeVarType _ _ _ _) => visit_type_var
  | TypeVarLike (ParamSpecType _ _ _) => visit_param_spec
  | TypeVarLike (TypeVarTupleType _ _) => visit_type_var_tuple
  | UnpackType _ => visit_unpack_type
  | Parameters p => visit_parameters p
  | Instance i => visit_instance i
  | CallableType c => visit_callable_type c
  | TupleType items pf => visit_tuple_type items pf
  | TypedDictType items fb => visit_typeddict_type items fb
  | UnionType _ => visit_union_type
  | Overloaded items => visit_overloaded items
  | TypeType item => visit_type_type item
  | TypeAliasType _ _ => visit_type_alias_type
  | TypeList _ => raise AssertionError
  end.

End Methods.

(* ------------------------------------------------------------------ *)
(** ** The dispatcher *)

Definition infer_constraints_if_possible (template actual : Ty) (direction : Z)
  : M (option (list Constraint)) :=
  if Z.eqb direction SUBTYPE_OF
     && negb (is_subtype O (erase_typevars O template) actual)
  then ret None
  else if Z.eqb direction SUPERTYPE_OF
          && negb (is_subtype O actual (erase_typevars O template))
  then ret None
  else if Z.eqb direction SUPERTYPE_OF
          && match template with
             | TypeVarLike (TypeVarType _ _ ub _) =>
                 negb (is_subtype O actual (erase_typevars O ub))
             | _ => false
             end
  then ret None
  else r <- infer_constraints template actual direction ;; ret (Some r).

Definition handle_recursive_union (template_items : list Ty) (actual : Ty)
    (direction : Z) : M (list Constraint) :=
  let non_type_var_items := filter (fun t => negb (is_TypeVarType t)) template_items in
  let type_var_items := filter is_TypeVarType template_items in
  r <- infer_constraints (make_union O non_type_var_items) actual direction ;;
  if truthy r then ret r
  else infer_constraints (make_union O type_var_items) actual direction.

Definition is_suggestion_any (t : Ty) : bool :=
  match t with AnyType suggestion_engine _ => true | _ => false end.

Definition _infer_constraints (template0 actual0 : Ty) (direction : Z)
  : M (list Constraint) :=
  let orig_template := template0 in
  let template1 := get_proper_type O template0 in
  let actual1 := get_proper_type O actual0 in
  let template :=
    match template1 with
    | UnionType items => make_simplified_union O items
    | _ => template1
    end in
  let actual :=
    match actual1 with
    | UnionType items => make_simplified_union O items
    | _ => actual1
    end in
  if is_suggestion_any actual then ret []
  else
    match template with
    | TypeVarLike (TypeVarType _ _ _ _ as tv) =>
        ret [Constraint_init tv direction actual]
    | _ =>
        match (if Z.eqb direction SUBTYPE_OF then union_items template else None) with
        | Some t_items =>
            for_extend t_items
              (fun t_item => infer_constraints t_item actual direction)
        | None =>
        match (if Z.eqb direction SUPERTYPE_OF then union_items actual else None) with
        | Some a_items =>
            for_extend a_items
              (fun a_item => infer_constraints orig_template a_item direction)
        | None =>
        match (if Z.eqb direction SUBTYPE_OF then union_items actual else None) with
        | Some a_items =>
            let items := simplify_away_incomplete_types O a_items in
            options <- for_collect items
                         (fun a_item =>
                            infer_constraints_if_possible template a_item direction) ;;
            lift (any_constraints O depth options true)
        | None =>
        match (if Z.eqb direction SUPERTYPE_OF then union_items template else None) with
        | Some t_items =>
            options <- for_collect t_items
                         (fun t_item =>
                            infer_constraints_if_possible t_item actual direction) ;;
            result <- lift (any_constraints O depth options false) ;;
            if truthy result then ret result
            else if has_recursive_types O template
                    && negb (has_recursive_types O actual)
            then handle_recursive_union t_items actual direction
            else ret []
        | None => accept actual direction template
        end end end end
    end.

End Visitor.

(** infer_constraints.  Its recursion follows the nesting of the two types
    and the guards; [fuel] bounds its depth, as the interpreter's recursion
    limit does, and running out of it is a RecursionError. *)
Fixpoint infer_constraints (O : Oracle) (fuel : nat) (template actual : Ty)
    (direction : Z) : M (list Constraint) :=
  match fuel with
  | 0%nat => raise RecursionError
  | S fuel' =>
      stack <- get_inferring ;;
      if existsb
           (fun '(t, a) =>
              type_eq O (get_proper_type O template) (get_proper_type O t)
              && type_eq O (get_proper_type O actual) (get_proper_type O a))
           (rev stack)
      then ret []
      else if has_recursive_types O template then
        if negb (has_type_vars O template) then ret []
        else
          inferring_append (template, actual) ;;;
          res <- _infer_constraints O fuel' (infer_constraints O fuel')
                   template actual direction ;;
          inferring_pop ;;;
          ret res
      else
        _infer_constraints O fuel' (infer_constraints O fuel')
          template actual direction
  end.

(* ------------------------------------------------------------------ *)
(** ** The call-level entry point *)

Section ForCallable.

Variable O : Oracle.
Variable fuel : nat.

Variable callee : CallableData Ty.
Variable arg_types' : list (option Ty).        (* arg_types: Sequence[Type | None] *)
Variable arg_kinds' : list ArgKind.

(** The inner loop, [for actual in actuals], for the formal at index [i];
    [mapper] is the expander's state on entry and is returned on exit. *)
Fixpoint actuals_loop (i : nat) (actuals : list Z) (mapper : ArgTypeExpander O)
  : M (list Constraint * ArgTypeExpander O) :=
  match actuals with
  | [] => ret ([], mapper)
  | actual :: rest =>
      actual_arg_type <- index_or_raise arg_types' actual ;;
      match actual_arg_type with
      | None => actuals_loop i rest mapper
      | Some actual_arg_type =>
          kind <- index_or_raise arg_kinds' actual ;;
          name <- index_or_raise (arg_names callee) (Z.of_nat i) ;;
          callee_kind <- index_or_raise (arg_kinds callee) (Z.of_nat i) ;;
          let '(actual_type, mapper') :=
            expand_actual_type O mapper actual_arg_type kind name callee_kind in
          formal <- index_or_raise (arg_types callee) (Z.of_nat i) ;;
          c <- infer_constraints O fuel formal actual_type SUPERTYPE_OF ;;
          p <- actuals_loop i rest mapper' ;;
          ret (c ++ fst p, snd p)
      end
  end.

(** The outer loop, [for i, actuals in enumerate(formal_to_actual)]. *)
Fixpoint formals_loop (i : nat) (formal_to_actual : list (list Z))
    (mapper : ArgTypeExpander O) : M (list Constraint) :=
  match formal_to_actual with
  | [] => ret []
  | actuals :: rest =>
      p <- actuals_loop i actuals mapper ;;
      r <- formals_loop (S i) rest (snd p) ;;
      ret (fst p ++ r)
  end.

Definition infer_constraints_for_callable (formal_to_actual : list (list Z))
    (context : ArgumentInferContext O) : M (list Constraint) :=
  formals_loop 0 formal_to_actual (ArgTypeExpander_init O context).

End ForCallable.

(* ------------------------------------------------------------------ *)
(** ** A small instance of the collaborators

    A concrete [Oracle] for running the module on examples: a few classes
    ([list], [Box], [Array], the protocols [HasX] and [Closer]), one
    recursive alias ([Nested[X] = Union[X, list[Nested[X]]]]), structural
    type equality, and a simplified union that drops repeated items. *)

Definition ex_children (t : Ty) : list Ty :=
  match t with
  | Instance i => args i
  | UnionType items | TupleType items _ | TypeList items => items
  | CallableType c => arg_types c ++ [ret_type c]
  | TypeAliasType _ xs => xs
  | UnpackType x | TypeType x => [x]
  | _ => []
  end.

(** Some component of [t], down to depth [n], satisfies [p]. *)
Fixpoint ex_contains (p : Ty -> bool) (n : nat) (t : Ty) : bool :=
  match n with
  | 0%nat => p t
  | S n' => p t || existsb (ex_contains p n') (ex_children t)
  end.

(** Structural equality down to depth [n]; every Any equals every Any. *)
Fixpoint ex_type_eq (n : nat) (a b : Ty) : bool :=
  match n with
  | 0%nat => false
  | S n' =>
      match a, b with
      | AnyType _ _, AnyType _ _ => true
      | NoneType, NoneType => true
      | UninhabitedType, UninhabitedType => true
      | Instance i, Instance j =>
          String.eqb (type i) (type j) && list_eq (ex_type_eq n') (args i) (args j)
      | TypeVarLike (TypeVarType i _ _ _), TypeVarLike (TypeVarType j _ _ _) =>
          Z.eqb i j
      | TypeVarLike (ParamSpecType i _ _), TypeVarLike (ParamSpecType j _ _) =>
          Z.eqb i j
      | TypeVarLike (TypeVarTupleType i _), TypeVarLike (TypeVarTupleType j _) =>
          Z.eqb i j
      | UnionType xs, UnionType ys => list_eq (ex_type_eq n') xs ys
      | TupleType xs _, TupleType ys _ => list_eq (ex_type_eq n') xs ys
      | CallableType c, CallableType d =>
          list_eq (ex_type_eq n') (arg_types c) (arg_types d)
          && ex_type_eq n' (ret_type c) (ret_type d)
      | TypeAliasType x xs, TypeAliasType y ys =>
          String.eqb x y && list_eq (ex_type_eq n') xs ys
      | TypeType x, TypeType y => ex_type_eq n' x y
      | UnpackType x, UnpackType y => ex_type_eq n' x y
      | _, _ => false
      end
  end.

Definition ex_is_alias (t : Ty) : bool :=
  match t with TypeAliasType _ _ => true | _ => false end.

Definition ex_is_type_var_like (t : Ty) : bool :=
  match t with TypeVarLike _ => true | _ => false end.

Definition ex_object : InstanceData Ty := {| type := "builtins.object"; args := [] |}.
Definition ex_function : InstanceData Ty := {| type := "builtins.function"; args := [] |}.

Definition ex_get_proper_type (t : Ty) : Ty :=
  match t with
  | TypeAliasType "Nested" [x] =>
      UnionType [x; Instance {| type := "list"; args := [TypeAliasType "Nested" [x]] |}]
  | _ => t
  end.

Definition ex_erase1 (t : Ty) : Ty :=
  match t with
  | TypeVarLike _ => AnyType explicit None
  | _ => t
  end.

Definition ex_erase_typevars (t : Ty) : Ty :=
  match t with
  | TypeVarLike _ => AnyType explicit None
  | Instance i => Instance {| type := type i; args := map ex_erase1 (args i) |}
  | CallableType c =>
      CallableType
        (with_ret_type
           (with_args c (map ex_erase1 (arg_types c)) (arg_kinds c) (arg_names c))
           (ex_erase1 (ret_type c)))
  | _ => t
  end.

Definition ex_is_subtype (a b : Ty) : bool :=
  is_AnyType a || is_AnyType b || ex_type_eq 8 a b
  || match a with UninhabitedType => true | _ => false end
  || match b with
     | Instance j =>
         String.eqb (type j) "builtins.object"
         || match a with
            | Instance i =>
                String.eqb (type i) (type j)
                && list_eq (fun x y => is_AnyType x || is_AnyType y || ex_type_eq 8 x y)
                     (args i) (args j)
            | _ => false
            end
     | _ => false
     end.

Definition ex_make_union (items : list Ty) : Ty :=
  match items with
  | [] => UninhabitedType
  | [x] => x
  | _ => UnionType items
  end.

(** Modelled from the spec: mypy.typeops.make_simplified_union is not among
    the sources; the spec has the dispatcher "reduce any union operand to a
    simplified union".  Here a simplified union is [items] without the items
    that repeat an earlier one, a lone item standing for itself. *)
Fixpoint ex_dedup (seen items : list Ty) : list Ty :=
  match items with
  | [] => []
  | x :: rest =>
      if existsb (ex_type_eq 8 x) seen then ex_dedup seen rest
      else x :: ex_dedup (x :: seen) rest
  end.

Definition ex_make_simplified_union (items : list Ty) : Ty :=
  ex_make_union (ex_dedup [] items).

Definition ex_type_vars (info : TypeInfo) : list TypeVarLikeType :=
  if String.eqb info "list" then
    [TypeVarType 100%Z [] (Instance ex_object) INVARIANT]
  else if String.eqb info "Box" then
    [TypeVarType 101%Z [] (Instance ex_object) COVARIANT]
  else if String.eqb info "Array" then
    [TypeVarTupleType 102%Z (Instance ex_object)]
  else if String.eqb info "HasX" then
    [TypeVarType 103%Z [] (Instance ex_object) INVARIANT]
  else if String.eqb info "Closer" then
    [TypeVarType 104%Z [] (Instance ex_object) INVARIANT]
  else [].

Definition ex_protocol_members (info : TypeInfo) : list string :=
  if String.eqb info "HasX" then ["x"]
  else if String.eqb info "Closer" then ["x"; "close"]
  else [].

(** The attribute [x] of [Box[a]], [HasX[a]] and [Closer[a]] has type [a];
    only [Closer] has a method [close]. *)
Definition ex_find_member (name : string) (itype : InstanceData Ty) (subtype : Ty)
    (is_operator class_obj : bool) : option Ty :=
  if String.eqb name "x" then
    if String.eqb (type itype) "Box" || String.eqb (type itype) "HasX"
       || String.eqb (type itype) "Closer"
    then hd_error (args itype) else None
  else if String.eqb name "close" then
    if String.eqb (type itype) "Closer" then
      Some (CallableType
              {| arg_types := []; arg_kinds := []; arg_names := [];
                 ret_type := NoneType; fallback := Some ex_function;
                 is_ellipsis_args := false; type_guard := None;
                 from_concatenate := false |})
    else None
  else None.

Definition ex_split (A : Type) (l : list A) (n_prefix n_suffix : nat)
  : list A * list A * list A :=
  (firstn n_prefix l,
   firstn (List.length l - n_prefix - n_suffix) (skipn n_prefix l),
   skipn (List.length l - n_suffix) l).

Definition example_oracle : Oracle :=
  {| get_proper_type := ex_get_proper_type;
     type_eq := ex_type_eq 8;
     has_recursive_types := ex_contains ex_is_alias 8;
     has_type_vars := ex_contains ex_is_type_var_like 8;
     is_union_with_any := fun t =>
       match t with UnionType items => existsb is_AnyType items | _ => false end;
     make_union := ex_make_union;
     is_tuple_like_instance := fun i => String.eqb (type i) "builtins.tuple";
     callable_with_ellipsis := fun any_type ret fb =>
       CallableType
         {| arg_types := [any_type; any_type]; arg_kinds := [ARG_STAR; ARG_STAR2];
            arg_names := [None; None]; ret_type := ret; fallback := fb;
            is_ellipsis_args := true; type_guard := None;
            from_concatenate := false |};
     with_unpacked_kwargs := fun c => c;
     param_spec := fun _ => None;
     is_type_obj := fun _ => false;
     overloaded_fallback := fun its =>
       match its with c :: _ => fallback c | [] => None end;
     as_anonymous_fallback := fun _ fb => fb;
     typeddict_zip := fun a b =>
       flat_map
         (fun '(k, t) =>
            match find (fun '(k', _) => String.eqb k k') b with
            | Some (_, u) => [(k, t, u)]
            | None => []
            end)
         a;
     is_complete_type := fun t =>
       negb (ex_contains (fun x => match x with UninhabitedType => true | _ => false end) 8 t);
     make_simplified_union := ex_make_simplified_union;
     tuple_fallback := fun _ pf => Instance pf;
     is_subtype := ex_is_subtype;
     is_same_type := ex_type_eq 8;
     is_protocol_implementation := fun i p =>
       forallb
         (fun m => match ex_find_member m i (Instance i) false false with
                   | Some _ => true | None => false end)
         (ex_protocol_members (type p));
     find_member := ex_find_member;
     is_settable := fun name _ => String.eqb name "x";
     is_callable_compatible := fun a b =>
       Nat.eqb (List.length (arg_types a)) (List.length (arg_types b));
     erase_typevars := ex_erase_typevars;
     map_instance_to_supertype := fun i _ => i;
     extract_unpack := fun l =>
       match l with [UnpackType x] => Some x | _ => None end;
     find_unpack_in_list := fun l =>
       match find (fun '(_, x) => match x with UnpackType _ => true | _ => false end)
                  (combine (seq 0 (List.length l)) l) with
       | Some (n, _) => Some n
       | None => None
       end;
     split_with_instance := fun i => ([], args i, []);
     split_with_prefix_and_suffix := ex_split;
     is_protocol := fun info => String.eqb info "HasX" || String.eqb info "Closer";
     protocol_members := ex_protocol_members;
     has_base := fun info name => String.eqb info name;
     type_vars := ex_type_vars;
     has_type_var_tuple_type := fun info => String.eqb info "Array";
     type_var_tuple_prefix := fun info =>
       if String.eqb info "Array" then Some 0%nat else None;
     type_var_tuple_suffix := fun info =>
       if String.eqb info "Array" then Some 0%nat else None;
     is_named_tuple := fun _ => false;
     ArgumentInferContext := unit;
     ArgTypeExpander := nat;
     ArgTypeExpander_init := fun _ => 0%nat;
     expand_actual_type := fun m t _ _ _ => (t, S m) |}.

(** Types of the examples. *)
Definition ex_int : Ty := Instance {| type := "builtins.int"; args := [] |}.
Definition ex_str : Ty := Instance {| type := "builtins.str"; args := [] |}.
Definition ex_T : TypeVarLikeType := TypeVarType 1%Z [] (Instance ex_object) INVARIANT.
Definition ex_S : TypeVarLikeType := TypeVarType 2%Z [] (Instance ex_object) INVARIANT.

(** [Callable[[a], r]] *)
Definition ex_callable (a r : Ty) : CallableData Ty :=
  {| arg_types := [a]; arg_kinds := [ARG_POS]; arg_names := [None];
     ret_type := r; fallback := Some ex_function;
     is_ellipsis_args := false; type_guard := None; from_concatenate := false |}.

(* ------------------------------------------------------------------ *)
(** ** Vocabulary of the properties, and the inputs of the examples *)

(** A computation is balanced when, whenever it returns, the guards are as
    it found them. *)
Definition balanced {A} (m : M A) : Prop :=
  forall st a st', m st = (Ok a, st') -> same_guards st' st.

(** An operand as [_infer_constraints] goes on with it: its proper type,
    a union simplified. *)
Definition normalize_operand (O : Oracle) (t : Ty) : Ty :=
  match get_proper_type O t with
  | UnionType items => make_simplified_union O items
  | _ => get_proper_type O t
  end.

(** The pair is on the recursion guard [stack]. *)
Definition on_recursion_guard (O : Oracle) (template actual : Ty)
    (stack : list (Ty * Ty)) : bool :=
  existsb
    (fun '(t, a) =>
       type_eq O (get_proper_type O template) (get_proper_type O t)
       && type_eq O (get_proper_type O actual) (get_proper_type O a))
    (rev stack).

(** A recursive template of the examples: [list[Nested[T]]]. *)
Definition ex_list_of_nested : Ty :=
  Instance {| type := "list"; args := [TypeAliasType "Nested" [TypeVarLike ex_T]] |}.

Definition ex_list_of_int : Ty :=
  Instance {| type := "list"; args := [ex_int] |}.

Definition ex_list_of_T : Ty :=
  Instance {| type := "list"; args := [TypeVarLike ex_T] |}.

(** [Array[Nested[T]]], of a class declared with a TypeVarTuple parameter,
    and [HasX[Unpack[int]]]. *)
Definition ex_array_of_nested : Ty :=
  Instance {| type := "Array"; args := [TypeAliasType "Nested" [TypeVarLike ex_T]] |}.

Definition ex_array_of_int : Ty :=
  Instance {| type := "Array"; args := [ex_int] |}.

Definition ex_hasx_of_unpack : Ty :=
  Instance {| type := "HasX"; args := [UnpackType ex_int] |}.

Definition ex_box_of_int : Ty :=
  Instance {| type := "Box"; args := [ex_int] |}.

(** The constraint can be satisfied: its target is a subtype of the upper
    bound of the variable it came from. *)
Definition satisfiable_constraint (O : Oracle) (c : Constraint) : bool :=
  is_subtype O (target c) (tvl_upper_bound (origin_type_var c)).

(** Filtering the option drops one of its constraints. *)
Definition filtering_drops (O : Oracle) (o : option (list Constraint)) : bool :=
  match o with
  | None => false
  | Some l => existsb (fun c => negb (satisfiable_constraint O c)) l
  end.

(** The steps of [any_constraints] before the filtering all fail: there are
    at least two survivors, they are not all the same as the first, and the
    merge of the trivial ones does not apply. *)
Definition earlier_steps_fail (O : Oracle) (options : list (option (list Constraint)))
    (eager : bool) : bool :=
  let valid_options := valid_options_of options eager in
  match valid_options with
  | [] => false
  | [_] => false
  | first :: rest =>
      negb (forallb (is_same_constraints O first) rest)
      && negb (forallb (is_similar_constraints O first) rest
               && (truthy (select_trivial O (map Some valid_options))
                   && (List.length (select_trivial O (map Some valid_options))
                       <? List.length valid_options)%nat))
  end.

(** A variable bounded by [int], and two options for it of which only the
    first can be satisfied. *)
Definition ex_B : TypeVarLikeType := TypeVarType 3%Z [] ex_int INVARIANT.

Definition ex_options : list (option (list Constraint)) :=
  [Some [Constraint_init ex_B SUPERTYPE_OF ex_int];
   Some [Constraint_init ex_B SUPERTYPE_OF ex_str]].

(** The return type a callable is matched on: its type guard when it has
    one. *)
Definition matched_ret_type (c : CallableData Ty) : Ty :=
  match type_guard c with
  | Some g => g
  | None => ret_type c
  end.

(** The two member types the loop looks up for [member]: the template's
    and the instance's, when both are found. *)
Definition member_types (O : Oracle) (instance template : InstanceData Ty)
    (subtype : Ty) (class_obj : bool) (member : string) : option (Ty * Ty) :=
  match find_member O member instance subtype false class_obj,
        find_member O member template subtype false false with
  | Some inst, Some temp => Some (temp, inst)
  | _, _ => None
  end.

(** The constraints of one member: its two types in [direction], and once
    more in the opposite direction when the member is settable. *)
Definition member_constraints (O : Oracle)
    (rec : Ty -> Ty -> Z -> M (list Constraint)) (direction : Z)
    (instance template : InstanceData Ty) (subtype : Ty)
    (protocol : InstanceData Ty) (class_obj : bool) (member : string)
  : M (list Constraint) :=
  match member_types O instance template subtype class_obj member with
  | Some (temp, inst) =>
      r1 <- rec temp inst direction ;;
      r2 <- (if is_settable O member protocol
             then d <- lift (neg_op direction) ;; rec temp inst d
             else ret []) ;;
      ret (r1 ++ r2)
  | None => ret []
  end.

Definition ex_box_int : InstanceData Ty := {| type := "Box"; args := [ex_int] |}.
Definition ex_hasx_T : InstanceData Ty :=
  {| type := "HasX"; args := [TypeVarLike ex_T] |}.
Definition ex_closer_T : InstanceData Ty :=
  {| type := "Closer"; args := [TypeVarLike ex_T] |}.

(** The argument at position [a] has a recorded type. *)
Definition has_arg_type (arg_types' : list (option Ty)) (a : Z) : bool :=
  match py_index arg_types' a with
  | Some None => false
  | _ => true
  end.

(** Two lists of constraints have the same members. *)
Definition same_members (x x' : list Constraint) : Prop :=
  forall c, In c x <-> In c x'.

(** The option counts for [any_constraints]: it is not the sentinel, nor,
    when [eager], empty. *)
Definition live_option (eager : bool) (o : option (list Constraint)) : bool :=
  match o with
  | None => false
  | Some l => if eager then truthy l else true
  end.

(** The target [t] is [t0], or a union that [merge_with_any] built over it,
    maybe more than once. *)
Inductive merged_from (O : Oracle) : Ty -> Ty -> Prop :=
| merged_same : forall t, merged_from O t t
| merged_union :
    forall t t0,
      merged_from O t t0 ->
      merged_from O (make_union O [t; AnyType implementation_artifact None]) t0.

(** A size of a list of options that every retry of [any_constraints]
    makes smaller. *)
Definition options_measure (options : list (option (list Constraint))) : nat :=
  list_sum
    (map (fun o => match o with
                   | None => 1
                   | Some l => 2 + List.length l
                   end)
         options).

(** *** Structural equality of types

    An equality of types for the examples that need one that holds between
    every type and itself: two types are equal when they are built the same
    way from equal parts. *)

Definition kind_eq (a b : ArgKind) : bool :=
  match a, b with
  | ARG_POS, ARG_POS | ARG_OPT, ARG_OPT | ARG_STAR, ARG_STAR
  | ARG_NAMED, ARG_NAMED | ARG_STAR2, ARG_STAR2 | ARG_NAMED_OPT, ARG_NAMED_OPT => true
  | _, _ => false
  end.

Definition variance_eq (a b : Variance) : bool :=
  match a, b with
  | INVARIANT, INVARIANT | COVARIANT, COVARIANT | CONTRAVARIANT, CONTRAVARIANT => true
  | _, _ => false
  end.

Definition type_of_any_eq (a b : TypeOfAny) : bool :=
  match a, b with
  | explicit, explicit | from_another_any, from_another_any
  | implementation_artifact, implementation_artifact
  | suggestion_engine, suggestion_engine => true
  | _, _ => false
  end.

Definition instance_eq {T} (eq : T -> T -> bool) (i j : InstanceData T) : bool :=
  String.eqb (type i) (type j) && list_eq eq (args i) (args j).

Definition names_eq (a b : list (option string)) : bool :=
  list_eq (option_eq String.eqb) a b.

Definition callable_eq {T} (eq : T -> T -> bool) (c d : CallableData T) : bool :=
  list_eq eq (arg_types c) (arg_types d)
  && list_eq kind_eq (arg_kinds c) (arg_kinds d)
  && names_eq (arg_names c) (arg_names d)
  && eq (ret_type c) (ret_type d)
  && option_eq (instance_eq eq) (fallback c) (fallback d)
  && Bool.eqb (is_ellipsis_args c) (is_ellipsis_args d)
  && option_eq eq (type_guard c) (type_guard d)
  && Bool.eqb (from_concatenate c) (from_concatenate d).

Definition parameters_eq {T} (eq : T -> T -> bool) (p q : ParametersData T) : bool :=
  list_eq eq (params_arg_types p) (params_arg_types q)
  && list_eq kind_eq (params_arg_kinds p) (params_arg_kinds q)
  && names_eq (params_arg_names p) (params_arg_names q).

Fixpoint ty_eqb (a b : Ty) {struct a} : bool :=
  match a, b with
  | AnyType k s, AnyType k' s' => type_of_any_eq k k' && option_eq ty_eqb s s'
  | NoneType, NoneType => true
  | UninhabitedType, UninhabitedType => true
  | ErasedType, ErasedType => true
  | DeletedType, DeletedType => true
  | UnboundType n, UnboundType n' => String.eqb n n'
  | PartialType, PartialType => true
  | LiteralType f, LiteralType f' => instance_eq ty_eqb f f'
  | TypeVarLike v, TypeVarLike v' => tvl_eqb v v'
  | UnpackType x, UnpackType x' => ty_eqb x x'
  | Parameters p, Parameters p' => parameters_eq ty_eqb p p'
  | Instance i, Instance i' => instance_eq ty_eqb i i'
  | CallableType c, CallableType c' => callable_eq ty_eqb c c'
  | TupleType l f, TupleType l' f' => list_eq ty_eqb l l' && instance_eq ty_eqb f f'
  | TypedDictType l f, TypedDictType l' f' =>
      list_eq (fun p q => String.eqb (fst p) (fst q) && ty_eqb (snd p) (snd q)) l l'
      && instance_eq ty_eqb f f'
  | UnionType l, UnionType l' => list_eq ty_eqb l l'
  | Overloaded l, Overloaded l' => list_eq (callable_eq ty_eqb) l l'
  | TypeType x, TypeType x' => ty_eqb x x'
  | TypeAliasType n l, TypeAliasType n' l' => String.eqb n n' && list_eq ty_eqb l l'
  | TypeList l, TypeList l' => list_eq ty_eqb l l'
  | _, _ => false
  end
with tvl_eqb (v w : TypeVarLikeType) {struct v} : bool :=
  match v, w with
  | TypeVarType i vs u x, TypeVarType i' vs' u' x' =>
      Z.eqb i i' && list_eq ty_eqb vs vs' && ty_eqb u u' && variance_eq x x'
  | ParamSpecType i p u, ParamSpecType i' p' u' =>
      Z.eqb i i' && parameters_eq ty_eqb p p' && ty_eqb u u'
  | TypeVarTupleType i u, TypeVarTupleType i' u' => Z.eqb i i' && ty_eqb u u'
  | _, _ => false
  end.


(** [O] with another equality of types. *)
Definition with_type_eq (O : Oracle) (eq : Ty -> Ty -> bool) : Oracle :=
  {| get_proper_type := get_proper_type O;
     type_eq := eq;
     has_recursive_types := has_recursive_types O;
     has_type_vars := has_type_vars O;
     is_union_with_any := is_union_with_any O;
     make_union := make_union O;
     is_tuple_like_instance := is_tuple_like_instance O;
     callable_with_ellipsis := callable_with_ellipsis O;
     with_unpacked_kwargs := with_unpacked_kwargs O;
     param_spec := param_spec O;
     is_type_obj := is_type_obj O;
     overloaded_fallback := overloaded_fallback O;
     as_anonymous_fallback := as_anonymous_fallback O;
     typeddict_zip := typeddict_zip O;
     is_complete_type := is_complete_type O;
     make_simplified_union := make_simplified_union O;
     tuple_fallback := tuple_fallback O;
     is_subtype := is_subtype O;
     is_same_type := is_same_type O;
     is_protocol_implementation := is_protocol_implementation O;
     find_member := find_member O;
     is_settable := is_settable O;
     is_callable_compatible := is_callable_compatible O;
     erase_typevars := erase_typevars O;
     map_instance_to_supertype := map_instance_to_supertype O;
     extract_unpack := extract_unpack O;
     find_unpack_in_list := find_unpack_in_list O;
     split_with_instance := split_with_instance O;
     split_with_prefix_and_suffix := split_with_prefix_and_suffix O;
     is_protocol := is_protocol O;
     protocol_members := protocol_members O;
     has_base := has_base O;
     type_vars := type_vars O;
     has_type_var_tuple_type := has_type_var_tuple_type O;
     type_var_tuple_prefix := type_var_tuple_prefix O;
     type_var_tuple_suffix := type_var_tuple_suffix O;
     is_named_tuple := is_named_tuple O;
     ArgumentInferContext := ArgumentInferContext O;
     ArgTypeExpander := ArgTypeExpander O;
     ArgTypeExpander_init := ArgTypeExpander_init O;
     expand_actual_type := expand_actual_type O |}.

(** The example collaborators with the structural equality of types. *)
Definition structural_oracle : Oracle := with_type_eq example_oracle ty_eqb.

(** The type variable is its own proper type and holds no recursive alias,
    as the type variables of a template do. *)
Definition plain_type_var (O : Oracle) (tv : TypeVarLikeType) : Prop :=
  (exists id values ub variance, tv = TypeVarType id values ub variance)
  /\ get_proper_type O (TypeVarLike tv) = TypeVarLike tv
  /\ has_recursive_types O (TypeVarLike tv) = false.

(** The templates that give no constraint whatever they are matched with. *)
Definition trivial_leaf (t : Ty) : bool :=
  match t with
  | AnyType _ _ | NoneType | UninhabitedType | ErasedType | DeletedType
  | UnboundType _ | LiteralType _ | TypeVarLike (ParamSpecType _ _ _) => true
  | _ => false
  end.


(** One guard state holds what another holds, and maybe more on top. *)
Definition guards_extend (s' s : TypeState) : Prop :=
  (exists more, inferring s' = inferring s ++ more)
  /\ forall info, exists more, type_inferring s' info = type_inferring s info ++ more.

(** A computation keeps the guards: when it returns they are as it found
    them, and when it raises they hold at least what it found. *)
Definition guards_kept {A} (m : M A) : Prop :=
  forall st r st',
    m st = (r, st') ->
    match r with
    | Ok _ => same_guards st' st
    | Raise _ => guards_extend st' st
    end.


(** The computation gives no constraint: it returns the empty list, unless
    the recursion went too deep. *)
Definition gives_nothing (m : M (list Constraint)) : Prop :=
  forall st r st', m st = (r, st') -> r = Ok [] \/ r = Raise RecursionError.

(** The two directions a constraint can have. *)
Definition valid_direction (d : Z) : Prop := d = SUBTYPE_OF \/ d = SUPERTYPE_OF.

(** A constraint as [Constraint.__init__] builds them: its direction is one
    of the two, and its [type_var] is the id of its [origin_type_var]. *)
Definition well_formed (c : Constraint) : Prop :=
  valid_direction (op c) /\ type_var c = tvl_id (origin_type_var c).

(** Every constraint of the option, if it is one, satisfies [P]. *)
Definition option_all (P : Constraint -> Prop) (o : option (list Constraint))
  : Prop :=
  match o with
  | Some l => Forall P l
  | None => True
  end.

(** Whatever the computation returns satisfies [P]. *)
Definition returns {A} (P : A -> Prop) (m : M A) : Prop :=
  forall st a st', m st = (Ok a, st') -> P a.

(* ================================================================== *)
(** * Properties *)

Unset Implicit Arguments.

(* ------------------------------------------------------------------ *)
(** ** The guards across a computation that returns *)

Lemma same_guards_refl : forall s, same_guards s s.
Proof. intros s; split; intros; reflexivity. Qed.

Lemma same_guards_trans :
  forall s1 s2 s3, same_guards s1 s2 -> same_guards s2 s3 -> same_guards s1 s3.
Proof.
  intros s1 s2 s3 [H1 H2] [H3 H4]; split.
  - congruence.
  - intros info. rewrite H2. apply H4.
Qed.

Lemma balanced_ret : forall A (a : A), balanced (ret a).
Proof.
  intros A a st a' st' H. unfold ret in H. inversion H; subst.
  apply same_guards_refl.
Qed.

Lemma balanced_raise : forall A e, balanced (@raise A e).
Proof. intros A e st a st' H. unfold raise in H. discriminate. Qed.

Lemma balanced_lift : forall A (r : Result A), balanced (lift r).
Proof.
  intros A r st a st' H. unfold lift in H. inversion H; subst.
  apply same_guards_refl.
Qed.

Lemma balanced_bind :
  forall A B (m : M A) (f : A -> M B),
    balanced m -> (forall a, balanced (f a)) -> balanced (bind m f).
Proof.
  intros A B m f Hm Hf st b st' H. unfold bind in H.
  destruct (m st) as [[a | e] st1] eqn:E; [ | discriminate ].
  apply same_guards_trans with st1.
  - eapply Hf; eassumption.
  - eapply Hm; eassumption.
Qed.

Lemma balanced_for_extend :
  forall A B (f : A -> M (list B)) (l : list A),
    (forall x, balanced (f x)) -> balanced (for_extend l f).
Proof.
  intros A B f l Hf. induction l as [ | x l IH]; simpl.
  - apply balanced_ret.
  - apply balanced_bind; [ apply Hf | intros r ].
    apply balanced_bind; [ exact IH | intros rs; apply balanced_ret ].
Qed.

Lemma balanced_for_collect :
  forall A B (f : A -> M B) (l : list A),
    (forall x, balanced (f x)) -> balanced (for_collect l f).
Proof.
  intros A B f l Hf. induction l as [ | x l IH]; simpl.
  - apply balanced_ret.
  - apply balanced_bind; [ apply Hf | intros r ].
    apply balanced_bind; [ exact IH | intros rs; apply balanced_ret ].
Qed.

Lemma balanced_get_inferring : balanced get_inferring.
Proof.
  intros st a st' H. unfold get_inferring in H. inversion H; subst.
  apply same_guards_refl.
Qed.

Lemma balanced_get_type_inferring : forall info, balanced (get_type_inferring info).
Proof.
  intros info st a st' H. unfold get_type_inferring in H. inversion H; subst.
  apply same_guards_refl.
Qed.

Lemma balanced_index_or_raise :
  forall A (l : list A) i, balanced (index_or_raise l i).
Proof.
  intros A l i. unfold index_or_raise.
  destruct (py_index l i); [ apply balanced_ret | apply balanced_raise ].
Qed.

(** An append, a balanced body and the pop that follows it are balanced
    together: [TypeState.inferring] ... *)
Lemma balanced_inferring_bracket :
  forall A B (p : Ty * Ty) (body : M A) (k : A -> M B),
    balanced body -> (forall a, balanced (k a)) ->
    balanced (inferring_append p ;;; a <- body ;; inferring_pop ;;; k a).
Proof.
  intros A B p body k Hbody Hk st b st' H.
  unfold bind at 1 in H. unfold inferring_append at 1 in H.
  unfold bind at 1 in H.
  match type of H with
  | context [body ?s] => destruct (body s) as [[a | e] st1] eqn:E
  end; [ | discriminate ].
  apply Hbody in E. destruct E as [E1 E2]. simpl in E1, E2.
  unfold bind at 1 in H. unfold inferring_pop in H.
  rewrite E1 in H.
  destruct (inferring st ++ [p]) as [ | x l] eqn:El.
  { destruct (inferring st); discriminate. }
  rewrite <- El in H. rewrite removelast_last in H.
  apply Hk in H. destruct H as [H1 H2]. simpl in H1, H2.
  split.
  - exact H1.
  - intros info. rewrite H2. apply E2.
Qed.

(** ... and the [inferring] list of a class. *)
Lemma balanced_type_inferring_bracket :
  forall A B info (t : Ty) (body : M A) (k : A -> M B),
    balanced body -> (forall a, balanced (k a)) ->
    balanced (type_inferring_append info t ;;; a <- body ;;
              type_inferring_pop info ;;; k a).
Proof.
  intros A B info t body k Hbody Hk st b st' H.
  unfold bind at 1 in H. unfold type_inferring_append at 1 in H.
  unfold bind at 1 in H.
  match type of H with
  | context [body ?s] => destruct (body s) as [[a | e] st1] eqn:E
  end; [ | discriminate ].
  apply Hbody in E. destruct E as [E1 E2]. simpl in E1, E2.
  unfold bind at 1 in H. unfold type_inferring_pop in H.
  pose proof (E2 info) as Ei. rewrite String.eqb_refl in Ei.
  rewrite Ei in H.
  destruct (type_inferring st info ++ [t]) as [ | x l] eqn:El.
  { destruct (type_inferring st info); discriminate. }
  apply Hk in H. destruct H as [H1 H2]. simpl in H1, H2.
  split.
  - congruence.
  - intros k0. rewrite H2. rewrite (E2 k0).
    destruct (String.eqb k0 info) eqn:Ek; [ | reflexivity ].
    apply String.eqb_eq in Ek. subst k0.
    apply removelast_last.
Qed.

(** One step of a balance proof: the shape of the computation decides. *)
Ltac balance_step :=
  first
    [ assumption
    | apply balanced_ret
    | apply balanced_raise
    | apply balanced_lift
    | apply balanced_get_inferring
    | apply balanced_get_type_inferring
    | apply balanced_index_or_raise
    | apply balanced_type_inferring_bracket; [ | intros ]
    | apply balanced_inferring_bracket; [ | intros ]
    | apply balanced_bind; [ | intros ]
    | apply balanced_for_extend; intros
    | apply balanced_for_collect; intros
    | match goal with
      | H : forall t a d, balanced (?rec t a d) |- balanced (?rec _ _ _) => apply H
      | |- balanced (match ?x with _ => _ end) => destruct x
      end ].

Ltac balance := cbv beta; repeat (balance_step; cbv beta).

Section Balance.

Variable O : Oracle.
Variable depth : nat.
Variable rec : Ty -> Ty -> Z -> M (list Constraint).
Hypothesis rec_balanced : forall t a d, balanced (rec t a d).

Lemma balanced_infer_against_any :
  forall direction types any_type,
    balanced (infer_against_any rec direction types any_type).
Proof. intros. unfold infer_against_any. balance. Qed.

Lemma balanced_protocol_members_loop :
  forall direction members res instance template subtype protocol class_obj,
    balanced (protocol_members_loop O rec direction members res
                instance template subtype protocol class_obj).
Proof.
  intros direction members.
  induction members as [ | member rest IH]; intros; simpl.
  - balance.
  - balance. apply IH.
Qed.

Lemma balanced_infer_constraints_from_protocol_members :
  forall direction instance template subtype protocol class_obj,
    balanced (infer_constraints_from_protocol_members O rec direction
                instance template subtype protocol class_obj).
Proof.
  intros. unfold infer_constraints_from_protocol_members.
  apply balanced_protocol_members_loop.
Qed.

Lemma balanced_visit_parameters :
  forall actual direction template,
    balanced (visit_parameters rec actual direction template).
Proof.
  intros. unfold visit_parameters.
  destruct (is_AnyType actual);
    [ apply balanced_infer_against_any | apply balanced_raise ].
Qed.

Lemma balanced_nominal_type_var_arg :
  forall direction v t a, balanced (nominal_type_var_arg rec direction v t a).
Proof. intros. unfold nominal_type_var_arg. balance. Qed.

Lemma balanced_nominal_subtype_arg :
  forall direction x, balanced (nominal_subtype_arg O rec direction x).
Proof.
  intros direction [[tvar mapped_arg] instance_arg]. unfold nominal_subtype_arg.
  destruct tvar; try apply balanced_nominal_type_var_arg; balance.
Qed.

Lemma balanced_nominal_supertype_arg :
  forall direction x, balanced (nominal_supertype_arg O rec direction x).
Proof.
  intros direction [[tvar mapped_arg] template_arg]. unfold nominal_supertype_arg.
  destruct tvar; try apply balanced_nominal_type_var_arg; balance.
Qed.

Lemma balanced_unpack_middle_constraints :
  forall direction template_middle mapped_middle,
    balanced (unpack_middle_constraints O rec direction template_middle mapped_middle).
Proof. intros. unfold unpack_middle_constraints. balance. Qed.

Lemma balanced_visit_instance_callback_protocol :
  forall actual direction template,
    balanced (visit_instance_callback_protocol O rec actual direction template).
Proof. intros. unfold visit_instance_callback_protocol. balance. Qed.

Lemma balanced_visit_instance_class_object :
  forall actual direction template,
    balanced (visit_instance_class_object O rec actual direction template).
Proof.
  intros. unfold visit_instance_class_object.
  apply balanced_bind.
  - destruct actual; try apply balanced_ret.
    destruct (fallback c); [ | apply balanced_ret ].
    apply balanced_bind; [ | intros; apply balanced_ret ].
    destruct (is_type_obj O c && is_protocol O (type template));
      [ | apply balanced_ret ].
    cbv zeta.
    match goal with
    | |- balanced (match ?x with _ => _ end) => destruct x
    end; try apply balanced_ret;
      apply balanced_infer_constraints_from_protocol_members.
  - intros [actual1 res].
    destruct actual1; try apply balanced_ret.
    destruct (is_protocol O (type template)); [ | apply balanced_ret ].
    destruct actual1; try apply balanced_ret.
    apply balanced_bind;
      [ apply balanced_infer_constraints_from_protocol_members
      | intros; apply balanced_ret ].
Qed.

Lemma balanced_visit_instance_instance :
  forall direction template original_actual instance res,
    balanced (visit_instance_instance O rec direction template original_actual
                instance res).
Proof.
  intros. unfold visit_instance_instance.
  destruct (erase_typevars O (Instance template)); try apply balanced_raise.
  destruct (Z.eqb direction SUBTYPE_OF && has_base O (type template) (type instance)).
  { apply balanced_bind; [ | intros; apply balanced_ret ].
    apply balanced_for_extend. apply balanced_nominal_subtype_arg. }
  destruct (Z.eqb direction SUPERTYPE_OF && has_base O (type instance) (type template)).
  { apply balanced_bind.
    - destruct (has_type_var_tuple_type O (type template)); [ | apply balanced_ret ].
      destruct (split_with_instance O (map_instance_to_supertype O instance (type template)))
        as [[mp mm] ms].
      destruct (split_with_instance O template) as [[tp tm] ts].
      apply balanced_bind; [ apply balanced_unpack_middle_constraints | intros r0 ].
      destruct (type_var_tuple_prefix O (type template)); [ | apply balanced_raise ].
      destruct (type_var_tuple_suffix O (type template)); [ | apply balanced_raise ].
      destruct (split_with_prefix_and_suffix O (type_vars O (type template)) n n0)
        as [[a b] c].
      apply balanced_ret.
    - intros [[[r0 tvars'] mapped_args] template_args].
      apply balanced_bind; [ | intros; apply balanced_ret ].
      apply balanced_for_extend. apply balanced_nominal_supertype_arg. }
  apply balanced_bind; [ apply balanced_get_type_inferring | intros stack_t ].
  match goal with
  | |- balanced (if ?b then _ else _) => destruct b
  end.
  { apply balanced_type_inferring_bracket; [ | intros; apply balanced_ret ].
    apply balanced_infer_constraints_from_protocol_members. }
  apply balanced_bind; [ apply balanced_get_type_inferring | intros stack_i ].
  match goal with
  | |- balanced (if ?b then _ else _) => destruct b
  end; [ | apply balanced_ret ].
  apply balanced_type_inferring_bracket; [ | intros; apply balanced_ret ].
  apply balanced_infer_constraints_from_protocol_members.
Qed.

Lemma balanced_visit_instance_fallbacks :
  forall direction template actual',
    balanced (visit_instance_fallbacks O rec direction template actual').
Proof.
  intros. unfold visit_instance_fallbacks.
  destruct actual'; try apply balanced_ret.
  - apply balanced_infer_against_any.
  - balance.
  - balance.
Qed.

Lemma balanced_visit_instance :
  forall actual direction template,
    balanced (visit_instance O rec actual direction template).
Proof.
  intros. unfold visit_instance.
  apply balanced_bind;
    [ apply balanced_visit_instance_callback_protocol | intros returned ].
  destruct returned; [ apply balanced_ret | ].
  apply balanced_bind;
    [ apply balanced_visit_instance_class_object | intros [actual1 res] ].
  apply balanced_bind.
  - destruct (visit_instance_unwrap O actual1); try apply balanced_ret.
    apply balanced_visit_instance_instance.
  - intros returned'. destruct returned'; [ apply balanced_ret | ].
    destruct (truthy res); [ apply balanced_ret | ].
    apply balanced_visit_instance_fallbacks.
Qed.

Lemma balanced_infer_against_overloaded :
  forall direction overloaded template,
    balanced (infer_against_overloaded O rec direction overloaded template).
Proof. intros. unfold infer_against_overloaded. balance. Qed.

Lemma balanced_callable_args_constraints :
  forall direction template cactual,
    balanced (callable_args_constraints O rec direction template cactual).
Proof.
  intros. unfold callable_args_constraints.
  destruct (param_spec O template) as [[[ps_id prefix] ps_bound] | ].
  - cbv zeta. destruct (param_spec O cactual) as [[[a_id a_prefix] a_bound] | ];
      balance.
  - balance.
Qed.

Lemma balanced_visit_callable_type :
  forall actual direction template,
    balanced (visit_callable_type O rec actual direction template).
Proof.
  intros. unfold visit_callable_type. cbv zeta.
  destruct actual; try apply balanced_ret.
  - apply balanced_bind; [ | intros; balance ].
    destruct (param_spec O (with_unpacked_kwargs O template))
      as [[[ps_id prefix] ps_bound] | ];
      [ apply balanced_ret | apply balanced_infer_against_any ].
  - balance.
  - apply balanced_bind;
      [ apply balanced_callable_args_constraints | intros; balance ].
  - apply balanced_infer_against_overloaded.
  - balance.
Qed.

Lemma balanced_visit_tuple_type :
  forall actual direction t_items t_fallback,
    balanced (visit_tuple_type O rec actual direction t_items t_fallback).
Proof.
  intros. unfold visit_tuple_type. cbv zeta.
  apply balanced_bind.
  - destruct (find_unpack_in_list O t_items) as [unpack_index | ];
      [ | apply balanced_ret ].
    apply balanced_bind; [ apply balanced_index_or_raise | intros item ].
    destruct (get_proper_type O item); try apply balanced_raise.
    match goal with
    | |- balanced (match get_proper_type O ?u with _ => _ end) =>
        destruct (get_proper_type O u)
    end; try apply balanced_ret.
    match goal with
    | |- balanced (match ?v with _ => _ end) => destruct v
    end; try apply balanced_ret.
    apply balanced_bind; [ balance | intros _ ].
    destruct actual; balance.
  - intros returned. destruct returned; [ apply balanced_ret | ].
    destruct actual; try apply balanced_ret.
    + apply balanced_infer_against_any.
    + balance.
Qed.

Lemma balanced_visit_typeddict_type :
  forall actual direction t_items t_fallback,
    balanced (visit_typeddict_type O rec actual direction t_items t_fallback).
Proof.
  intros. unfold visit_typeddict_type.
  destruct actual; try apply balanced_ret.
  - apply balanced_infer_against_any.
  - balance.
Qed.

Lemma balanced_visit_overloaded :
  forall actual direction t_items,
    balanced (visit_overloaded O rec actual direction t_items).
Proof. intros. unfold visit_overloaded. balance. Qed.

Lemma balanced_visit_type_type :
  forall actual direction item,
    balanced (visit_type_type rec actual direction item).
Proof. intros. unfold visit_type_type. balance. Qed.

Lemma balanced_accept :
  forall actual direction template,
    balanced (accept O rec actual direction template).
Proof.
  intros. unfold accept.
  destruct template; try apply balanced_ret; try apply balanced_raise.
  - destruct v; [ apply balanced_raise | apply balanced_ret | apply balanced_raise ].
  - apply balanced_visit_parameters.
  - apply balanced_visit_instance.
  - apply balanced_visit_callable_type.
  - apply balanced_visit_tuple_type.
  - apply balanced_visit_typeddict_type.
  - apply balanced_visit_overloaded.
  - apply balanced_visit_type_type.
Qed.

Lemma balanced_infer_constraints_if_possible :
  forall template actual direction,
    balanced (infer_constraints_if_possible O rec template actual direction).
Proof. intros. unfold infer_constraints_if_possible. balance. Qed.

Lemma balanced_handle_recursive_union :
  forall items actual direction,
    balanced (handle_recursive_union O rec items actual direction).
Proof. intros. unfold handle_recursive_union. balance. Qed.

Lemma balanced__infer_constraints :
  forall template actual direction,
    balanced (_infer_constraints O depth rec template actual direction).
Proof.
  intros. unfold _infer_constraints. cbv zeta.
  match goal with
  | |- balanced (if ?b then _ else _) => destruct b
  end; [ apply balanced_ret | ].
  assert (Hrest :
    forall t a,
      balanced
        (match (if Z.eqb direction SUBTYPE_OF then union_items t else None) with
         | Some t_items => for_extend t_items (fun t_item => rec t_item a direction)
         | None =>
         match (if Z.eqb direction SUPERTYPE_OF then union_items a else None) with
         | Some a_items => for_extend a_items (fun a_item => rec template a_item direction)
         | None =>
         match (if Z.eqb direction SUBTYPE_OF then union_items a else None) with
         | Some a_items =>
             options <- for_collect (simplify_away_incomplete_types O a_items)
                          (fun a_item =>
                             infer_constraints_if_possible O rec t a_item direction) ;;
             lift (any_constraints O depth options true)
         | None =>
         match (if Z.eqb direction SUPERTYPE_OF then union_items t else None) with
         | Some t_items =>
             options <- for_collect t_items
                          (fun t_item =>
                             infer_constraints_if_possible O rec t_item a direction) ;;
             result <- lift (any_constraints O depth options false) ;;
             if truthy result then ret result
             else if has_recursive_types O t && negb (has_recursive_types O a)
             then handle_recursive_union O rec t_items a direction
             else ret []
         | None => accept O rec a direction t
         end end end end)).
  { intros t a.
    destruct (if Z.eqb direction SUBTYPE_OF then union_items t else None);
      [ balance | ].
    destruct (if Z.eqb direction SUPERTYPE_OF then union_items a else None);
      [ balance | ].
    destruct (if Z.eqb direction SUBTYPE_OF then union_items a else None).
    { apply balanced_bind; [ | intros; apply balanced_lift ].
      apply balanced_for_collect. intros.
      apply balanced_infer_constraints_if_possible. }
    destruct (if Z.eqb direction SUPERTYPE_OF then union_items t else None).
    { apply balanced_bind.
      - apply balanced_for_collect. intros.
        apply balanced_infer_constraints_if_possible.
      - intros options. apply balanced_bind; [ apply balanced_lift | intros result ].
        destruct (truthy result); [ apply balanced_ret | ].
        destruct (has_recursive_types O t && negb (has_recursive_types O a));
          [ apply balanced_handle_recursive_union | apply balanced_ret ]. }
    apply balanced_accept. }
  match goal with
  | |- balanced (match ?t with _ => _ end) =>
      destruct t eqn:Et; try apply Hrest
  end.
  destruct v; try apply Hrest. apply balanced_ret.
Qed.

End Balance.

(** Every inference request that returns is balanced, whatever depth it is
    given. *)
Lemma balanced_infer_constraints :
  forall O fuel template actual direction,
    balanced (infer_constraints O fuel template actual direction).
Proof.
  intros O fuel. induction fuel as [ | fuel IH]; intros; simpl.
  - apply balanced_raise.
  - apply balanced_bind; [ apply balanced_get_inferring | intros stack ].
    match goal with
    | |- balanced (if ?b then _ else _) => destruct b
    end; [ apply balanced_ret | ].
    destruct (has_recursive_types O template).
    + destruct (negb (has_type_vars O template)); [ apply balanced_ret | ].
      apply balanced_inferring_bracket; [ | intros; apply balanced_ret ].
      apply balanced__infer_constraints. exact IH.
    + apply balanced__infer_constraints. exact IH.
Qed.

(* ------------------------------------------------------------------ *)
(** ** Unfolding the dispatcher *)

Lemma infer_constraints_unfold :
  forall O fuel template actual direction st,
    infer_constraints O (S fuel) template actual direction st =
    if on_recursion_guard O template actual (inferring st) then (Ok [], st)
    else if has_recursive_types O template then
      if negb (has_type_vars O template) then (Ok [], st)
      else
        (inferring_append (template, actual) ;;;
         res <- _infer_constraints O fuel (infer_constraints O fuel)
                  template actual direction ;;
         inferring_pop ;;;
         ret res) st
    else
      _infer_constraints O fuel (infer_constraints O fuel)
        template actual direction st.
Proof.
  intros. simpl. unfold bind at 1. unfold get_inferring.
  unfold on_recursion_guard.
  destruct (existsb _ (rev (inferring st))); [ reflexivity | ].
  destruct (has_recursive_types O template); [ | reflexivity ].
  destruct (negb (has_type_vars O template)); reflexivity.
Qed.

Lemma _infer_constraints_unfold :
  forall O depth rec template actual direction,
    _infer_constraints O depth rec template actual direction =
    let t := normalize_operand O template in
    let a := normalize_operand O actual in
    if is_suggestion_any a then ret []
    else
      match t with
      | TypeVarLike (TypeVarType _ _ _ _ as tv) => ret [Constraint_init tv direction a]
      | _ =>
          match (if Z.eqb direction SUBTYPE_OF then union_items t else None) with
          | Some t_items => for_extend t_items (fun t_item => rec t_item a direction)
          | None =>
          match (if Z.eqb direction SUPERTYPE_OF then union_items a else None) with
          | Some a_items =>
              for_extend a_items (fun a_item => rec template a_item direction)
          | None =>
          match (if Z.eqb direction SUBTYPE_OF then union_items a else None) with
          | Some a_items =>
              options <- for_collect (simplify_away_incomplete_types O a_items)
                           (fun a_item =>
                              infer_constraints_if_possible O rec t a_item direction) ;;
              lift (any_constraints O depth options true)
          | None =>
          match (if Z.eqb direction SUPERTYPE_OF then union_items t else None) with
          | Some t_items =>
              options <- for_collect t_items
                           (fun t_item =>
                              infer_constraints_if_possible O rec t_item a direction) ;;
              result <- lift (any_constraints O depth options false) ;;
              if truthy result then ret result
              else if has_recursive_types O t && negb (has_recursive_types O a)
              then handle_recursive_union O rec t_items a direction
              else ret []
          | None => accept O rec a direction t
          end end end end
      end.
Proof. intros. reflexivity. Qed.

(** The guards after an append, a body that left them alone and a pop. *)
Lemma inferring_bracket_returns :
  forall A (p : Ty * Ty) (body : M A) st a st1,
    body {| inferring := inferring st ++ [p]; type_inferring := type_inferring st |}
      = (Ok a, st1) ->
    same_guards st1
      {| inferring := inferring st ++ [p]; type_inferring := type_inferring st |} ->
    exists st',
      (inferring_append p ;;; r <- body ;; inferring_pop ;;; ret r) st = (Ok a, st')
      /\ same_guards st' st.
Proof.
  intros A p body st a st1 Hbody [H1 H2]. simpl in H1, H2.
  unfold bind at 1. unfold inferring_append at 1. unfold bind at 1.
  rewrite Hbody. unfold bind at 1. unfold inferring_pop. rewrite H1.
  destruct (inferring st ++ [p]) as [ | x l] eqn:El.
  { destruct (inferring st); discriminate. }
  rewrite <- El. rewrite removelast_last. unfold ret.
  eexists; split; [ reflexivity | ].
  split; simpl; [ reflexivity | exact H2 ].
Qed.

(* ------------------------------------------------------------------ *)
(** ** C1: equality of constraints *)

(** C1, as the code has it: [Constraint.__eq__] compares the type variable
    id, the direction and the target, with no exception, and [__hash__] is a
    function of the same three; two equal constraints have the same
    direction.  The comparison that ignores the direction between two
    constraints whose targets are both Any is [is_same_constraint]: with the
    same variable id, both targets Any and the targets the same type, it
    holds whatever the two directions are. *)
Theorem Constraint_eq_structural_same_constraint_ignores_direction :
  forall (O : Oracle) (c1 c2 : Constraint),
    Constraint_eq O c1 c2 =
      (Z.eqb (type_var c1) (type_var c2) && Z.eqb (op c1) (op c2)
       && type_eq O (target c1) (target c2))
    /\ (forall hash, Constraint_key c1 = Constraint_key c2 ->
                     Constraint_hash hash c1 = Constraint_hash hash c2)
    /\ (Constraint_eq O c1 c2 = true -> op c1 = op c2)
    /\ (type_var c1 = type_var c2 ->
        is_AnyType (get_proper_type O (target c1)) = true ->
        is_AnyType (get_proper_type O (target c2)) = true ->
        is_same_type O (target c1) (target c2) = true ->
        is_same_constraint O c1 c2 = true).
Proof.
  intros O c1 c2. repeat split.
  - intros hash Hk. unfold Constraint_hash. rewrite Hk. reflexivity.
  - unfold Constraint_eq, Constraint_key, key_eq. intros H.
    apply andb_prop in H. destruct H as [H _].
    apply andb_prop in H. destruct H as [_ H].
    apply Z.eqb_eq. exact H.
  - intros Hv H1 H2 Hs. unfold is_same_constraint.
    rewrite Hv, Z.eqb_refl, H1, H2, Hs.
    rewrite orb_true_r. reflexivity.
Qed.

(** C1, as stated, fails: two constraints on the same variable with Any
    targets and opposite directions are not equal. *)
Lemma Constraint_eq_distinguishes_directions_on_Any :
  let c1 := Constraint_init ex_T SUBTYPE_OF (AnyType explicit None) in
  let c2 := Constraint_init ex_T SUPERTYPE_OF (AnyType explicit None) in
  type_var c1 = type_var c2
  /\ is_AnyType (get_proper_type example_oracle (target c1)) = true
  /\ is_AnyType (get_proper_type example_oracle (target c2)) = true
  /\ is_same_type example_oracle (target c1) (target c2) = true
  /\ Constraint_eq example_oracle c1 c2 = false
  /\ is_same_constraint example_oracle c1 c2 = true.
Proof. repeat split. Qed.

(* ------------------------------------------------------------------ *)
(** ** C2: the variable base case *)

(** What the dispatcher does to a template that is a type variable: past the
    guard it goes to [_infer_constraints], wrapped in the append and the pop
    when the variable holds a recursive alias. *)
Lemma infer_constraints_type_var_returns :
  forall O fuel id values ub variance actual direction st res,
    let T := TypeVarLike (TypeVarType id values ub variance) in
    on_recursion_guard O T actual (inferring st) = false ->
    (has_recursive_types O T = true -> has_type_vars O T = true) ->
    (forall st0, _infer_constraints O fuel (infer_constraints O fuel)
                   T actual direction st0 = (Ok res, st0)) ->
    exists st',
      infer_constraints O (S fuel) T actual direction st = (Ok res, st')
      /\ same_guards st' st.
Proof.
  intros O fuel id values ub variance actual direction st res T Hguard Hvars Hin.
  rewrite infer_constraints_unfold. fold T. rewrite Hguard.
  destruct (has_recursive_types O T) eqn:Hrec.
  - rewrite (Hvars eq_refl). simpl negb. cbv iota.
    eapply inferring_bracket_returns.
    + apply Hin.
    + apply same_guards_refl.
  - exists st. split; [ apply Hin | apply same_guards_refl ].
Qed.

(** C2, as the code has it: for a type variable T (its own proper type), an
    actual X and a direction D, when the pair is not on the recursion guard:
    if X, normalized, is an Any of the suggestion engine the result is [[]];
    otherwise it is exactly [[Constraint(T, D, X')]], X' being X normalized
    (its proper type, a union simplified but not distributed), and the
    guards are left as they were. *)
Theorem type_var_base_case :
  forall O fuel id values ub variance actual direction st,
    let tv := TypeVarType id values ub variance in
    get_proper_type O (TypeVarLike tv) = TypeVarLike tv ->
    on_recursion_guard O (TypeVarLike tv) actual (inferring st) = false ->
    (has_recursive_types O (TypeVarLike tv) = true ->
     has_type_vars O (TypeVarLike tv) = true) ->
    exists st',
      infer_constraints O (S fuel) (TypeVarLike tv) actual direction st =
        (Ok (if is_suggestion_any (normalize_operand O actual) then []
             else [Constraint_init tv direction (normalize_operand O actual)]),
         st')
      /\ same_guards st' st.
Proof.
  intros O fuel id values ub variance actual direction st tv Hproper Hguard Hvars.
  subst tv.
  apply infer_constraints_type_var_returns; try assumption.
  intros st0. rewrite _infer_constraints_unfold. cbv zeta.
  assert (Hn : normalize_operand O (TypeVarLike (TypeVarType id values ub variance))
               = TypeVarLike (TypeVarType id values ub variance)).
  { unfold normalize_operand. rewrite Hproper. reflexivity. }
  rewrite Hn.
  destruct (is_suggestion_any (normalize_operand O actual)); reflexivity.
Qed.

(** The base case on an example: the variable against a union gives one
    constraint whose target is the whole union. *)
Lemma infer_constraints_type_var_example :
  exists st',
    infer_constraints example_oracle 1 (TypeVarLike ex_T)
      (UnionType [ex_int; ex_str]) SUPERTYPE_OF empty_guards =
      (Ok [Constraint_init ex_T SUPERTYPE_OF (UnionType [ex_int; ex_str])], st')
    /\ same_guards st' empty_guards.
Proof.
  apply (type_var_base_case example_oracle 0 1%Z []
           (Instance ex_object) INVARIANT (UnionType [ex_int; ex_str])
           SUPERTYPE_OF empty_guards).
  - reflexivity.
  - reflexivity.
  - intros H. vm_compute in H. discriminate.
Defined.

(** C2, as stated, fails: against an Any of the suggestion engine the
    variable gets no constraint. *)
Lemma infer_constraints_type_var_suggestion_any :
  infer_constraints example_oracle 5 (TypeVarLike ex_T)
    (AnyType suggestion_engine None) SUPERTYPE_OF empty_guards
  = (Ok [], empty_guards)
  /\ fst (infer_constraints example_oracle 5 (TypeVarLike ex_T)
            (AnyType suggestion_engine None) SUPERTYPE_OF empty_guards)
     <> Ok [Constraint_init ex_T SUPERTYPE_OF (AnyType suggestion_engine None)].
Proof. split; [ reflexivity | discriminate ]. Qed.

(* ------------------------------------------------------------------ *)
(** ** C3: union distribution *)

Lemma for_extend_two :
  forall A B (f : A -> M (list B)) x y st ra st1 rb st2,
    f x st = (Ok ra, st1) ->
    f y st1 = (Ok rb, st2) ->
    for_extend [x; y] f st = (Ok (ra ++ rb), st2).
Proof.
  intros A B f x y st ra st1 rb st2 Hx Hy. simpl.
  unfold bind at 1. rewrite Hx.
  unfold bind at 1. unfold bind at 1. rewrite Hy.
  unfold bind at 1. unfold ret. rewrite app_nil_r. reflexivity.
Qed.

(** C3, as the code has it.  The operands are normalized first, and the
    items are those of the simplified union.  For a template that holds no
    recursive alias and a pair that is not on the guard: with direction
    SUBTYPE_OF and a template whose simplified form is still a union, the
    result is the results of its items against the normalized actual, run in
    item order and concatenated; with direction SUPERTYPE_OF, a normalized
    template that is not a type variable and an actual whose simplified form
    is a union, it is the results of the template against the actual's items.
    For the union of two items the result is the concatenation of the two
    results. *)
Theorem infer_constraints_union_distribution :
  forall O fuel template actual st,
    on_recursion_guard O template actual (inferring st) = false ->
    has_recursive_types O template = false ->
    is_suggestion_any (normalize_operand O actual) = false ->
    (forall items,
        normalize_operand O template = UnionType items ->
        infer_constraints O (S fuel) template actual SUBTYPE_OF st =
        for_extend items
          (fun t_item =>
             infer_constraints O fuel t_item (normalize_operand O actual) SUBTYPE_OF)
          st)
    /\ (forall items,
        is_TypeVarType (normalize_operand O template) = false ->
        normalize_operand O actual = UnionType items ->
        infer_constraints O (S fuel) template actual SUPERTYPE_OF st =
        for_extend items
          (fun a_item => infer_constraints O fuel template a_item SUPERTYPE_OF)
          st)
    /\ (forall A B ra st1 rb st2,
        normalize_operand O template = UnionType [A; B] ->
        infer_constraints O fuel A (normalize_operand O actual) SUBTYPE_OF st
          = (Ok ra, st1) ->
        infer_constraints O fuel B (normalize_operand O actual) SUBTYPE_OF st1
          = (Ok rb, st2) ->
        infer_constraints O (S fuel) template actual SUBTYPE_OF st
          = (Ok (ra ++ rb), st2)).
Proof.
  intros O fuel template actual st Hguard Hrec Hsug.
  assert (Hsub : forall items,
            normalize_operand O template = UnionType items ->
            infer_constraints O (S fuel) template actual SUBTYPE_OF st =
            for_extend items
              (fun t_item =>
                 infer_constraints O fuel t_item (normalize_operand O actual)
                   SUBTYPE_OF) st).
  { intros items Ht.
    rewrite infer_constraints_unfold, Hguard, Hrec.
    rewrite _infer_constraints_unfold. cbv zeta.
    rewrite Hsug, Ht. reflexivity. }
  split; [ exact Hsub | split ].
  - intros items Htv Ha.
    rewrite infer_constraints_unfold, Hguard, Hrec.
    rewrite _infer_constraints_unfold. cbv zeta.
    rewrite Hsug, Ha.
    destruct (normalize_operand O template); try reflexivity.
    destruct v; try reflexivity. discriminate.
  - intros A B ra st1 rb st2 Ht HA HB.
    rewrite (Hsub _ Ht).
    eapply for_extend_two; eassumption.
Qed.

(** The distribution on an example: [Union[T, S] <: int]. *)
Lemma infer_constraints_union_distribution_example :
  infer_constraints example_oracle 2
    (UnionType [TypeVarLike ex_T; TypeVarLike ex_S]) ex_int SUBTYPE_OF empty_guards
  = (Ok ([Constraint_init ex_T SUBTYPE_OF ex_int]
         ++ [Constraint_init ex_S SUBTYPE_OF ex_int]), empty_guards).
Proof.
  refine (proj2 (proj2
            (infer_constraints_union_distribution example_oracle 1
               (UnionType [TypeVarLike ex_T; TypeVarLike ex_S]) ex_int
               empty_guards _ _ _))
            (TypeVarLike ex_T) (TypeVarLike ex_S) _ empty_guards _ empty_guards
            _ _ _);
    reflexivity.
Defined.

(** C3, as stated, fails: [Union[list[T], list[T]]] simplifies to [list[T]],
    which is matched once; the result is that of one item, not the
    concatenation of the results of the two. *)
Lemma infer_constraints_union_of_equal_items :
  let r := [Constraint_init ex_T SUBTYPE_OF ex_int;
            Constraint_init ex_T SUPERTYPE_OF ex_int] in
  infer_constraints example_oracle 5
    (UnionType [ex_list_of_T; ex_list_of_T]) ex_list_of_int SUBTYPE_OF empty_guards
  = (Ok r, empty_guards)
  /\ infer_constraints example_oracle 5 ex_list_of_T ex_list_of_int SUBTYPE_OF
       empty_guards
     = (Ok r, empty_guards)
  /\ r <> r ++ r.
Proof. repeat split. discriminate. Qed.

(* ------------------------------------------------------------------ *)
(** ** C4: the guards at the boundaries of a request *)

Lemma balanced_actuals_loop :
  forall O fuel callee arg_types' arg_kinds' i actuals mapper,
    balanced (actuals_loop O fuel callee arg_types' arg_kinds' i actuals mapper).
Proof.
  intros O fuel callee arg_types' arg_kinds' i actuals.
  induction actuals as [ | actual rest IH]; intros mapper; simpl.
  - apply balanced_ret.
  - apply balanced_bind; [ apply balanced_index_or_raise | intros [ty | ] ].
    + apply balanced_bind; [ apply balanced_index_or_raise | intros kind ].
      apply balanced_bind; [ apply balanced_index_or_raise | intros name ].
      apply balanced_bind; [ apply balanced_index_or_raise | intros callee_kind ].
      destruct (expand_actual_type O mapper ty kind name callee_kind)
        as [actual_type mapper'].
      apply balanced_bind; [ apply balanced_index_or_raise | intros formal ].
      apply balanced_bind; [ apply balanced_infer_constraints | intros c ].
      apply balanced_bind; [ apply IH | intros p; apply balanced_ret ].
    + apply IH.
Qed.

Lemma balanced_formals_loop :
  forall O fuel callee arg_types' arg_kinds' formal_to_actual i mapper,
    balanced (formals_loop O fuel callee arg_types' arg_kinds' i formal_to_actual mapper).
Proof.
  intros O fuel callee arg_types' arg_kinds' formal_to_actual.
  induction formal_to_actual as [ | actuals rest IH]; intros i mapper; simpl.
  - apply balanced_ret.
  - apply balanced_bind; [ apply balanced_actuals_loop | intros p ].
    apply balanced_bind; [ apply IH | intros r; apply balanced_ret ].
Qed.

(** C4, as the code has it: a request that returns, early or not, leaves
    both guards (the stack of pairs and the [inferring] list of every class)
    exactly as it found them.  This holds for [infer_constraints] at any
    depth and for [infer_constraints_for_callable].  Nothing is promised for
    a request that raises. *)
Theorem guards_balanced_when_request_returns :
  forall O fuel st res st',
    (forall template actual direction,
        infer_constraints O fuel template actual direction st = (Ok res, st') ->
        same_guards st' st)
    /\ (forall callee arg_types' arg_kinds' formal_to_actual context,
        infer_constraints_for_callable O fuel callee arg_types' arg_kinds'
          formal_to_actual context st = (Ok res, st') ->
        same_guards st' st).
Proof.
  intros O fuel st res st'. split.
  - intros template actual direction H.
    exact (balanced_infer_constraints O fuel template actual direction st res st' H).
  - intros callee arg_types' arg_kinds' formal_to_actual context H.
    unfold infer_constraints_for_callable in H.
    exact (balanced_formals_loop O fuel callee arg_types' arg_kinds'
             formal_to_actual 0%nat _ st res st' H).
Qed.

(** A request on a recursive template that returns: the pair was put on the
    guard and taken off again. *)
Lemma guards_balanced_example :
  same_guards
    (snd (infer_constraints example_oracle 10 ex_list_of_nested ex_list_of_int
            SUPERTYPE_OF empty_guards))
    empty_guards.
Proof.
  refine (proj1 (guards_balanced_when_request_returns example_oracle 10
                   empty_guards
                   [Constraint_init ex_T SUPERTYPE_OF ex_int;
                    Constraint_init ex_T SUBTYPE_OF ex_int]
                   _)
            ex_list_of_nested ex_list_of_int SUPERTYPE_OF _).
  vm_compute. reflexivity.
Defined.

(** C4, as stated, fails on the exits that raise: the request below ends in
    NotImplementedError with its pair still on the recursion guard, and the
    one after it with the template still on its protocol's guard. *)
Lemma guards_left_when_request_raises :
  (fst (infer_constraints example_oracle 10 ex_array_of_nested ex_array_of_int
          SUBTYPE_OF empty_guards) = Raise NotImplementedError
   /\ inferring (snd (infer_constraints example_oracle 10 ex_array_of_nested
                        ex_array_of_int SUBTYPE_OF empty_guards))
      = [(ex_array_of_nested, ex_array_of_int)]
   /\ inferring empty_guards = [])
  /\ (fst (infer_constraints example_oracle 10 ex_hasx_of_unpack ex_box_of_int
             SUPERTYPE_OF empty_guards) = Raise NotImplementedError
      /\ type_inferring (snd (infer_constraints example_oracle 10 ex_hasx_of_unpack
                                ex_box_of_int SUPERTYPE_OF empty_guards)) "HasX"
         = [ex_hasx_of_unpack]
      /\ type_inferring empty_guards "HasX" = []).
Proof. repeat split. Qed.

(* ------------------------------------------------------------------ *)
(** ** C5: the combinator on equal options *)

Lemma is_same_constraint_refl :
  forall O c,
    is_same_type O (target c) (target c) = true ->
    is_same_constraint O c c = true.
Proof.
  intros O c H. unfold is_same_constraint.
  rewrite !Z.eqb_refl, H. reflexivity.
Qed.

Lemma is_same_constraints_refl :
  forall O X,
    (forall c, In c X -> is_same_type O (target c) (target c) = true) ->
    is_same_constraints O X X = true.
Proof.
  intros O X H. unfold is_same_constraints.
  assert (Hall : forallb (fun c1 => existsb (fun c2 => is_same_constraint O c1 c2) X) X
                 = true).
  { apply forallb_forall. intros c Hc. apply existsb_exists.
    exists c. split; [ exact Hc | apply is_same_constraint_refl; auto ]. }
  rewrite Hall. reflexivity.
Qed.

(** C5: for a non-empty constraint list X (whose targets the subtype oracle
    finds the same as themselves), combining [[X, X, X]] eagerly returns X;
    more generally, when every surviving option is the same constraint set
    as the first, the combinator returns the first survivor.  One unit of
    depth is enough. *)
Theorem any_constraints_equal_options :
  forall O fuel,
    (forall X,
        X <> [] ->
        (forall c, In c X -> is_same_type O (target c) (target c) = true) ->
        any_constraints O (S fuel) [Some X; Some X; Some X] true = Ok X)
    /\ (forall options eager first rest,
        valid_options_of options eager = first :: rest ->
        forallb (is_same_constraints O first) rest = true ->
        any_constraints O (S fuel) options eager = Ok first).
Proof.
  intros O fuel.
  assert (Hgen : forall options eager first rest,
             valid_options_of options eager = first :: rest ->
             forallb (is_same_constraints O first) rest = true ->
             any_constraints O (S fuel) options eager = Ok first).
  { intros options eager first rest Hv Hs. simpl. rewrite Hv.
    destruct rest as [ | second rest']; [ reflexivity | ].
    rewrite Hs. reflexivity. }
  split; [ | exact Hgen ].
  intros X Hne Hrefl.
  apply Hgen with (rest := [X; X]).
  - destruct X as [ | c X']; [ contradiction | reflexivity ].
  - simpl. rewrite (is_same_constraints_refl O X Hrefl). reflexivity.
Qed.

(** The combinator on three copies of [[T :> int]]. *)
Lemma any_constraints_equal_options_example :
  let X := [Constraint_init ex_T SUPERTYPE_OF ex_int] in
  any_constraints example_oracle 1 [Some X; Some X; Some X] true = Ok X.
Proof.
  cbv zeta.
  apply (proj1 (any_constraints_equal_options example_oracle 0)).
  - discriminate.
  - intros c [Hc | []]. subst c. reflexivity.
Defined.

(* ------------------------------------------------------------------ *)
(** ** C6: the combinator's last resort *)

Lemma list_eq_length :
  forall A (eq : A -> A -> bool) l l',
    list_eq eq l l' = true -> List.length l = List.length l'.
Proof.
  intros A eq l. induction l as [ | x l IH]; intros [ | y l'] H; simpl in *;
    try discriminate; try reflexivity.
  apply andb_prop in H. destruct H as [_ H]. f_equal. apply IH. exact H.
Qed.

Lemma list_eq_filter :
  forall A (eq : A -> A -> bool) (p : A -> bool) l,
    (forall x, In x l -> eq x x = true) ->
    list_eq eq (filter p l) l = forallb p l.
Proof.
  intros A eq p l. induction l as [ | x l IH]; intros Hrefl; simpl.
  - reflexivity.
  - destruct (p x) eqn:Hp; simpl.
    + rewrite (Hrefl x (or_introl eq_refl)). simpl.
      apply IH. intros y Hy. apply Hrefl. right. exact Hy.
    + destruct (list_eq eq (filter p l) (x :: l)) eqn:E; [ | reflexivity ].
      apply list_eq_length in E. simpl in E.
      pose proof (filter_length_le p l). lia.
Qed.

Lemma Constraint_eq_refl :
  forall O c, type_eq O (target c) (target c) = true -> Constraint_eq O c c = true.
Proof.
  intros O c H. unfold Constraint_eq, Constraint_key, key_eq.
  rewrite !Z.eqb_refl, H. reflexivity.
Qed.

(** Filtering leaves an option equal to itself exactly when it drops
    nothing. *)
Lemma filter_satisfiable_changes :
  forall O o,
    (forall l c, o = Some l -> In c l -> type_eq O (target c) (target c) = true) ->
    option_eq (list_eq (Constraint_eq O)) (filter_satisfiable O o) o
    = negb (filtering_drops O o).
Proof.
  intros O [ [ | c l] | ] Hrefl; try reflexivity.
  unfold filter_satisfiable.
  fold (satisfiable_constraint O).
  destruct (filter (satisfiable_constraint O) (c :: l)) as [ | s ss] eqn:Ef.
  - simpl in Ef. destruct (satisfiable_constraint O c) eqn:Hc; [ discriminate | ].
    simpl. rewrite Hc. reflexivity.
  - unfold option_eq. rewrite <- Ef.
    rewrite list_eq_filter.
    + unfold filtering_drops.
      generalize (c :: l). intros l0. induction l0 as [ | x l0 IH]; simpl.
      * reflexivity.
      * rewrite IH. destruct (satisfiable_constraint O x); reflexivity.
    + intros x Hx. apply Constraint_eq_refl. apply (Hrefl (c :: l)); auto.
Qed.

Lemma options_eq_filtered :
  forall O options,
    (forall l c, In (Some l) options -> In c l ->
                 type_eq O (target c) (target c) = true) ->
    options_eq O (map (filter_satisfiable O) options) options
    = negb (existsb (filtering_drops O) options).
Proof.
  intros O options. unfold options_eq.
  induction options as [ | o options IH]; intros Hrefl; simpl.
  - reflexivity.
  - rewrite filter_satisfiable_changes.
    + rewrite IH.
      * rewrite negb_orb. reflexivity.
      * intros l c Hl Hc. apply (Hrefl l c); [ right; exact Hl | exact Hc ].
    + intros l c Ho Hc. subst o. apply (Hrefl l c); [ left; reflexivity | exact Hc ].
Qed.

Lemma any_constraints_unfold :
  forall O fuel options eager,
    any_constraints O (S fuel) options eager =
    let valid_options := valid_options_of options eager in
    let last_resort :=
      if negb (options_eq O (map (filter_satisfiable O) options) options)
      then any_constraints O fuel (map (filter_satisfiable O) options) eager
      else Ok [] in
    match valid_options with
    | [] => Ok []
    | [only] => Ok only
    | first :: rest =>
        if forallb (is_same_constraints O first) rest then Ok first
        else if forallb (is_similar_constraints O first) rest then
          let trivial_options := select_trivial O (map Some valid_options) in
          if truthy trivial_options
             && (List.length trivial_options <? List.length valid_options)%nat
          then
            any_constraints O fuel
              (map (fun option_ => Some (map (merge_with_any O) option_))
                   (filter (fun option_ => negb (option_in O option_ trivial_options))
                           valid_options))
              eager
          else last_resort
        else last_resort
    end.
Proof. intros. reflexivity. Qed.

(** C6: when the earlier steps fail, every option given to the call is
    filtered, a constraint being kept when its target is a subtype of the
    upper bound of the variable it came from.  The sentinel and the empty
    option are left alone, a non-empty option that keeps nothing becomes the
    sentinel, and any other becomes the list of what it keeps.  If some
    option lost a constraint the combination is run again on the filtered
    options; otherwise the result is the empty list.  (Type equality is
    taken to hold between a target and itself.) *)
Theorem any_constraints_filters_as_last_resort :
  forall O fuel options eager,
    (forall l c, In (Some l) options -> In c l ->
                 type_eq O (target c) (target c) = true) ->
    earlier_steps_fail O options eager = true ->
    any_constraints O (S fuel) options eager =
      (if existsb (filtering_drops O) options
       then any_constraints O fuel (map (filter_satisfiable O) options) eager
       else Ok [])
    /\ filter_satisfiable O None = None
    /\ filter_satisfiable O (Some []) = Some []
    /\ (forall l,
         l <> [] ->
         filter_satisfiable O (Some l) =
           match filter (satisfiable_constraint O) l with
           | [] => None
           | kept => Some kept
           end).
Proof.
  intros O fuel options eager Hrefl Hfail.
  split; [ | split; [ reflexivity | split; [ reflexivity | ] ] ].
  - unfold earlier_steps_fail in Hfail. cbv zeta in Hfail.
    rewrite any_constraints_unfold. cbv zeta.
    rewrite (options_eq_filtered O options Hrefl). rewrite negb_involutive.
    destruct (valid_options_of options eager) as [ | first [ | second rest]];
      try discriminate.
    cbv beta iota in Hfail |- *.
    apply andb_prop in Hfail. destruct Hfail as [Hsame Hmerge].
    apply negb_true_iff in Hsame. apply negb_true_iff in Hmerge.
    rewrite Hsame.
    destruct (forallb (is_similar_constraints O first) (second :: rest)).
    + rewrite andb_true_l in Hmerge. rewrite Hmerge. reflexivity.
    + reflexivity.
  - intros l Hl. destruct l as [ | c l]; [ contradiction | ].
    unfold filter_satisfiable. fold (satisfiable_constraint O).
    destruct (filter (satisfiable_constraint O) (c :: l)); reflexivity.
Qed.

(** The two options differ, the second is filtered away and the retry
    returns the first. *)
Lemma any_constraints_filters_example :
  earlier_steps_fail example_oracle ex_options true = true
  /\ map (filter_satisfiable example_oracle) ex_options
     = [Some [Constraint_init ex_B SUPERTYPE_OF ex_int]; None]
  /\ any_constraints example_oracle 2 ex_options true
     = Ok [Constraint_init ex_B SUPERTYPE_OF ex_int].
Proof.
  assert (Hrefl : forall l c, In (Some l) ex_options -> In c l ->
                    type_eq example_oracle (target c) (target c) = true).
  { intros l c [Hl | [Hl | []]] Hc; inversion Hl; subst l;
      destruct Hc as [Hc | []]; subst c; reflexivity. }
  destruct (any_constraints_filters_as_last_resort example_oracle 1 ex_options true
              Hrefl eq_refl) as [H _].
  split; [ reflexivity | split; [ reflexivity | ] ].
  rewrite H. reflexivity.
Defined.

(* ------------------------------------------------------------------ *)
(** ** C7: a callable against a callable *)

Lemma infer_constraints_type_var_plain :
  forall O fuel id values ub variance actual direction st,
    let tv := TypeVarType id values ub variance in
    get_proper_type O (TypeVarLike tv) = TypeVarLike tv ->
    has_recursive_types O (TypeVarLike tv) = false ->
    on_recursion_guard O (TypeVarLike tv) actual (inferring st) = false ->
    is_suggestion_any (normalize_operand O actual) = false ->
    infer_constraints O (S fuel) (TypeVarLike tv) actual direction st =
      (Ok [Constraint_init tv direction (normalize_operand O actual)], st).
Proof.
  intros O fuel id values ub variance actual direction st tv Hp Hr Hg Hs.
  subst tv.
  rewrite infer_constraints_unfold, Hg, Hr.
  rewrite _infer_constraints_unfold. cbv zeta. rewrite Hs.
  assert (Hn : normalize_operand O (TypeVarLike (TypeVarType id values ub variance))
               = TypeVarLike (TypeVarType id values ub variance)).
  { unfold normalize_operand. rewrite Hp. reflexivity. }
  rewrite Hn. reflexivity.
Qed.

Lemma bind_returns :
  forall A B (m : M A) (f : A -> M B) st a st',
    m st = (Ok a, st') -> bind m f st = f a st'.
Proof. intros A B m f st a st' H. unfold bind. rewrite H. reflexivity. Qed.

Lemma on_recursion_guard_empty :
  forall O template actual st,
    inferring st = [] -> on_recursion_guard O template actual (inferring st) = false.
Proof. intros O template actual st H. rewrite H. reflexivity. Qed.

(** C7: when the template (its keyword arguments unpacked) has no
    parameter specification and is not [...], matching it against a
    callable recurses on each aligned pair of parameters with the direction
    negated, then on the return types (a type guard standing for the return
    type of the side that has one) in the original direction. For
    [Callable[[T], S]] against [Callable[[X], Y]] with direction
    SUPERTYPE_OF, T and S type variables, plain types, nothing on the guard,
    this gives exactly [[T <: X, S :> Y]]. *)
Theorem visit_callable_type_against_callable :
  forall O,
    (forall rec direction negated template cactual st,
        param_spec O (with_unpacked_kwargs O template) = None ->
        is_ellipsis_args (with_unpacked_kwargs O template) = false ->
        neg_op direction = Ok negated ->
        accept O rec (CallableType cactual) direction (CallableType template) st =
        (res <- for_extend
                  (combine (arg_types (with_unpacked_kwargs O template))
                           (arg_types (with_unpacked_kwargs O cactual)))
                  (fun '(t, a) => rec t a negated) ;;
         r <- rec (matched_ret_type (with_unpacked_kwargs O template))
                  (matched_ret_type (with_unpacked_kwargs O cactual)) direction ;;
         ret (res ++ r)) st)
    /\ (forall fuel idT valuesT ubT varT idS valuesS ubS varS X Y st,
        let T := TypeVarType idT valuesT ubT varT in
        let S' := TypeVarType idS valuesS ubS varS in
        let template := ex_callable (TypeVarLike T) (TypeVarLike S') in
        let actual := ex_callable X Y in
        inferring st = [] ->
        get_proper_type O (CallableType template) = CallableType template ->
        get_proper_type O (CallableType actual) = CallableType actual ->
        has_recursive_types O (CallableType template) = false ->
        with_unpacked_kwargs O template = template ->
        with_unpacked_kwargs O actual = actual ->
        param_spec O template = None ->
        get_proper_type O (TypeVarLike T) = TypeVarLike T ->
        get_proper_type O (TypeVarLike S') = TypeVarLike S' ->
        has_recursive_types O (TypeVarLike T) = false ->
        has_recursive_types O (TypeVarLike S') = false ->
        is_suggestion_any (normalize_operand O X) = false ->
        is_suggestion_any (normalize_operand O Y) = false ->
        infer_constraints O (S (S fuel)) (CallableType template)
          (CallableType actual) SUPERTYPE_OF st
        = (Ok [Constraint_init T SUBTYPE_OF (normalize_operand O X);
               Constraint_init S' SUPERTYPE_OF (normalize_operand O Y)], st)).
Proof.
  intros O. split.
  - intros rec direction negated template cactual st Hps Hell Hneg.
    unfold accept, visit_callable_type, callable_args_constraints. cbv zeta.
    rewrite Hps, Hell, Hneg. reflexivity.
  - intros fuel idT valuesT ubT varT idS valuesS ubS varS X Y st T S' template actual
           Hst HpT HpA Hrec HkT HkA Hps HpTv HpSv HrT HrS HsX HsY.
    rewrite infer_constraints_unfold.
    rewrite (on_recursion_guard_empty O _ _ st Hst), Hrec.
    rewrite _infer_constraints_unfold. cbv zeta.
    assert (HnT : normalize_operand O (CallableType template) = CallableType template).
    { unfold normalize_operand. rewrite HpT. reflexivity. }
    assert (HnA : normalize_operand O (CallableType actual) = CallableType actual).
    { unfold normalize_operand. rewrite HpA. reflexivity. }
    rewrite HnT, HnA.
    change (accept O (infer_constraints O (S fuel)) (CallableType actual) SUPERTYPE_OF
              (CallableType template) st
            = (Ok [Constraint_init T SUBTYPE_OF (normalize_operand O X);
                   Constraint_init S' SUPERTYPE_OF (normalize_operand O Y)], st)).
    unfold accept, visit_callable_type, callable_args_constraints. cbv zeta.
    rewrite HkT, HkA, Hps.
    change (is_ellipsis_args template) with false.
    change (arg_types template) with [TypeVarLike T].
    change (arg_types actual) with [X].
    change (type_guard template) with (@None Ty).
    change (type_guard actual) with (@None Ty).
    change (ret_type template) with (TypeVarLike S').
    change (ret_type actual) with Y.
    cbn [combine for_extend negb].
    assert (HT : (d <- lift (neg_op SUPERTYPE_OF) ;;
                  infer_constraints O (S fuel) (TypeVarLike T) X d) st
                 = (Ok [Constraint_init T SUBTYPE_OF (normalize_operand O X)], st)).
    { apply (infer_constraints_type_var_plain O fuel idT valuesT ubT varT X
               SUBTYPE_OF st HpTv HrT (on_recursion_guard_empty O _ _ st Hst) HsX). }
    rewrite (bind_returns _ _ _ _ st _ st
               (bind_returns _ _ _ _ st _ st HT)).
    cbv beta.
    rewrite (bind_returns _ _ _ _ st _ st
               (infer_constraints_type_var_plain O fuel idS valuesS ubS varS Y
                  SUPERTYPE_OF st HpSv HrS (on_recursion_guard_empty O _ _ st Hst) HsY)).
    reflexivity.
Qed.

(** The scenario: [Callable[[T], S]] against [Callable[[int], str]]. *)
Lemma visit_callable_type_scenario :
  infer_constraints example_oracle 2
    (CallableType (ex_callable (TypeVarLike ex_T) (TypeVarLike ex_S)))
    (CallableType (ex_callable ex_int ex_str)) SUPERTYPE_OF empty_guards
  = (Ok [Constraint_init ex_T SUBTYPE_OF ex_int;
         Constraint_init ex_S SUPERTYPE_OF ex_str], empty_guards).
Proof.
  exact (proj2 (visit_callable_type_against_callable example_oracle)
           0%nat 1%Z [] (Instance ex_object) INVARIANT
           2%Z [] (Instance ex_object) INVARIANT ex_int ex_str empty_guards
           eq_refl eq_refl eq_refl eq_refl eq_refl eq_refl eq_refl
           eq_refl eq_refl eq_refl eq_refl eq_refl eq_refl).
Defined.

(* ------------------------------------------------------------------ *)
(** ** C8: protocol members, all or nothing *)

Lemma bind_ext :
  forall A B (m : M A) (f g : A -> M B) st,
    (forall a st', f a st' = g a st') -> bind m f st = bind m g st.
Proof.
  intros A B m f g st H. unfold bind.
  destruct (m st) as [[a | e] st']; [ apply H | reflexivity ].
Qed.

Lemma bind_assoc :
  forall A B C (m : M A) (f : A -> M B) (g : B -> M C) st,
    bind (bind m f) g st = bind m (fun a => bind (f a) g) st.
Proof.
  intros A B C m f g st. unfold bind.
  destruct (m st) as [[a | e] st']; reflexivity.
Qed.

Lemma bind_ret_left :
  forall A B (a : A) (f : A -> M B) st, bind (ret a) f st = f a st.
Proof. intros. reflexivity. Qed.

(** The loop with all the members found: what it had, then the members'
    constraints in order. *)
Lemma protocol_members_loop_all_found :
  forall O rec direction instance template subtype protocol class_obj members res st,
    (forall m, In m members ->
               member_types O instance template subtype class_obj m <> None) ->
    protocol_members_loop O rec direction members res
      instance template subtype protocol class_obj st
    = (r <- for_extend members
              (member_constraints O rec direction instance template subtype
                 protocol class_obj) ;;
       ret (res ++ r)) st.
Proof.
  intros O rec direction instance template subtype protocol class_obj members.
  induction members as [ | member rest IH]; intros res st Hall.
  - simpl. unfold bind, ret. rewrite app_nil_r. reflexivity.
  - pose proof (Hall member (or_introl eq_refl)) as Hm.
    cbn [protocol_members_loop for_extend].
    unfold member_constraints at 1. unfold member_types in Hm |- *.
    destruct (find_member O member instance subtype false class_obj) as [inst | ];
      [ | contradiction ].
    destruct (find_member O member template subtype false false) as [temp | ];
      [ | contradiction ].
    cbv zeta.
    rewrite !bind_assoc. apply bind_ext. intros r1 st1. cbv beta.
    rewrite !bind_assoc. apply bind_ext. intros r2 st2. cbv beta.
    rewrite IH by (intros m Hin; apply Hall; right; exact Hin).
    rewrite bind_ret_left. cbv beta.
    rewrite !bind_assoc. apply bind_ext. intros rs st3. cbv beta.
    rewrite bind_ret_left. unfold ret. rewrite !app_assoc. reflexivity.
Qed.

(** The loop with a member missing after [found]: the work on [found], then
    the empty list. *)
Lemma protocol_members_loop_missing :
  forall O rec direction instance template subtype protocol class_obj
         found member rest res st,
    (forall m, In m found ->
               member_types O instance template subtype class_obj m <> None) ->
    member_types O instance template subtype class_obj member = None ->
    protocol_members_loop O rec direction (found ++ member :: rest) res
      instance template subtype protocol class_obj st
    = (for_extend found
         (member_constraints O rec direction instance template subtype
            protocol class_obj) ;;;
       ret []) st.
Proof.
  intros O rec direction instance template subtype protocol class_obj found.
  induction found as [ | m0 found IH]; intros member rest res st Hall Hmiss.
  - cbn [app protocol_members_loop for_extend].
    unfold member_types in Hmiss.
    destruct (find_member O member instance subtype false class_obj) as [inst | ];
      [ destruct (find_member O member template subtype false false) as [temp | ];
        [ discriminate | reflexivity ]
      | reflexivity ].
  - pose proof (Hall m0 (or_introl eq_refl)) as Hm.
    cbn [app protocol_members_loop for_extend].
    unfold member_constraints at 1. unfold member_types in Hm |- *.
    destruct (find_member O m0 instance subtype false class_obj) as [inst | ];
      [ | contradiction ].
    destruct (find_member O m0 template subtype false false) as [temp | ];
      [ | contradiction ].
    cbv zeta.
    rewrite !bind_assoc. apply bind_ext. intros r1 st1. cbv beta.
    rewrite !bind_assoc. apply bind_ext. intros r2 st2. cbv beta.
    rewrite IH by (try (intros m Hin; apply Hall; right; exact Hin); exact Hmiss).
    rewrite bind_ret_left. cbv beta.
    rewrite !bind_assoc. apply bind_ext. intros rs st3. cbv beta.
    rewrite bind_ret_left. reflexivity.
Qed.

(** A list with an element that fails [p] splits at the first such
    element. *)
Lemma split_at_first_missing :
  forall A (p : A -> bool) (l : list A),
    existsb (fun x => negb (p x)) l = true ->
    exists found x rest,
      l = found ++ x :: rest /\ (forall y, In y found -> p y = true) /\ p x = false.
Proof.
  intros A p l. induction l as [ | x l IH]; intros H; simpl in H.
  - discriminate.
  - destruct (p x) eqn:Hp.
    + simpl in H. destruct (IH H) as (found & y & rest & Hl & Hf & Hy).
      exists (x :: found), y, rest. split; [ rewrite Hl; reflexivity | ].
      split; [ | exact Hy ].
      intros z [Hz | Hz]; [ subst z; exact Hp | apply Hf; exact Hz ].
    + exists [], x, l. split; [ reflexivity | ].
      split; [ intros y [] | exact Hp ].
Qed.

Lemma bind_ret_right :
  forall A (m : M A) st, bind m (fun a => ret a) st = m st.
Proof.
  intros A m st. unfold bind, ret. destruct (m st) as [[a | e] st']; reflexivity.
Qed.

(** C8: a protocol match attempt is all or nothing.  When every member of
    the protocol is found on both the instance and the template, the attempt
    is the members' constraints run in order and concatenated, a member's
    constraints being those of its two types in the direction of the match
    followed, for a settable member, by those of a second recursion in the
    opposite direction.  When a member is missing on either side, the
    attempt does the work of the members before the first missing one and
    then returns the empty list; so whenever it returns with a member
    missing, it returns the empty list and never what the earlier members
    gave. *)
Theorem protocol_members_all_or_nothing :
  forall O rec direction instance template subtype protocol class_obj st,
    let members := protocol_members O (type protocol) in
    let attempt :=
      infer_constraints_from_protocol_members O rec direction
        instance template subtype protocol class_obj in
    let per_member :=
      member_constraints O rec direction instance template subtype
        protocol class_obj in
    let found m :=
      match member_types O instance template subtype class_obj m with
      | Some _ => true
      | None => false
      end in
    (forallb found members = true ->
     attempt st = for_extend members per_member st)
    /\ (forall before member rest,
         members = before ++ member :: rest ->
         forallb found before = true ->
         found member = false ->
         attempt st = (for_extend before per_member ;;; ret []) st)
    /\ (existsb (fun m => negb (found m)) members = true ->
        forall res st', attempt st = (Ok res, st') -> res = []).
Proof.
  intros O rec direction instance template subtype protocol class_obj st
         members attempt per_member found.
  assert (Hfound : forall l, forallb found l = true ->
            forall m, In m l ->
              member_types O instance template subtype class_obj m <> None).
  { intros l Hl m Hm. rewrite forallb_forall in Hl. specialize (Hl m Hm).
    unfold found in Hl.
    destruct (member_types O instance template subtype class_obj m);
      [ discriminate | discriminate ]. }
  assert (Hmissing : forall before member rest,
            members = before ++ member :: rest ->
            forallb found before = true ->
            found member = false ->
            attempt st = (for_extend before per_member ;;; ret []) st).
  { intros before member rest Hsplit Hbefore Hmember.
    unfold attempt, infer_constraints_from_protocol_members.
    fold members. rewrite Hsplit.
    apply protocol_members_loop_missing.
    - apply Hfound. exact Hbefore.
    - unfold found in Hmember.
      destruct (member_types O instance template subtype class_obj member);
        [ discriminate | reflexivity ]. }
  split; [ | split; [ exact Hmissing | ] ].
  - intros Hall. unfold attempt, infer_constraints_from_protocol_members.
    fold members.
    rewrite protocol_members_loop_all_found by (apply Hfound; exact Hall).
    cbn [app]. apply bind_ret_right.
  - intros Hex res st' Hrun.
    destruct (split_at_first_missing _ found members Hex)
      as (before & member & rest & Hsplit & Hbefore & Hmember).
    rewrite (Hmissing before member rest Hsplit) in Hrun;
      [ | apply forallb_forall; exact Hbefore | exact Hmember ].
    unfold bind in Hrun.
    destruct (for_extend before per_member st) as [[r | e] st1];
      [ | discriminate ].
    unfold ret in Hrun. inversion Hrun. reflexivity.
Qed.

(** [Box[int]] against the protocol [HasX[T]], whose one member is settable,
    and against [Closer[T]], whose second member it lacks. *)
Lemma protocol_members_example :
  infer_constraints_from_protocol_members example_oracle
    (infer_constraints example_oracle 3) SUPERTYPE_OF
    ex_box_int ex_hasx_T (Instance ex_box_int) ex_hasx_T false empty_guards
  = (Ok [Constraint_init ex_T SUPERTYPE_OF ex_int;
         Constraint_init ex_T SUBTYPE_OF ex_int], empty_guards)
  /\ infer_constraints_from_protocol_members example_oracle
       (infer_constraints example_oracle 3) SUPERTYPE_OF
       ex_box_int ex_closer_T (Instance ex_box_int) ex_closer_T false empty_guards
     = (Ok [], empty_guards).
Proof.
  split.
  - rewrite (proj1 (protocol_members_all_or_nothing example_oracle
                      (infer_constraints example_oracle 3) SUPERTYPE_OF
                      ex_box_int ex_hasx_T (Instance ex_box_int) ex_hasx_T false
                      empty_guards) eq_refl).
    reflexivity.
  - rewrite (proj1 (proj2 (protocol_members_all_or_nothing example_oracle
                      (infer_constraints example_oracle 3) SUPERTYPE_OF
                      ex_box_int ex_closer_T (Instance ex_box_int) ex_closer_T false
                      empty_guards)) ["x"] "close" [] eq_refl eq_refl eq_refl).
    reflexivity.
Defined.

(* ------------------------------------------------------------------ *)
(** ** C9: what must not reach the matcher *)

(** C9: whatever the actual, the direction and the guards, the matcher
    raises on a template that is a type variable, a union, a type alias or a
    partial type, and on a parameter list against an actual that is not Any;
    the guards are as they were when it raises. *)
Theorem matcher_raises_on_contract_violations :
  forall O rec actual direction st,
    (forall id values ub variance,
        accept O rec actual direction (TypeVarLike (TypeVarType id values ub variance)) st
        = (Raise AssertionError, st))
    /\ (forall items,
        accept O rec actual direction (UnionType items) st = (Raise AssertionError, st))
    /\ (forall alias alias_args,
        accept O rec actual direction (TypeAliasType alias alias_args) st
        = (Raise AssertionError, st))
    /\ accept O rec actual direction PartialType st = (Raise AssertionError, st)
    /\ (forall p,
        is_AnyType actual = false ->
        accept O rec actual direction (Parameters p) st = (Raise RuntimeError, st)).
Proof.
  intros O rec actual direction st.
  repeat split.
  intros p Hany. unfold accept, visit_parameters. rewrite Hany. reflexivity.
Qed.

(** A parameter list against [int]. *)
Lemma matcher_raises_on_parameters_example :
  accept example_oracle (infer_constraints example_oracle 3) ex_int SUPERTYPE_OF
    (Parameters {| params_arg_types := [TypeVarLike ex_T];
                   params_arg_kinds := [ARG_POS];
                   params_arg_names := [None] |})
    empty_guards
  = (Raise RuntimeError, empty_guards).
Proof.
  apply (proj2 (proj2 (proj2 (proj2
           (matcher_raises_on_contract_violations example_oracle
              (infer_constraints example_oracle 3) ex_int SUPERTYPE_OF
              empty_guards))))).
  reflexivity.
Defined.

(* ------------------------------------------------------------------ *)
(** ** C10: actual arguments without a type *)

Lemma index_or_raise_some :
  forall A (l : list A) i x, py_index l i = Some x -> index_or_raise l i = ret x.
Proof. intros A l i x H. unfold index_or_raise. rewrite H. reflexivity. Qed.

Lemma actuals_loop_ignores_untyped :
  forall O fuel callee arg_types' arg_kinds' i actuals mapper st,
    actuals_loop O fuel callee arg_types' arg_kinds' i
      (filter (has_arg_type arg_types') actuals) mapper st
    = actuals_loop O fuel callee arg_types' arg_kinds' i actuals mapper st.
Proof.
  intros O fuel callee arg_types' arg_kinds' i actuals.
  induction actuals as [ | a rest IH]; intros mapper st.
  - reflexivity.
  - cbn [filter]. unfold has_arg_type at 1.
    destruct (py_index arg_types' a) as [[ty | ] | ] eqn:Hidx.
    + cbn [actuals_loop]. rewrite (index_or_raise_some _ _ _ _ Hidx).
      rewrite !bind_ret_left. cbv beta iota.
      apply bind_ext. intros kind st1. cbv beta.
      apply bind_ext. intros name st2. cbv beta.
      apply bind_ext. intros callee_kind st3. cbv beta.
      destruct (expand_actual_type O mapper ty kind name callee_kind)
        as [actual_type mapper'].
      apply bind_ext. intros formal st4. cbv beta.
      apply bind_ext. intros c st5. cbv beta.
      unfold bind. rewrite IH. reflexivity.
    + cbn [actuals_loop]. rewrite (index_or_raise_some _ _ _ _ Hidx).
      rewrite bind_ret_left. cbv beta iota. apply IH.
    + cbn [actuals_loop]. unfold index_or_raise. rewrite Hidx.
      reflexivity.
Qed.

Lemma formals_loop_ignores_untyped :
  forall O fuel callee arg_types' arg_kinds' formal_to_actual i mapper st,
    formals_loop O fuel callee arg_types' arg_kinds' i
      (map (filter (has_arg_type arg_types')) formal_to_actual) mapper st
    = formals_loop O fuel callee arg_types' arg_kinds' i formal_to_actual mapper st.
Proof.
  intros O fuel callee arg_types' arg_kinds' formal_to_actual.
  induction formal_to_actual as [ | actuals rest IH]; intros i mapper st.
  - reflexivity.
  - cbn [map formals_loop]. unfold bind at 1 3.
    rewrite actuals_loop_ignores_untyped.
    destruct (actuals_loop O fuel callee arg_types' arg_kinds' i actuals mapper st)
      as [[p | e] st1]; [ | reflexivity ].
    unfold bind. rewrite IH. reflexivity.
Qed.

Lemma actuals_loop_all_untyped :
  forall O fuel callee arg_types' arg_kinds' i actuals mapper st,
    (forall a, In a actuals -> py_index arg_types' a = Some None) ->
    actuals_loop O fuel callee arg_types' arg_kinds' i actuals mapper st
    = (Ok ([], mapper), st).
Proof.
  intros O fuel callee arg_types' arg_kinds' i actuals.
  induction actuals as [ | a rest IH]; intros mapper st Hall.
  - reflexivity.
  - cbn [actuals_loop].
    rewrite (index_or_raise_some _ _ _ _ (Hall a (or_introl eq_refl))).
    rewrite bind_ret_left. cbv beta iota.
    apply IH. intros b Hb. apply Hall. right. exact Hb.
Qed.

(** C10: the actual arguments whose recorded type is None do not count.
    Taking their positions out of the formal-to-actual mapping changes
    nothing of what the call does (its result, the guards, an exception);
    and when every mapped actual argument has None for its type, the call
    returns the empty list. *)
Theorem infer_constraints_for_callable_ignores_untyped :
  forall O fuel callee arg_types' arg_kinds' formal_to_actual context st,
    infer_constraints_for_callable O fuel callee arg_types' arg_kinds'
      (map (filter (has_arg_type arg_types')) formal_to_actual) context st
    = infer_constraints_for_callable O fuel callee arg_types' arg_kinds'
        formal_to_actual context st
    /\ ((forall actuals a, In actuals formal_to_actual -> In a actuals ->
                           py_index arg_types' a = Some None) ->
        infer_constraints_for_callable O fuel callee arg_types' arg_kinds'
          formal_to_actual context st = (Ok [], st)).
Proof.
  intros O fuel callee arg_types' arg_kinds' formal_to_actual context st. split.
  - unfold infer_constraints_for_callable. apply formals_loop_ignores_untyped.
  - unfold infer_constraints_for_callable.
    generalize (ArgTypeExpander_init O context) as mapper.
    generalize 0%nat as i.
    induction formal_to_actual as [ | actuals rest IH]; intros i mapper Hall.
    + reflexivity.
    + cbn [formals_loop]. unfold bind at 1.
      rewrite actuals_loop_all_untyped
        by (intros a Ha; apply (Hall actuals a); [ left; reflexivity | exact Ha ]).
      cbn [fst snd]. unfold bind.
      rewrite IH
        by (intros l a Hl Ha; apply (Hall l a); [ right; exact Hl | exact Ha ]).
      reflexivity.
Qed.

(** A call with two formals: the first gets an argument of type [int] and
    one without a type, the second only one without a type. *)
Lemma infer_constraints_for_callable_example :
  let callee :=
    {| arg_types := [TypeVarLike ex_T; TypeVarLike ex_S];
       arg_kinds := [ARG_POS; ARG_POS]; arg_names := [None; None];
       ret_type := NoneType; fallback := Some ex_function;
       is_ellipsis_args := false; type_guard := None;
       from_concatenate := false |} in
  infer_constraints_for_callable example_oracle 3 callee
    [Some ex_int; None; None] [ARG_POS; ARG_POS; ARG_POS]
    [[0%Z; 1%Z]; [2%Z]] tt empty_guards
  = (Ok [Constraint_init ex_T SUPERTYPE_OF ex_int], empty_guards)
  /\ infer_constraints_for_callable example_oracle 3 callee
       [Some ex_int; None; None] [ARG_POS; ARG_POS; ARG_POS]
       [[1%Z]; [2%Z; (-1)%Z]] tt empty_guards
     = (Ok [], empty_guards).
Proof.
  cbv zeta. split.
  - rewrite <- (proj1 (infer_constraints_for_callable_ignores_untyped
                         example_oracle 3 _ _ _ _ tt empty_guards)).
    reflexivity.
  - apply (proj2 (infer_constraints_for_callable_ignores_untyped
                    example_oracle 3 _ _ _ _ tt empty_guards)).
    intros actuals a [Hl | [Hl | []]] Ha; subst actuals.
    + destruct Ha as [Ha | []]. subst a. reflexivity.
    + destruct Ha as [Ha | [Ha | []]]; subst a; reflexivity.
Defined.


(* ================================================================== *)
(** * Further properties of the module *)

(* ------------------------------------------------------------------ *)
(** ** neg_op *)

(** X1: on the two directions [neg_op] is an involution without a fixed
    point, and on any other integer it raises ValueError. *)
Theorem neg_op_involution :
  forall op,
    ((op = SUBTYPE_OF \/ op = SUPERTYPE_OF) ->
     exists op', neg_op op = Ok op' /\ op' <> op /\ neg_op op' = Ok op)
    /\ (op <> SUBTYPE_OF -> op <> SUPERTYPE_OF -> neg_op op = Raise ValueError)
    /\ (forall op', neg_op op = Ok op' ->
                    (op = SUBTYPE_OF \/ op = SUPERTYPE_OF)
                    /\ (op' = SUBTYPE_OF \/ op' = SUPERTYPE_OF)).
Proof.
  intros op. split; [ | split ].
  - intros [H | H]; subst op.
    + exists SUPERTYPE_OF. repeat split. discriminate.
    + exists SUBTYPE_OF. repeat split. discriminate.
  - intros H0 H1. unfold neg_op.
    destruct (Z.eqb_spec op SUBTYPE_OF); [ contradiction | ].
    destruct (Z.eqb_spec op SUPERTYPE_OF); [ contradiction | reflexivity ].
  - intros op' H. unfold neg_op in H.
    destruct (Z.eqb_spec op SUBTYPE_OF).
    + inversion H. subst. auto.
    + destruct (Z.eqb_spec op SUPERTYPE_OF); [ | discriminate ].
      inversion H. subst. auto.
Qed.

(* ------------------------------------------------------------------ *)
(** ** filter_satisfiable *)

Lemma filter_satisfiable_nonempty :
  forall O l,
    l <> [] ->
    filter_satisfiable O (Some l) =
      match filter (satisfiable_constraint O) l with
      | [] => None
      | kept => Some kept
      end.
Proof.
  intros O l Hl. destruct l as [ | c l]; [ contradiction | ].
  unfold filter_satisfiable. fold (satisfiable_constraint O).
  destruct (filter (satisfiable_constraint O) (c :: l)); reflexivity.
Qed.

Lemma filter_filter_same :
  forall A (p : A -> bool) l, filter p (filter p l) = filter p l.
Proof.
  intros A p l. induction l as [ | x l IH]; simpl.
  - reflexivity.
  - destruct (p x) eqn:Hp; simpl; [ rewrite Hp, IH; reflexivity | exact IH ].
Qed.

(** X2: [filter_satisfiable] is idempotent; it answers the sentinel exactly
    for the sentinel and for a non-empty option none of whose constraints
    can be satisfied; and what it keeps of a non-empty option is never
    empty and is exactly the constraints of the option whose target is a
    subtype of their variable's upper bound. *)
Theorem filter_satisfiable_idempotent :
  forall O o,
    filter_satisfiable O (filter_satisfiable O o) = filter_satisfiable O o
    /\ (filter_satisfiable O o = None <->
        o = None
        \/ exists l, o = Some l /\ l <> []
                     /\ forall c, In c l -> satisfiable_constraint O c = false)
    /\ (forall l kept,
         o = Some l -> l <> [] -> filter_satisfiable O o = Some kept ->
         kept <> []
         /\ forall c, In c kept <-> (In c l /\ satisfiable_constraint O c = true)).
Proof.
  intros O o. split; [ | split ].
  - destruct o as [l | ]; [ | reflexivity ].
    destruct l as [ | c l]; [ reflexivity | ].
    rewrite filter_satisfiable_nonempty by discriminate.
    destruct (filter (satisfiable_constraint O) (c :: l)) as [ | k ks] eqn:Ef;
      [ reflexivity | ].
    rewrite filter_satisfiable_nonempty by discriminate.
    rewrite <- Ef, filter_filter_same, Ef. reflexivity.
  - split.
    + intros H. destruct o as [l | ]; [ right | left; reflexivity ].
      destruct l as [ | c l]; [ discriminate | ].
      rewrite filter_satisfiable_nonempty in H by discriminate.
      destruct (filter (satisfiable_constraint O) (c :: l)) as [ | k ks] eqn:Ef;
        [ | discriminate ].
      exists (c :: l). split; [ reflexivity | split; [ discriminate | ] ].
      intros c0 Hc0.
      destruct (satisfiable_constraint O c0) eqn:Hs; [ | reflexivity ].
      assert (Hin : In c0 (filter (satisfiable_constraint O) (c :: l))).
      { apply filter_In. split; assumption. }
      rewrite Ef in Hin. destruct Hin.
    + intros [H | (l & Ho & Hl & Hall)]; subst o; [ reflexivity | ].
      rewrite filter_satisfiable_nonempty by exact Hl.
      destruct (filter (satisfiable_constraint O) l) as [ | k ks] eqn:Ef;
        [ reflexivity | ].
      assert (Hin : In k (filter (satisfiable_constraint O) l)).
      { rewrite Ef. left. reflexivity. }
      apply filter_In in Hin. destruct Hin as [Hk Hs].
      rewrite (Hall k Hk) in Hs. discriminate.
  - intros l kept Ho Hl Hf. subst o.
    rewrite filter_satisfiable_nonempty in Hf by exact Hl.
    destruct (filter (satisfiable_constraint O) l) as [ | k ks] eqn:Ef;
      [ discriminate | ].
    inversion Hf. subst kept. split; [ discriminate | ].
    intros c. rewrite <- Ef. apply filter_In.
Qed.

(* ------------------------------------------------------------------ *)
(** ** simplify_away_incomplete_types *)

(** X3: [simplify_away_incomplete_types] never empties a list: it keeps the
    complete items when there is one and everything otherwise.  Its result
    is made of items of the input, and it is idempotent. *)
Theorem simplify_away_incomplete_types_keeps_something :
  forall O types,
    (types <> [] -> simplify_away_incomplete_types O types <> [])
    /\ (forall t, In t (simplify_away_incomplete_types O types) -> In t types)
    /\ ((exists t, In t types /\ is_complete_type O t = true) ->
        forall t, In t (simplify_away_incomplete_types O types)
                  <-> (In t types /\ is_complete_type O t = true))
    /\ ((forall t, In t types -> is_complete_type O t = false) ->
        simplify_away_incomplete_types O types = types)
    /\ simplify_away_incomplete_types O (simplify_away_incomplete_types O types)
       = simplify_away_incomplete_types O types.
Proof.
  intros O types. unfold simplify_away_incomplete_types.
  destruct (filter (is_complete_type O) types) as [ | k ks] eqn:Ef; cbn [truthy].
  - split; [ auto | split; [ auto | split; [ | split ] ] ].
    + intros (t & Ht & Hc).
      assert (Hin : In t (filter (is_complete_type O) types))
        by (apply filter_In; split; assumption).
      rewrite Ef in Hin. destruct Hin.
    + reflexivity.
    + rewrite Ef. reflexivity.
  - split; [ intros _; discriminate | ].
    split; [ intros t Ht; rewrite <- Ef in Ht; apply filter_In in Ht; tauto | ].
    split; [ intros _ t; rewrite <- Ef; apply filter_In | ].
    split.
    + intros Hall.
      assert (Hin : In k (filter (is_complete_type O) types))
        by (rewrite Ef; left; reflexivity).
      apply filter_In in Hin. destruct Hin as [Hk Hc].
      rewrite (Hall k Hk) in Hc. discriminate.
    + rewrite <- Ef, filter_filter_same, Ef. reflexivity.
Qed.

(* ------------------------------------------------------------------ *)
(** ** The choice of an overload item *)

Lemma hd_error_filter :
  forall A (p : A -> bool) l, hd_error (filter p l) = find p l.
Proof.
  intros A p l. induction l as [ | x l IH]; simpl.
  - reflexivity.
  - destruct (p x); [ reflexivity | exact IH ].
Qed.

Lemma filter_first_split :
  forall A (p : A -> bool) l k ks,
    filter p l = k :: ks ->
    exists before after,
      l = before ++ k :: after
      /\ p k = true
      /\ forall i, In i before -> p i = false.
Proof.
  intros A p l. induction l as [ | x l IH]; intros k ks H; [ discriminate | ].
  cbn [filter] in H. destruct (p x) eqn:Hp.
  - inversion H. subst x. exists [], l. split; [ reflexivity | ].
    split; [ exact Hp | intros i [] ].
  - destruct (IH k ks H) as (before & after & Hl & Hk & Hb).
    exists (x :: before), after. split; [ rewrite Hl; reflexivity | ].
    split; [ exact Hk | ].
    intros i [Hi | Hi]; [ subst i; exact Hp | apply Hb; exact Hi ].
Qed.

(** X4: the item [find_matching_overload_item] picks is the first of the
    items [find_matching_overload_items] picks; it is the first compatible
    item of the overload when there is one and the first item otherwise;
    it fails (the IndexError of [items[0]]) exactly on an empty overload;
    and [find_matching_overload_items] picks items of the overload only. *)
Theorem find_matching_overload_item_is_first_of_items :
  forall O items template,
    hd_error (find_matching_overload_items O items template)
      = find_matching_overload_item O items template
    /\ (find_matching_overload_item O items template = None <-> items = [])
    /\ (forall item,
         find_matching_overload_item O items template = Some item ->
         In item items
         /\ ((exists before after,
                 items = before ++ item :: after
                 /\ is_callable_compatible O item template = true
                 /\ forall i, In i before ->
                              is_callable_compatible O i template = false)
             \/ (hd_error items = Some item
                 /\ forall i, In i items ->
                              is_callable_compatible O i template = false)))
    /\ (forall item,
         In item (find_matching_overload_items O items template) ->
         In item items).
Proof.
  intros O items template.
  unfold find_matching_overload_items, find_matching_overload_item.
  rewrite <- hd_error_filter.
  destruct (filter (fun item => is_callable_compatible O item template) items)
    as [ | k ks] eqn:Ef; cbn [truthy hd_error].
  - assert (Hnone : forall i, In i items ->
                              is_callable_compatible O i template = false).
    { intros i Hi.
      destruct (is_callable_compatible O i template) eqn:Hc; [ | reflexivity ].
      assert (Hin : In i (filter (fun item => is_callable_compatible O item template)
                            items))
        by (apply filter_In; split; assumption).
      rewrite Ef in Hin. destruct Hin. }
    split; [ reflexivity | split; [ | split ] ].
    + destruct items; simpl; split; intros H; try reflexivity; discriminate.
    + intros item H. split.
      * destruct items as [ | i0 items']; simpl in H; [ discriminate | ].
        inversion H. left. reflexivity.
      * right. split; [ exact H | exact Hnone ].
    + auto.
  - assert (Hin : In k (filter (fun item => is_callable_compatible O item template)
                          items))
      by (rewrite Ef; left; reflexivity).
    apply filter_In in Hin. destruct Hin as [Hk Hc].
    split; [ reflexivity | split; [ | split ] ].
    + split; [ discriminate | ]. intros H. subst items. destruct Hk.
    + intros item H. inversion H. subst item. split; [ exact Hk | left ].
      exact (filter_first_split _ _ _ _ _ Ef).
    + intros item H. rewrite <- Ef in H. apply filter_In in H. tauto.
Qed.

(* ------------------------------------------------------------------ *)
(** ** Comparing constraint lists *)

Lemma forallb_existsb_members :
  forall (p : Constraint -> Constraint -> bool) x x' y y',
    same_members x x' -> same_members y y' ->
    forallb (fun c1 => existsb (fun c2 => p c1 c2) y) x
    = forallb (fun c1 => existsb (fun c2 => p c1 c2) y') x'.
Proof.
  intros p x x' y y' Hx Hy.
  apply eq_true_iff_eq. rewrite !forallb_forall. split; intros H c Hc.
  - apply Hx in Hc. specialize (H c Hc).
    apply existsb_exists in H. destruct H as (c2 & H2 & Hp).
    apply existsb_exists. exists c2. split; [ apply Hy; exact H2 | exact Hp ].
  - apply Hx in Hc. specialize (H c Hc).
    apply existsb_exists in H. destruct H as (c2 & H2 & Hp).
    apply existsb_exists. exists c2. split; [ apply Hy; exact H2 | exact Hp ].
Qed.

(** X5: [is_same_constraints] and [is_similar_constraints] compare two
    lists as sets: their answer is the same for lists with the same members,
    whatever the order and the repetitions, and it does not depend on which
    list comes first. *)
Theorem is_same_constraints_compares_sets :
  forall O x x' y y',
    same_members x x' -> same_members y y' ->
    is_same_constraints O x y = is_same_constraints O x' y'
    /\ is_similar_constraints O x y = is_similar_constraints O x' y'
    /\ is_same_constraints O x y = is_same_constraints O y x
    /\ is_similar_constraints O x y = is_similar_constraints O y x.
Proof.
  intros O x x' y y' Hx Hy.
  split; [ | split; [ | split ] ].
  - unfold is_same_constraints.
    rewrite (forallb_existsb_members (is_same_constraint O) x x' y y' Hx Hy).
    rewrite (forallb_existsb_members (is_same_constraint O) y y' x x' Hy Hx).
    reflexivity.
  - unfold is_similar_constraints, _is_similar_constraints.
    rewrite (forallb_existsb_members
               (fun c1 c2 =>
                  (type_var c1 =? type_var c2)%Z
                  && ((op c1 =? op c2)%Z
                      || (is_AnyType (get_proper_type O (target c1))
                          || is_AnyType (get_proper_type O (target c2)))))
               x x' y y' Hx Hy).
    rewrite (forallb_existsb_members
               (fun c1 c2 =>
                  (type_var c1 =? type_var c2)%Z
                  && ((op c1 =? op c2)%Z
                      || (is_AnyType (get_proper_type O (target c1))
                          || is_AnyType (get_proper_type O (target c2)))))
               y y' x x' Hy Hx).
    reflexivity.
  - unfold is_same_constraints. apply andb_comm.
  - unfold is_similar_constraints. apply andb_comm.
Qed.

(** Two lists with the same members in another order and with a
    repetition. *)
Lemma is_same_constraints_compares_sets_example :
  let a := Constraint_init ex_T SUPERTYPE_OF ex_int in
  let b := Constraint_init ex_S SUBTYPE_OF ex_str in
  is_same_constraints example_oracle [a; b] [a; b]
  = is_same_constraints example_oracle [b; a; b] [b; a].
Proof.
  cbv zeta.
  apply (proj1 (is_same_constraints_compares_sets example_oracle
                  [Constraint_init ex_T SUPERTYPE_OF ex_int;
                   Constraint_init ex_S SUBTYPE_OF ex_str]
                  [Constraint_init ex_S SUBTYPE_OF ex_str;
                   Constraint_init ex_T SUPERTYPE_OF ex_int;
                   Constraint_init ex_S SUBTYPE_OF ex_str]
                  [Constraint_init ex_T SUPERTYPE_OF ex_int;
                   Constraint_init ex_S SUBTYPE_OF ex_str]
                  [Constraint_init ex_S SUBTYPE_OF ex_str;
                   Constraint_init ex_T SUPERTYPE_OF ex_int]
                  (fun c => ltac:(simpl; tauto))
                  (fun c => ltac:(simpl; tauto)))).
Defined.

Lemma similar_of_same :
  forall O c1 c2,
    is_same_constraint O c1 c2 = true ->
    (type_var c1 =? type_var c2)%Z
    && ((op c1 =? op c2)%Z
        || (is_AnyType (get_proper_type O (target c1))
            || is_AnyType (get_proper_type O (target c2)))) = true.
Proof.
  intros O c1 c2 H. unfold is_same_constraint in H.
  apply andb_prop in H. destruct H as [H _].
  apply andb_prop in H. destruct H as [Hv Ho].
  rewrite Hv. simpl.
  apply orb_prop in Ho. destruct Ho as [Ho | Ho].
  - rewrite Ho. reflexivity.
  - apply andb_prop in Ho. destruct Ho as [Ho _]. rewrite Ho.
    apply orb_true_r.
Qed.

(** X6: every list of constraints is similar to itself, and two lists that
    are the same constraints are similar: the check for the same options
    in [any_constraints] is the stronger of its two checks. *)
Theorem is_same_constraints_are_similar :
  forall O,
    (forall x, is_similar_constraints O x x = true)
    /\ (forall x y,
         is_same_constraints O x y = true -> is_similar_constraints O x y = true).
Proof.
  intros O. split.
  - intros x. unfold is_similar_constraints.
    assert (H : _is_similar_constraints O x x = true).
    { unfold _is_similar_constraints. apply forallb_forall. intros c Hc.
      apply existsb_exists. exists c. split; [ exact Hc | ].
      rewrite !Z.eqb_refl. reflexivity. }
    rewrite H. reflexivity.
  - intros x y H. unfold is_same_constraints in H.
    apply andb_prop in H. destruct H as [H1 H2].
    unfold is_similar_constraints, _is_similar_constraints.
    apply andb_true_intro. split.
    + apply forallb_forall. intros c Hc.
      rewrite forallb_forall in H1. specialize (H1 c Hc).
      apply existsb_exists in H1. destruct H1 as (c2 & Hc2 & Hs).
      apply existsb_exists. exists c2. split; [ exact Hc2 | ].
      apply similar_of_same. exact Hs.
    + apply forallb_forall. intros c Hc.
      rewrite forallb_forall in H2. specialize (H2 c Hc).
      apply existsb_exists in H2. destruct H2 as (c2 & Hc2 & Hs).
      apply existsb_exists. exists c2. split; [ exact Hc2 | ].
      apply similar_of_same. exact Hs.
Qed.

(* ------------------------------------------------------------------ *)
(** ** any_constraints: the options that do not count *)

Lemma valid_options_of_live :
  forall eager options,
    valid_options_of (filter (live_option eager) options) eager
    = valid_options_of options eager.
Proof.
  intros eager options. unfold valid_options_of.
  induction options as [ | o options IH]; [ reflexivity | ].
  cbn [filter flat_map].
  destruct o as [l | ]; cbn [live_option].
  - destruct eager.
    + destruct (truthy l) eqn:Ht; cbn [flat_map]; rewrite ?Ht, IH; reflexivity.
    + cbn [flat_map]. rewrite IH. reflexivity.
  - exact IH.
Qed.

Lemma list_eq_map_self :
  forall A (eq : A -> A -> bool) (f : A -> A) l,
    list_eq eq (map f l) l = forallb (fun x => eq (f x) x) l.
Proof.
  intros A eq f l. induction l as [ | x l IH]; simpl; [ reflexivity | ].
  rewrite IH. reflexivity.
Qed.

Lemma filter_satisfiable_not_live :
  forall O eager o,
    live_option eager o = false -> filter_satisfiable O o = o.
Proof.
  intros O eager [l | ] H; [ | reflexivity ].
  destruct l as [ | c l]; [ reflexivity | ].
  destruct eager; discriminate.
Qed.

Lemma options_eq_filtered_live :
  forall O eager options,
    options_eq O (map (filter_satisfiable O)
                    (filter (live_option eager) options))
      (filter (live_option eager) options)
    = options_eq O (map (filter_satisfiable O) options) options.
Proof.
  intros O eager options. unfold options_eq. rewrite !list_eq_map_self.
  induction options as [ | o options IH]; [ reflexivity | ].
  cbn [filter forallb].
  destruct (live_option eager o) eqn:Hl.
  - cbn [forallb]. rewrite IH. reflexivity.
  - rewrite IH, (filter_satisfiable_not_live O eager o Hl).
    destruct o as [l | ]; [ | reflexivity ].
    destruct l as [ | c l]; [ reflexivity | destruct eager; discriminate ].
Qed.

Lemma live_of_filtered :
  forall O eager options,
    filter (live_option eager)
      (map (filter_satisfiable O) (filter (live_option eager) options))
    = filter (live_option eager) (map (filter_satisfiable O) options).
Proof.
  intros O eager options.
  induction options as [ | o options IH]; [ reflexivity | ].
  cbn [filter map].
  destruct (live_option eager o) eqn:Hl.
  - cbn [map filter]. rewrite IH. reflexivity.
  - rewrite (filter_satisfiable_not_live O eager o Hl), Hl. exact IH.
Qed.

Lemma any_constraints_same_live :
  forall O fuel a b eager,
    filter (live_option eager) a = filter (live_option eager) b ->
    any_constraints O fuel a eager = any_constraints O fuel b eager.
Proof.
  intros O fuel. induction fuel as [ | fuel IH]; intros a b eager Hab.
  - reflexivity.
  - rewrite !any_constraints_unfold. cbv zeta.
    assert (Hv : valid_options_of a eager = valid_options_of b eager).
    { rewrite <- (valid_options_of_live eager a), <- (valid_options_of_live eager b).
      rewrite Hab. reflexivity. }
    assert (He : options_eq O (map (filter_satisfiable O) a) a
                 = options_eq O (map (filter_satisfiable O) b) b).
    { rewrite <- (options_eq_filtered_live O eager a),
              <- (options_eq_filtered_live O eager b).
      rewrite Hab. reflexivity. }
    assert (Hr : any_constraints O fuel (map (filter_satisfiable O) a) eager
                 = any_constraints O fuel (map (filter_satisfiable O) b) eager).
    { apply IH.
      rewrite <- (live_of_filtered O eager a), <- (live_of_filtered O eager b).
      rewrite Hab. reflexivity. }
    rewrite Hv, He, Hr. reflexivity.
Qed.

(** X7: the sentinels among the options, and the empty options too when
    [eager], have no part in what [any_constraints] answers: two lists of
    options that agree once these are taken out get the same answer, at
    every depth; so the options may be given with or without them. *)
Theorem any_constraints_ignores_sentinels :
  forall O fuel options eager,
    any_constraints O fuel (filter (live_option eager) options) eager
    = any_constraints O fuel options eager
    /\ (forall options',
         filter (live_option eager) options = filter (live_option eager) options' ->
         any_constraints O fuel options eager = any_constraints O fuel options' eager)
    /\ (filter (live_option eager) options = [] ->
        any_constraints O (S fuel) options eager = Ok []).
Proof.
  intros O fuel options eager. split; [ | split ].
  - apply any_constraints_same_live.
    induction options as [ | o options IH]; [ reflexivity | ].
    cbn [filter]. destruct (live_option eager o) eqn:Hl.
    + cbn [filter]. rewrite Hl, IH. reflexivity.
    + exact IH.
  - intros options' H. apply any_constraints_same_live. exact H.
  - intros H. rewrite any_constraints_unfold. cbv zeta.
    rewrite <- (valid_options_of_live eager options), H. reflexivity.
Qed.

(* ------------------------------------------------------------------ *)
(** ** any_constraints: where the answer comes from *)

Lemma valid_options_of_in :
  forall options eager l,
    In l (valid_options_of options eager) -> In (Some l) options.
Proof.
  intros options eager l H. unfold valid_options_of in H.
  apply in_flat_map in H. destruct H as (o & Ho & Hl).
  destruct o as [l0 | ]; [ | destruct Hl ].
  assert (l0 = l).
  { destruct eager; [ destruct (truthy l0) | ]; simpl in Hl; tauto. }
  subst l0. exact Ho.
Qed.

Lemma filter_satisfiable_in :
  forall O o kept c,
    filter_satisfiable O o = Some kept -> In c kept ->
    exists l, o = Some l /\ In c l.
Proof.
  intros O [l | ] kept c H Hc; [ | discriminate ].
  exists l. split; [ reflexivity | ].
  destruct l as [ | c0 l]; [ inversion H; subst; destruct Hc | ].
  rewrite filter_satisfiable_nonempty in H by discriminate.
  destruct (filter (satisfiable_constraint O) (c0 :: l)) as [ | k ks] eqn:Ef;
    [ discriminate | ].
  inversion H. subst kept. rewrite <- Ef in Hc. apply filter_In in Hc. tauto.
Qed.

Lemma merged_from_trans :
  forall O t1 t2 t3,
    merged_from O t1 t2 -> merged_from O t2 t3 -> merged_from O t1 t3.
Proof.
  intros O t1 t2 t3 H12 H23. induction H12 as [ t | t t0 H IH ].
  - exact H23.
  - apply merged_union. apply IH. exact H23.
Qed.

(** X8: [any_constraints] makes up no constraint.  Each constraint of its
    answer has the direction and the originating variable of a constraint of
    one of the options it was given, and its target is that constraint's
    target or a union built over it by [merge_with_any]. *)
Theorem any_constraints_answers_from_options :
  forall O fuel options eager res,
    any_constraints O fuel options eager = Ok res ->
    forall c, In c res ->
      exists l c0,
        In (Some l) options /\ In c0 l
        /\ op c = op c0
        /\ origin_type_var c = origin_type_var c0
        /\ merged_from O (target c) (target c0).
Proof.
  intros O fuel. induction fuel as [ | fuel IH]; intros options eager res H c Hc.
  - discriminate.
  - rewrite any_constraints_unfold in H. cbv zeta in H.
    assert (Hvalid : forall l, In l (valid_options_of options eager) ->
                               In c l ->
              exists l c0, In (Some l) options /\ In c0 l /\ op c = op c0
                           /\ origin_type_var c = origin_type_var c0
                           /\ merged_from O (target c) (target c0)).
    { intros l Hl Hcl. exists l, c.
      split; [ eapply valid_options_of_in; exact Hl | ].
      repeat split; auto. apply merged_same. }
    assert (Hlast :
      (if negb (options_eq O (map (filter_satisfiable O) options) options)
       then any_constraints O fuel (map (filter_satisfiable O) options) eager
       else Ok []) = Ok res ->
      exists l c0, In (Some l) options /\ In c0 l /\ op c = op c0
                   /\ origin_type_var c = origin_type_var c0
                   /\ merged_from O (target c) (target c0)).
    { intros Hl.
      destruct (negb (options_eq O (map (filter_satisfiable O) options) options)).
      - destruct (IH _ _ _ Hl c Hc) as (l & c0 & Hin & Hc0 & Hop & Hor & Ht).
        apply in_map_iff in Hin. destruct Hin as (o & Ho & Hino).
        destruct (filter_satisfiable_in O o l c0 Ho Hc0) as (l0 & Hl0 & Hc0').
        subst o. exists l0, c0. repeat split; auto.
      - inversion Hl. subst res. destruct Hc. }
    destruct (valid_options_of options eager) as [ | first [ | second rest]] eqn:Hv.
    + inversion H. subst res. destruct Hc.
    + inversion H. subst res. apply (Hvalid first); [ left; reflexivity | exact Hc ].
    + destruct (forallb (is_same_constraints O first) (second :: rest)).
      { inversion H. subst res.
        apply (Hvalid first); [ left; reflexivity | exact Hc ]. }
      destruct (forallb (is_similar_constraints O first) (second :: rest));
        [ | exact (Hlast H) ].
      match type of H with
      | (if ?b then _ else _) = _ => destruct b
      end; [ | exact (Hlast H) ].
      destruct (IH _ _ _ H c Hc) as (l & c0 & Hin & Hc0 & Hop & Hor & Ht).
      apply in_map_iff in Hin. destruct Hin as (l0 & Hl0 & Hin0).
      inversion Hl0. subst l.
      apply filter_In in Hin0. destruct Hin0 as [Hin0 _].
      apply in_map_iff in Hc0. destruct Hc0 as (c1 & Hc1 & Hin1).
      exists l0, c1.
      split; [ eapply valid_options_of_in; rewrite Hv; exact Hin0 | ].
      split; [ exact Hin1 | ].
      subst c0. unfold merge_with_any in Hop, Hor, Ht.
      destruct (is_union_with_any O (target c1)); repeat split; auto.
      cbn [target Constraint_init] in Ht.
      eapply merged_from_trans; [ exact Ht | ].
      apply merged_union. apply merged_same.
Qed.

Lemma any_constraints_answers_from_options_example :
  let options := [Some [Constraint_init ex_T SUPERTYPE_OF ex_int];
                  Some [Constraint_init ex_T SUPERTYPE_OF (AnyType explicit None)]] in
  let c := Constraint_init ex_T SUPERTYPE_OF
             (UnionType [ex_int; AnyType implementation_artifact None]) in
  any_constraints example_oracle 3 options true = Ok [c]
  /\ exists l c0,
       In (Some l) options /\ In c0 l
       /\ op c = op c0
       /\ origin_type_var c = origin_type_var c0
       /\ merged_from example_oracle (target c) (target c0).
Proof.
  cbv zeta. split; [ reflexivity | ].
  apply (any_constraints_answers_from_options example_oracle 3
           [Some [Constraint_init ex_T SUPERTYPE_OF ex_int];
            Some [Constraint_init ex_T SUPERTYPE_OF (AnyType explicit None)]]
           true
           [Constraint_init ex_T SUPERTYPE_OF
              (UnionType [ex_int; AnyType implementation_artifact None])]).
  - reflexivity.
  - left. reflexivity.
Defined.

(* ------------------------------------------------------------------ *)
(** ** any_constraints: termination *)

Lemma filter_length_lt :
  forall A (p : A -> bool) l,
    existsb (fun x => negb (p x)) l = true ->
    (List.length (filter p l) < List.length l)%nat.
Proof.
  intros A p l. induction l as [ | x l IH]; simpl; intros H.
  - discriminate.
  - destruct (p x); simpl in *.
    + apply IH in H. lia.
    + pose proof (filter_length_le p l). lia.
Qed.

Lemma option_measure_filtered :
  forall O o,
    (options_measure [filter_satisfiable O o] <= options_measure [o])%nat
    /\ (filtering_drops O o = true ->
        (options_measure [filter_satisfiable O o] < options_measure [o])%nat).
Proof.
  intros O [l | ]; [ | simpl; split; [ lia | discriminate ] ].
  destruct l as [ | c l]; [ simpl; split; [ lia | discriminate ] | ].
  rewrite filter_satisfiable_nonempty by discriminate.
  unfold filtering_drops.
  pose proof (filter_length_le (satisfiable_constraint O) (c :: l)) as Hle.
  destruct (filter (satisfiable_constraint O) (c :: l)) as [ | k ks] eqn:Ef.
  - unfold options_measure. simpl. split; [ lia | intros; lia ].
  - split.
    + unfold options_measure. simpl in *. lia.
    + intros Hd. apply filter_length_lt in Hd. rewrite Ef in Hd.
      unfold options_measure. simpl in *. lia.
Qed.

Lemma options_measure_cons :
  forall o options,
    options_measure (o :: options)
    = (options_measure [o] + options_measure options)%nat.
Proof. intros. unfold options_measure. simpl. lia. Qed.

Lemma options_measure_filtered :
  forall O options,
    (options_measure (map (filter_satisfiable O) options) <= options_measure options)%nat
    /\ (existsb (filtering_drops O) options = true ->
        (options_measure (map (filter_satisfiable O) options)
         < options_measure options)%nat).
Proof.
  intros O options. induction options as [ | o options [IHle IHlt]].
  - split; [ reflexivity | discriminate ].
  - cbn [map existsb].
    rewrite (options_measure_cons o), (options_measure_cons (filter_satisfiable O o)).
    destruct (option_measure_filtered O o) as [Hle Hlt].
    split; [ lia | ].
    intros H. apply orb_prop in H. destruct H as [H | H].
    + apply Hlt in H. lia.
    + apply IHlt in H. lia.
Qed.

Lemma options_measure_valid :
  forall options eager,
    (options_measure (map Some (valid_options_of options eager))
     <= options_measure options)%nat.
Proof.
  intros options eager. induction options as [ | o options IH].
  - reflexivity.
  - rewrite (options_measure_cons o). unfold valid_options_of in *.
    cbn [flat_map]. rewrite map_app.
    assert (Happ : forall a b, options_measure (a ++ b)
                               = (options_measure a + options_measure b)%nat).
    { intros a b. unfold options_measure. rewrite map_app, list_sum_app. reflexivity. }
    rewrite Happ.
    assert (Ho : (options_measure
                    (map Some
                       match o with
                       | Some o0 =>
                           if eager then if truthy o0 then [o0] else [] else [o0]
                       | None => []
                       end) <= options_measure [o])%nat).
    { destruct o as [l | ]; [ | simpl; unfold options_measure; simpl; lia ].
      destruct eager; [ destruct (truthy l) | ];
        unfold options_measure; simpl; lia. }
    lia.
Qed.

Lemma select_trivial_in :
  forall O l valid,
    In l (select_trivial O (map Some valid)) -> In l valid.
Proof.
  intros O l valid H. unfold select_trivial in H.
  apply in_flat_map in H. destruct H as (o & Ho & Hl).
  apply in_map_iff in Ho. destruct Ho as (l0 & Hl0 & Hin). subst o.
  destruct (forallb (fun c => is_AnyType (get_proper_type O (target c))) l0);
    simpl in Hl; [ | destruct Hl ].
  destruct Hl as [Hl | []]. subst l0. exact Hin.
Qed.

Lemma options_measure_merged :
  forall O (q : list Constraint -> bool) valid,
    options_measure (map (fun l => Some (map (merge_with_any O) l)) (filter q valid))
    = options_measure (map Some (filter q valid)).
Proof.
  intros O q valid. unfold options_measure. rewrite !map_map.
  f_equal. apply map_ext. intros l. rewrite length_map. reflexivity.
Qed.

Lemma options_measure_removed :
  forall (q : list Constraint -> bool) valid t,
    In t valid -> q t = false ->
    (options_measure (map Some (filter q valid))
     < options_measure (map Some valid))%nat.
Proof.
  intros q valid t. induction valid as [ | l valid IH]; intros Hin Hq.
  - destruct Hin.
  - cbn [filter map].
    assert (Hle : forall v, (options_measure (map Some (filter q v))
                             <= options_measure (map Some v))%nat).
    { induction v as [ | x v IHv]; [ reflexivity | ].
      cbn [filter map]. destruct (q x); cbn [map].
      - rewrite (options_measure_cons (Some x) (map Some (filter q v))),
                (options_measure_cons (Some x) (map Some v)). lia.
      - rewrite (options_measure_cons (Some x) (map Some v)). lia. }
    destruct Hin as [Hin | Hin].
    + subst l. rewrite Hq.
      rewrite (options_measure_cons (Some t) (map Some valid)).
      specialize (Hle valid). unfold options_measure at 2. simpl. lia.
    + specialize (IH Hin Hq). destruct (q l); cbn [map].
      * rewrite (options_measure_cons (Some l) (map Some (filter q valid))),
                (options_measure_cons (Some l) (map Some valid)). lia.
      * rewrite (options_measure_cons (Some l) (map Some valid)). lia.
Qed.

Lemma list_eq_constraints_refl :
  forall O, (forall t, type_eq O t t = true) ->
            forall l, list_eq (Constraint_eq O) l l = true.
Proof.
  intros O Hrefl l. induction l as [ | c l IH]; simpl; [ reflexivity | ].
  rewrite (Constraint_eq_refl O c (Hrefl _)). exact IH.
Qed.

(** Each retry of [any_constraints] is on a smaller list of options. *)
Lemma any_constraints_returns_with_enough_depth :
  forall O,
    (forall t, type_eq O t t = true) ->
    forall fuel options eager,
      (options_measure options < fuel)%nat ->
      exists res, any_constraints O fuel options eager = Ok res.
Proof.
  intros O Hrefl fuel. induction fuel as [ | fuel IH]; intros options eager Hm.
  - lia.
  - rewrite any_constraints_unfold. cbv zeta.
    assert (Hlast :
      exists res,
        (if negb (options_eq O (map (filter_satisfiable O) options) options)
         then any_constraints O fuel (map (filter_satisfiable O) options) eager
         else Ok []) = Ok res).
    { rewrite options_eq_filtered by (intros; apply Hrefl).
      rewrite negb_involutive.
      destruct (existsb (filtering_drops O) options) eqn:Hd;
        [ | eexists; reflexivity ].
      apply IH.
      pose proof (proj2 (options_measure_filtered O options) Hd). lia. }
    pose proof (options_measure_valid options eager) as Hvalid.
    destruct (valid_options_of options eager) as [ | first [ | second rest]] eqn:Hv;
      try (eexists; reflexivity).
    destruct (forallb (is_same_constraints O first) (second :: rest));
      [ eexists; reflexivity | ].
    destruct (forallb (is_similar_constraints O first) (second :: rest));
      [ | exact Hlast ].
    destruct (select_trivial O (map Some (first :: second :: rest)))
      as [ | t ts] eqn:Ht; [ exact Hlast | ].
    cbn [truthy andb].
    match goal with
    | |- exists res, (if ?b then _ else _) = _ => destruct b
    end; [ | exact Hlast ].
    apply IH. rewrite options_measure_merged.
    assert (Hin : In t (first :: second :: rest)).
    { apply (select_trivial_in O). rewrite Ht. left. reflexivity. }
    assert (Hq : negb (option_in O t (t :: ts)) = false).
    { unfold option_in. cbn [existsb].
      rewrite (list_eq_constraints_refl O Hrefl t). reflexivity. }
    pose proof (options_measure_removed
                  (fun option_ => negb (option_in O option_ (t :: ts)))
                  (first :: second :: rest) t Hin Hq).
    lia.
Qed.

Lemma any_constraints_deeper :
  forall O fuel options eager res,
    any_constraints O fuel options eager = Ok res ->
    any_constraints O (S fuel) options eager = Ok res.
Proof.
  intros O fuel. induction fuel as [ | fuel IH]; intros options eager res H.
  - discriminate.
  - rewrite any_constraints_unfold in H. rewrite any_constraints_unfold.
    cbv zeta in H |- *.
    destruct (valid_options_of options eager) as [ | first [ | second rest]];
      try exact H.
    destruct (forallb (is_same_constraints O first) (second :: rest));
      [ exact H | ].
    assert (Hlast :
      (if negb (options_eq O (map (filter_satisfiable O) options) options)
       then any_constraints O fuel (map (filter_satisfiable O) options) eager
       else Ok []) = Ok res ->
      (if negb (options_eq O (map (filter_satisfiable O) options) options)
       then any_constraints O (S fuel) (map (filter_satisfiable O) options) eager
       else Ok []) = Ok res).
    { destruct (negb (options_eq O (map (filter_satisfiable O) options) options));
        [ apply IH | auto ]. }
    destruct (forallb (is_similar_constraints O first) (second :: rest));
      [ | exact (Hlast H) ].
    match type of H with
    | (if ?b then _ else _) = _ => destruct b
    end; [ apply IH; exact H | exact (Hlast H) ].
Qed.

(** X9: [any_constraints] terminates.  With an equality of types that holds
    between every type and itself, each retry is on a list of options that
    is smaller in [options_measure], so the call returns a list of
    constraints at every depth above the measure of its options, and the
    same list at all of them. *)
Theorem any_constraints_terminates :
  forall O,
    (forall t, type_eq O t t = true) ->
    forall options eager,
      exists res,
        forall fuel,
          (options_measure options < fuel)%nat ->
          any_constraints O fuel options eager = Ok res.
Proof.
  intros O Hrefl options eager.
  destruct (any_constraints_returns_with_enough_depth O Hrefl
              (S (options_measure options)) options eager (Nat.lt_succ_diag_r _))
    as [res Hres].
  exists res. intros fuel Hf.
  assert (Hk : exists k, fuel = (k + S (options_measure options))%nat).
  { exists (fuel - S (options_measure options))%nat. lia. }
  destruct Hk as [k Hk]. subst fuel. clear Hf.
  induction k as [ | k IHk]; [ exact Hres | ].
  cbn [Nat.add]. apply any_constraints_deeper. exact IHk.
Qed.


(* ------------------------------------------------------------------ *)
(** ** The structural equality of types is reflexive *)

Lemma kind_eq_refl : forall k, kind_eq k k = true.
Proof. destruct k; reflexivity. Qed.

Lemma names_eq_refl : forall l, names_eq l l = true.
Proof.
  unfold names_eq. induction l as [ | [n | ] l IH]; simpl; try reflexivity.
  - rewrite String.eqb_refl. exact IH.
  - exact IH.
Qed.

Lemma kinds_eq_refl : forall l, list_eq kind_eq l l = true.
Proof. induction l as [ | k l IH]; simpl; [ | rewrite kind_eq_refl ]; auto. Qed.

Lemma list_eq_refl_all :
  forall T (eq : T -> T -> bool) l,
    Forall (fun x => eq x x = true) l -> list_eq eq l l = true.
Proof.
  intros T eq l H. induction H as [ | x l Hx _ IH]; simpl; [ reflexivity | ].
  rewrite Hx. exact IH.
Qed.

Lemma variance_eq_refl : forall v, variance_eq v v = true.
Proof. destruct v; reflexivity. Qed.

Lemma type_of_any_eq_refl : forall k, type_of_any_eq k k = true.
Proof. destruct k; reflexivity. Qed.

Lemma instance_eq_refl :
  forall T (eq : T -> T -> bool) i,
    Forall (fun x => eq x x = true) (args i) -> instance_eq eq i i = true.
Proof.
  intros T eq i H. unfold instance_eq.
  rewrite String.eqb_refl, (list_eq_refl_all _ _ _ H). reflexivity.
Qed.

Lemma parameters_eq_refl :
  forall T (eq : T -> T -> bool) p,
    Forall (fun x => eq x x = true) (params_arg_types p) ->
    parameters_eq eq p p = true.
Proof.
  intros T eq p H. unfold parameters_eq.
  rewrite (list_eq_refl_all _ _ _ H), kinds_eq_refl, names_eq_refl. reflexivity.
Qed.

Lemma callable_eq_refl :
  forall T (eq : T -> T -> bool) c,
    Forall (fun x => eq x x = true) (arg_types c) ->
    eq (ret_type c) (ret_type c) = true ->
    match fallback c with
    | Some i => Forall (fun x => eq x x = true) (args i)
    | None => True
    end ->
    match type_guard c with
    | Some g => eq g g = true
    | None => True
    end ->
    callable_eq eq c c = true.
Proof.
  intros T eq c Ha Hr Hf Hg. unfold callable_eq.
  rewrite (list_eq_refl_all _ _ _ Ha), kinds_eq_refl, names_eq_refl, Hr.
  rewrite !Bool.eqb_reflx.
  destruct (fallback c) as [i | ]; cbn [option_eq];
    [ rewrite (instance_eq_refl _ _ _ Hf) | ];
    destruct (type_guard c) as [g | ]; cbn [option_eq];
    try rewrite Hg; reflexivity.
Qed.

Ltac all_types_refl rec l :=
  induction l; constructor; [ apply rec | assumption ].

Fixpoint ty_eqb_refl (a : Ty) {struct a} : ty_eqb a a = true
with tvl_eqb_refl (v : TypeVarLikeType) {struct v} : tvl_eqb v v = true.
Proof.
  - destruct a; cbn [ty_eqb]; try reflexivity.
    + rewrite type_of_any_eq_refl.
      destruct source_any as [s | ]; cbn; [ apply ty_eqb_refl | reflexivity ].
    + apply String.eqb_refl.
    + destruct literal_fallback as [n l]. apply instance_eq_refl. cbn.
      all_types_refl ty_eqb_refl l.
    + apply tvl_eqb_refl.
    + apply ty_eqb_refl.
    + destruct p as [ts ks ns]. apply parameters_eq_refl. cbn.
      all_types_refl ty_eqb_refl ts.
    + destruct i as [n l]. apply instance_eq_refl. cbn.
      all_types_refl ty_eqb_refl l.
    + destruct c as [ts ks ns r fb ell tg fc]. apply callable_eq_refl; cbn.
      * all_types_refl ty_eqb_refl ts.
      * apply ty_eqb_refl.
      * destruct fb as [[n l] | ]; [ cbn; all_types_refl ty_eqb_refl l | exact I ].
      * destruct tg as [g | ]; [ apply ty_eqb_refl | exact I ].
    + destruct partial_fallback as [n l].
      rewrite list_eq_refl_all by (all_types_refl ty_eqb_refl items).
      apply instance_eq_refl. cbn. all_types_refl ty_eqb_refl l.
    + destruct td_fallback as [n l].
      rewrite list_eq_refl_all.
      * apply instance_eq_refl. cbn. all_types_refl ty_eqb_refl l.
      * induction td_items as [ | [k t] rest IH]; constructor; [ | exact IH ].
        cbn. rewrite String.eqb_refl. apply ty_eqb_refl.
    + apply list_eq_refl_all. all_types_refl ty_eqb_refl items.
    + apply list_eq_refl_all.
      induction items as [ | c rest IH]; constructor; [ | exact IH ].
      destruct c as [ts ks ns r fb ell tg fc]. apply callable_eq_refl; cbn.
      * all_types_refl ty_eqb_refl ts.
      * apply ty_eqb_refl.
      * destruct fb as [[n l] | ]; [ cbn; all_types_refl ty_eqb_refl l | exact I ].
      * destruct tg as [g | ]; [ apply ty_eqb_refl | exact I ].
    + apply ty_eqb_refl.
    + rewrite String.eqb_refl. apply list_eq_refl_all.
      all_types_refl ty_eqb_refl alias_args.
    + apply list_eq_refl_all. all_types_refl ty_eqb_refl items.
  - destruct v; cbn [tvl_eqb]; rewrite Z.eqb_refl.
    + rewrite list_eq_refl_all by (all_types_refl ty_eqb_refl values).
      rewrite ty_eqb_refl, variance_eq_refl. reflexivity.
    + destruct prefix as [ts ks ns].
      rewrite parameters_eq_refl by (cbn; all_types_refl ty_eqb_refl ts).
      rewrite ty_eqb_refl. reflexivity.
    + rewrite ty_eqb_refl. reflexivity.
Qed.

(** The two options of the example, at every depth above their measure. *)
Lemma any_constraints_terminates_example :
  exists res,
    forall fuel,
      (options_measure ex_options < fuel)%nat ->
      any_constraints structural_oracle fuel ex_options true = Ok res.
Proof.
  exact (any_constraints_terminates structural_oracle ty_eqb_refl ex_options true).
Defined.

(* ------------------------------------------------------------------ *)
(** ** From the dispatcher to the matcher *)

Lemma for_extend_pure :
  forall A B (f : A -> M (list B)) (g : A -> list B) l st,
    (forall x, In x l -> f x st = (Ok (g x), st)) ->
    for_extend l f st = (Ok (flat_map g l), st).
Proof.
  intros A B f g l st. induction l as [ | x l IH]; intros H.
  - reflexivity.
  - cbn [for_extend flat_map].
    rewrite (bind_returns _ _ _ _ st _ st (H x (or_introl eq_refl))).
    cbv beta.
    rewrite (bind_returns _ _ _ _ st _ st
               (IH (fun y Hy => H y (or_intror Hy)))).
    reflexivity.
Qed.

(** A request on a template that is neither recursive, nor a union, nor a
    type variable, against an actual that is not a union, goes to the
    matcher with the two operands normalized. *)
Lemma infer_constraints_reaches_matcher :
  forall O fuel template actual direction st,
    inferring st = [] ->
    has_recursive_types O template = false ->
    is_UnionType (normalize_operand O template) = false ->
    is_TypeVarType (normalize_operand O template) = false ->
    is_suggestion_any (normalize_operand O actual) = false ->
    is_UnionType (normalize_operand O actual) = false ->
    infer_constraints O (S fuel) template actual direction st
    = accept O (infer_constraints O fuel) (normalize_operand O actual) direction
        (normalize_operand O template) st.
Proof.
  intros O fuel template actual direction st Hst Hrec Hut Hvt Hsa Hua.
  rewrite infer_constraints_unfold.
  rewrite (on_recursion_guard_empty O _ _ st Hst), Hrec.
  rewrite _infer_constraints_unfold. cbv zeta. rewrite Hsa.
  assert (Ht : union_items (normalize_operand O template) = None).
  { destruct (normalize_operand O template); try reflexivity. discriminate. }
  assert (Ha : union_items (normalize_operand O actual) = None).
  { destruct (normalize_operand O actual); try reflexivity. discriminate. }
  rewrite Ht, Ha.
  assert (Hif : forall b : bool, (if b then @None (list Ty) else None) = None)
    by (intros []; reflexivity).
  rewrite !Hif.
  destruct (normalize_operand O template); try reflexivity.
  destruct v; try reflexivity. discriminate.
Qed.

Lemma infer_constraints_plain_type_var :
  forall O fuel tv actual direction st,
    plain_type_var O tv ->
    inferring st = [] ->
    is_suggestion_any (normalize_operand O actual) = false ->
    infer_constraints O (S fuel) (TypeVarLike tv) actual direction st
    = (Ok [Constraint_init tv direction (normalize_operand O actual)], st).
Proof.
  intros O fuel tv actual direction st [(id & values & ub & variance & Htv) [Hp Hr]]
         Hst Hs.
  subst tv.
  apply infer_constraints_type_var_plain; try assumption.
  apply on_recursion_guard_empty. exact Hst.
Qed.

Lemma normalize_operand_proper :
  forall O t,
    get_proper_type O t = t -> is_UnionType t = false -> normalize_operand O t = t.
Proof.
  intros O t Hp Hu. unfold normalize_operand. rewrite Hp.
  destruct t; try reflexivity. discriminate.
Qed.

(* ------------------------------------------------------------------ *)
(** ** A generic instance against Any *)

(** X10: matching a class instance whose type arguments are type variables
    against Any gives every one of them exactly one constraint, in the
    direction of the request and with Any for target, in the order of the
    arguments; the declared variance plays no part, and neither does the
    direction have to be one of the two. *)
Theorem instance_against_any :
  forall O fuel info tvs kind source direction st,
    let any_type := AnyType kind source in
    let template := Instance {| type := info; args := map TypeVarLike tvs |} in
    Forall (plain_type_var O) tvs ->
    get_proper_type O template = template ->
    has_recursive_types O template = false ->
    get_proper_type O any_type = any_type ->
    kind <> suggestion_engine ->
    inferring st = [] ->
    infer_constraints O (S (S fuel)) template any_type direction st
    = (Ok (map (fun tv => Constraint_init tv direction any_type) tvs), st).
Proof.
  intros O fuel info tvs kind source direction st any_type template
         Htvs Hpt Hrec Hpa Hkind Hst.
  assert (Hna : normalize_operand O any_type = any_type)
    by (apply normalize_operand_proper; [ exact Hpa | reflexivity ]).
  assert (Hnt : normalize_operand O template = template)
    by (apply normalize_operand_proper; [ exact Hpt | reflexivity ]).
  assert (Hsa : is_suggestion_any any_type = false).
  { unfold any_type. destruct kind; try reflexivity. contradiction Hkind. reflexivity. }
  rewrite infer_constraints_reaches_matcher;
    rewrite ?Hna, ?Hnt; try assumption; try reflexivity.
  change (accept O (infer_constraints O (S fuel)) any_type direction template st)
    with (for_extend (map TypeVarLike tvs)
            (fun t => infer_constraints O (S fuel) t any_type direction) st).
  rewrite (for_extend_pure _ _ _
             (fun t => match t with
                       | TypeVarLike tv => [Constraint_init tv direction any_type]
                       | _ => []
                       end)).
  - assert (Hm : forall l,
              flat_map (fun t => match t with
                                 | TypeVarLike tv =>
                                     [Constraint_init tv direction any_type]
                                 | _ => []
                                 end) (map TypeVarLike l)
              = map (fun tv => Constraint_init tv direction any_type) l).
    { induction l as [ | tv l IH]; [ reflexivity | ].
      cbn [map flat_map app]. rewrite IH. reflexivity. }
    rewrite Hm. reflexivity.
  - intros x Hx. apply in_map_iff in Hx. destruct Hx as (tv & Hx & Hin). subst x.
    rewrite Forall_forall in Htvs.
    rewrite (infer_constraints_plain_type_var O fuel tv any_type direction st
               (Htvs tv Hin) Hst); rewrite Hna; [ reflexivity | exact Hsa ].
Qed.

(** [list[T]], whose parameter is declared invariant, against Any. *)
Lemma instance_against_any_example :
  infer_constraints example_oracle 2 ex_list_of_T (AnyType explicit None)
    SUPERTYPE_OF empty_guards
  = (Ok [Constraint_init ex_T SUPERTYPE_OF (AnyType explicit None)], empty_guards).
Proof.
  apply (instance_against_any example_oracle 0 "list"%string [ex_T] explicit None
           SUPERTYPE_OF empty_guards).
  - constructor; [ | constructor ].
    split; [ repeat eexists | split; reflexivity ].
  - reflexivity.
  - reflexivity.
  - reflexivity.
  - discriminate.
  - reflexivity.
Defined.

(* ------------------------------------------------------------------ *)
(** ** A tuple against a tuple *)



(* ------------------------------------------------------------------ *)
(** ** The variance of a type parameter *)









(* ------------------------------------------------------------------ *)
(** ** The guards across a computation that raises *)

Lemma guards_extend_refl : forall s, guards_extend s s.
Proof.
  intros s. split; [ | intros info ]; exists []; rewrite app_nil_r; reflexivity.
Qed.

Lemma guards_extend_of_same : forall s' s, same_guards s' s -> guards_extend s' s.
Proof.
  intros s' s [H1 H2]. split.
  - exists []. rewrite app_nil_r. exact H1.
  - intros info. exists []. rewrite app_nil_r. apply H2.
Qed.

Lemma guards_extend_same :
  forall s' s1 s, guards_extend s' s1 -> same_guards s1 s -> guards_extend s' s.
Proof.
  intros s' s1 s [[m1 H1] H2] [H3 H4]. split.
  - exists m1. rewrite H1, H3. reflexivity.
  - intros info. destruct (H2 info) as [m2 Hm2]. exists m2.
    rewrite Hm2, H4. reflexivity.
Qed.

Lemma guards_kept_outcome :
  forall A (m : M A), guards_kept m -> forall st, guards_extend (snd (m st)) st.
Proof.
  intros A m Hm st. destruct (m st) as [r st'] eqn:E.
  apply Hm in E. destruct r; [ apply guards_extend_of_same | ]; exact E.
Qed.

Lemma guards_kept_ret : forall A (a : A), guards_kept (ret a).
Proof.
  intros A a st r st' H. unfold ret in H. inversion H; subst.
  apply same_guards_refl.
Qed.

Lemma guards_kept_raise : forall A e, guards_kept (@raise A e).
Proof.
  intros A e st r st' H. unfold raise in H. inversion H; subst.
  apply guards_extend_refl.
Qed.

Lemma guards_kept_lift : forall A (r : Result A), guards_kept (lift r).
Proof.
  intros A r st r' st' H. unfold lift in H. inversion H; subst.
  destruct r'; [ apply same_guards_refl | apply guards_extend_refl ].
Qed.

Lemma guards_kept_bind :
  forall A B (m : M A) (f : A -> M B),
    guards_kept m -> (forall a, guards_kept (f a)) -> guards_kept (bind m f).
Proof.
  intros A B m f Hm Hf st r st' H. unfold bind in H.
  destruct (m st) as [[a | e] st1] eqn:E.
  - apply Hm in E. apply Hf in H. destruct r.
    + apply same_guards_trans with st1; assumption.
    + apply guards_extend_same with st1; assumption.
  - inversion H; subst. apply Hm in E. exact E.
Qed.

Lemma guards_kept_for_extend :
  forall A B (f : A -> M (list B)) (l : list A),
    (forall x, guards_kept (f x)) -> guards_kept (for_extend l f).
Proof.
  intros A B f l Hf. induction l as [ | x l IH]; simpl.
  - apply guards_kept_ret.
  - apply guards_kept_bind; [ apply Hf | intros r ].
    apply guards_kept_bind; [ exact IH | intros rs; apply guards_kept_ret ].
Qed.

Lemma guards_kept_for_collect :
  forall A B (f : A -> M B) (l : list A),
    (forall x, guards_kept (f x)) -> guards_kept (for_collect l f).
Proof.
  intros A B f l Hf. induction l as [ | x l IH]; simpl.
  - apply guards_kept_ret.
  - apply guards_kept_bind; [ apply Hf | intros r ].
    apply guards_kept_bind; [ exact IH | intros rs; apply guards_kept_ret ].
Qed.

Lemma guards_kept_get_inferring : guards_kept get_inferring.
Proof.
  intros st r st' H. unfold get_inferring in H. inversion H; subst.
  apply same_guards_refl.
Qed.

Lemma guards_kept_get_type_inferring :
  forall info, guards_kept (get_type_inferring info).
Proof.
  intros info st r st' H. unfold get_type_inferring in H. inversion H; subst.
  apply same_guards_refl.
Qed.

Lemma guards_kept_index_or_raise :
  forall A (l : list A) i, guards_kept (index_or_raise l i).
Proof.
  intros A l i. unfold index_or_raise.
  destruct (py_index l i); [ apply guards_kept_ret | apply guards_kept_raise ].
Qed.

(** An append, a body that keeps the guards and the pop that follows it keep
    them together: the pop finds the entry of the append, and an exception
    of the body leaves that entry above what the caller had. *)
Lemma guards_kept_inferring_bracket :
  forall A B (p : Ty * Ty) (body : M A) (k : A -> M B),
    guards_kept body -> (forall a, guards_kept (k a)) ->
    guards_kept (inferring_append p ;;; a <- body ;; inferring_pop ;;; k a).
Proof.
  intros A B p body k Hbody Hk st r st' H.
  unfold bind at 1 in H. unfold inferring_append at 1 in H.
  unfold bind at 1 in H.
  match type of H with
  | context [body ?s] => destruct (body s) as [[a | e] st1] eqn:E
  end.
  - apply Hbody in E. destruct E as [E1 E2]. simpl in E1, E2.
    unfold bind at 1 in H. unfold inferring_pop in H.
    rewrite E1 in H.
    destruct (inferring st ++ [p]) as [ | x l] eqn:El.
    { destruct (inferring st); discriminate. }
    rewrite <- El in H. rewrite removelast_last in H.
    apply Hk in H.
    assert (Hs : same_guards
                   {| inferring := inferring st; type_inferring := type_inferring st1 |}
                   st)
      by (split; [ reflexivity | exact E2 ]).
    destruct r.
    + apply same_guards_trans with (2 := Hs). exact H.
    + apply guards_extend_same with (2 := Hs). exact H.
  - inversion H; subst. apply Hbody in E. destruct E as [[m1 E1] E2].
    simpl in E1, E2. split.
    + exists ([p] ++ m1). rewrite E1, app_assoc. reflexivity.
    + exact E2.
Qed.

(** ... and the same for the [inferring] list of a class. *)
Lemma guards_kept_type_inferring_bracket :
  forall A B info (t : Ty) (body : M A) (k : A -> M B),
    guards_kept body -> (forall a, guards_kept (k a)) ->
    guards_kept (type_inferring_append info t ;;; a <- body ;;
                 type_inferring_pop info ;;; k a).
Proof.
  intros A B info t body k Hbody Hk st r st' H.
  unfold bind at 1 in H. unfold type_inferring_append at 1 in H.
  unfold bind at 1 in H.
  match type of H with
  | context [body ?s] => destruct (body s) as [[a | e] st1] eqn:E
  end.
  - apply Hbody in E. destruct E as [E1 E2]. simpl in E1, E2.
    unfold bind at 1 in H. unfold type_inferring_pop in H.
    pose proof (E2 info) as Ei. rewrite String.eqb_refl in Ei.
    rewrite Ei in H.
    destruct (type_inferring st info ++ [t]) as [ | x l] eqn:El.
    { destruct (type_inferring st info); discriminate. }
    apply Hk in H.
    match type of H with
    | match r with Ok _ => same_guards _ ?s | Raise _ => _ end =>
        assert (Hs : same_guards s st)
    end.
    { split; [ exact E1 | ]. intros k0. simpl. rewrite (E2 k0).
      destruct (String.eqb k0 info) eqn:Ek; [ | reflexivity ].
      apply String.eqb_eq in Ek. subst k0. apply removelast_last. }
    destruct r.
    + apply same_guards_trans with (2 := Hs). exact H.
    + apply guards_extend_same with (2 := Hs). exact H.
  - inversion H; subst. apply Hbody in E. destruct E as [[m1 E1] E2].
    simpl in E1, E2. split.
    + exists m1. exact E1.
    + intros k0. destruct (E2 k0) as [m2 Hm2].
      destruct (String.eqb k0 info).
      * exists ([t] ++ m2). rewrite Hm2, app_assoc. reflexivity.
      * exists m2. exact Hm2.
Qed.

(** One step of a proof that the guards are kept: the shape of the
    computation decides. *)
Ltac keep_step :=
  first
    [ assumption
    | apply guards_kept_ret
    | apply guards_kept_raise
    | apply guards_kept_lift
    | apply guards_kept_get_inferring
    | apply guards_kept_get_type_inferring
    | apply guards_kept_index_or_raise
    | apply guards_kept_type_inferring_bracket; [ | intros ]
    | apply guards_kept_inferring_bracket; [ | intros ]
    | apply guards_kept_bind; [ | intros ]
    | apply guards_kept_for_extend; intros
    | apply guards_kept_for_collect; intros
    | match goal with
      | H : forall t a d, guards_kept (?rec t a d) |- guards_kept (?rec _ _ _) => apply H
      | |- guards_kept (match ?x with _ => _ end) => destruct x
      end ].

Ltac keep_guards := cbv beta; repeat (keep_step; cbv beta).


Section Kept.

Variable O : Oracle.
Variable depth : nat.
Variable rec : Ty -> Ty -> Z -> M (list Constraint).
Hypothesis rec_guards_kept : forall t a d, guards_kept (rec t a d).

Lemma guards_kept_infer_against_any :
  forall direction types any_type,
    guards_kept (infer_against_any rec direction types any_type).
Proof. intros. unfold infer_against_any. keep_guards. Qed.

Lemma guards_kept_protocol_members_loop :
  forall direction members res instance template subtype protocol class_obj,
    guards_kept (protocol_members_loop O rec direction members res
                instance template subtype protocol class_obj).
Proof.
  intros direction members.
  induction members as [ | member rest IH]; intros; simpl.
  - keep_guards.
  - keep_guards. apply IH.
Qed.

Lemma guards_kept_infer_constraints_from_protocol_members :
  forall direction instance template subtype protocol class_obj,
    guards_kept (infer_constraints_from_protocol_members O rec direction
                instance template subtype protocol class_obj).
Proof.
  intros. unfold infer_constraints_from_protocol_members.
  apply guards_kept_protocol_members_loop.
Qed.

Lemma guards_kept_visit_parameters :
  forall actual direction template,
    guards_kept (visit_parameters rec actual direction template).
Proof.
  intros. unfold visit_parameters.
  destruct (is_AnyType actual);
    [ apply guards_kept_infer_against_any | apply guards_kept_raise ].
Qed.

Lemma guards_kept_nominal_type_var_arg :
  forall direction v t a, guards_kept (nominal_type_var_arg rec direction v t a).
Proof. intros. unfold nominal_type_var_arg. keep_guards. Qed.

Lemma guards_kept_nominal_subtype_arg :
  forall direction x, guards_kept (nominal_subtype_arg O rec direction x).
Proof.
  intros direction [[tvar mapped_arg] instance_arg]. unfold nominal_subtype_arg.
  destruct tvar; try apply guards_kept_nominal_type_var_arg; keep_guards.
Qed.

Lemma guards_kept_nominal_supertype_arg :
  forall direction x, guards_kept (nominal_supertype_arg O rec direction x).
Proof.
  intros direction [[tvar mapped_arg] template_arg]. unfold nominal_supertype_arg.
  destruct tvar; try apply guards_kept_nominal_type_var_arg; keep_guards.
Qed.

Lemma guards_kept_unpack_middle_constraints :
  forall direction template_middle mapped_middle,
    guards_kept (unpack_middle_constraints O rec direction template_middle mapped_middle).
Proof. intros. unfold unpack_middle_constraints. keep_guards. Qed.

Lemma guards_kept_visit_instance_callback_protocol :
  forall actual direction template,
    guards_kept (visit_instance_callback_protocol O rec actual direction template).
Proof. intros. unfold visit_instance_callback_protocol. keep_guards. Qed.

Lemma guards_kept_visit_instance_class_object :
  forall actual direction template,
    guards_kept (visit_instance_class_object O rec actual direction template).
Proof.
  intros. unfold visit_instance_class_object.
  apply guards_kept_bind.
  - destruct actual; try apply guards_kept_ret.
    destruct (fallback c); [ | apply guards_kept_ret ].
    apply guards_kept_bind; [ | intros; apply guards_kept_ret ].
    destruct (is_type_obj O c && is_protocol O (type template));
      [ | apply guards_kept_ret ].
    cbv zeta.
    match goal with
    | |- guards_kept (match ?x with _ => _ end) => destruct x
    end; try apply guards_kept_ret;
      apply guards_kept_infer_constraints_from_protocol_members.
  - intros [actual1 res].
    destruct actual1; try apply guards_kept_ret.
    destruct (is_protocol O (type template)); [ | apply guards_kept_ret ].
    destruct actual1; try apply guards_kept_ret.
    apply guards_kept_bind;
      [ apply guards_kept_infer_constraints_from_protocol_members
      | intros; apply guards_kept_ret ].
Qed.

Lemma guards_kept_visit_instance_instance :
  forall direction template original_actual instance res,
    guards_kept (visit_instance_instance O rec direction template original_actual
                instance res).
Proof.
  intros. unfold visit_instance_instance.
  destruct (erase_typevars O (Instance template)); try apply guards_kept_raise.
  destruct (Z.eqb direction SUBTYPE_OF && has_base O (type template) (type instance)).
  { apply guards_kept_bind; [ | intros; apply guards_kept_ret ].
    apply guards_kept_for_extend. apply guards_kept_nominal_subtype_arg. }
  destruct (Z.eqb direction SUPERTYPE_OF && has_base O (type instance) (type template)).
  { apply guards_kept_bind.
    - destruct (has_type_var_tuple_type O (type template)); [ | apply guards_kept_ret ].
      destruct (split_with_instance O (map_instance_to_supertype O instance (type template)))
        as [[mp mm] ms].
      destruct (split_with_instance O template) as [[tp tm] ts].
      apply guards_kept_bind; [ apply guards_kept_unpack_middle_constraints | intros r0 ].
      destruct (type_var_tuple_prefix O (type template)); [ | apply guards_kept_raise ].
      destruct (type_var_tuple_suffix O (type template)); [ | apply guards_kept_raise ].
      destruct (split_with_prefix_and_suffix O (type_vars O (type template)) n n0)
        as [[a b] c].
      apply guards_kept_ret.
    - intros [[[r0 tvars'] mapped_args] template_args].
      apply guards_kept_bind; [ | intros; apply guards_kept_ret ].
      apply guards_kept_for_extend. apply guards_kept_nominal_supertype_arg. }
  apply guards_kept_bind; [ apply guards_kept_get_type_inferring | intros stack_t ].
  match goal with
  | |- guards_kept (if ?b then _ else _) => destruct b
  end.
  { apply guards_kept_type_inferring_bracket; [ | intros; apply guards_kept_ret ].
    apply guards_kept_infer_constraints_from_protocol_members. }
  apply guards_kept_bind; [ apply guards_kept_get_type_inferring | intros stack_i ].
  match goal with
  | |- guards_kept (if ?b then _ else _) => destruct b
  end; [ | apply guards_kept_ret ].
  apply guards_kept_type_inferring_bracket; [ | intros; apply guards_kept_ret ].
  apply guards_kept_infer_constraints_from_protocol_members.
Qed.

Lemma guards_kept_visit_instance_fallbacks :
  forall direction template actual',
    guards_kept (visit_instance_fallbacks O rec direction template actual').
Proof.
  intros. unfold visit_instance_fallbacks.
  destruct actual'; try apply guards_kept_ret.
  - apply guards_kept_infer_against_any.
  - keep_guards.
  - keep_guards.
Qed.

Lemma guards_kept_visit_instance :
  forall actual direction template,
    guards_kept (visit_instance O rec actual direction template).
Proof.
  intros. unfold visit_instance.
  apply guards_kept_bind;
    [ apply guards_kept_visit_instance_callback_protocol | intros returned ].
  destruct returned; [ apply guards_kept_ret | ].
  apply guards_kept_bind;
    [ apply guards_kept_visit_instance_class_object | intros [actual1 res] ].
  apply guards_kept_bind.
  - destruct (visit_instance_unwrap O actual1); try apply guards_kept_ret.
    apply guards_kept_visit_instance_instance.
  - intros returned'. destruct returned'; [ apply guards_kept_ret | ].
    destruct (truthy res); [ apply guards_kept_ret | ].
    apply guards_kept_visit_instance_fallbacks.
Qed.

Lemma guards_kept_infer_against_overloaded :
  forall direction overloaded template,
    guards_kept (infer_against_overloaded O rec direction overloaded template).
Proof. intros. unfold infer_against_overloaded. keep_guards. Qed.

Lemma guards_kept_callable_args_constraints :
  forall direction template cactual,
    guards_kept (callable_args_constraints O rec direction template cactual).
Proof.
  intros. unfold callable_args_constraints.
  destruct (param_spec O template) as [[[ps_id prefix] ps_bound] | ].
  - cbv zeta. destruct (param_spec O cactual) as [[[a_id a_prefix] a_bound] | ];
      keep_guards.
  - keep_guards.
Qed.

Lemma guards_kept_visit_callable_type :
  forall actual direction template,
    guards_kept (visit_callable_type O rec actual direction template).
Proof.
  intros. unfold visit_callable_type. cbv zeta.
  destruct actual; try apply guards_kept_ret.
  - apply guards_kept_bind; [ | intros; keep_guards ].
    destruct (param_spec O (with_unpacked_kwargs O template))
      as [[[ps_id prefix] ps_bound] | ];
      [ apply guards_kept_ret | apply guards_kept_infer_against_any ].
  - keep_guards.
  - apply guards_kept_bind;
      [ apply guards_kept_callable_args_constraints | intros; keep_guards ].
  - apply guards_kept_infer_against_overloaded.
  - keep_guards.
Qed.

Lemma guards_kept_visit_tuple_type :
  forall actual direction t_items t_fallback,
    guards_kept (visit_tuple_type O rec actual direction t_items t_fallback).
Proof.
  intros. unfold visit_tuple_type. cbv zeta.
  apply guards_kept_bind.
  - destruct (find_unpack_in_list O t_items) as [unpack_index | ];
      [ | apply guards_kept_ret ].
    apply guards_kept_bind; [ apply guards_kept_index_or_raise | intros item ].
    destruct (get_proper_type O item); try apply guards_kept_raise.
    match goal with
    | |- guards_kept (match get_proper_type O ?u with _ => _ end) =>
        destruct (get_proper_type O u)
    end; try apply guards_kept_ret.
    match goal with
    | |- guards_kept (match ?v with _ => _ end) => destruct v
    end; try apply guards_kept_ret.
    apply guards_kept_bind; [ keep_guards | intros _ ].
    destruct actual; keep_guards.
  - intros returned. destruct returned; [ apply guards_kept_ret | ].
    destruct actual; try apply guards_kept_ret.
    + apply guards_kept_infer_against_any.
    + keep_guards.
Qed.

Lemma guards_kept_visit_typeddict_type :
  forall actual direction t_items t_fallback,
    guards_kept (visit_typeddict_type O rec actual direction t_items t_fallback).
Proof.
  intros. unfold visit_typeddict_type.
  destruct actual; try apply guards_kept_ret.
  - apply guards_kept_infer_against_any.
  - keep_guards.
Qed.

Lemma guards_kept_visit_overloaded :
  forall actual direction t_items,
    guards_kept (visit_overloaded O rec actual direction t_items).
Proof. intros. unfold visit_overloaded. keep_guards. Qed.

Lemma guards_kept_visit_type_type :
  forall actual direction item,
    guards_kept (visit_type_type rec actual direction item).
Proof. intros. unfold visit_type_type. keep_guards. Qed.

Lemma guards_kept_accept :
  forall actual direction template,
    guards_kept (accept O rec actual direction template).
Proof.
  intros. unfold accept.
  destruct template; try apply guards_kept_ret; try apply guards_kept_raise.
  - destruct v; [ apply guards_kept_raise | apply guards_kept_ret | apply guards_kept_raise ].
  - apply guards_kept_visit_parameters.
  - apply guards_kept_visit_instance.
  - apply guards_kept_visit_callable_type.
  - apply guards_kept_visit_tuple_type.
  - apply guards_kept_visit_typeddict_type.
  - apply guards_kept_visit_overloaded.
  - apply guards_kept_visit_type_type.
Qed.

Lemma guards_kept_infer_constraints_if_possible :
  forall template actual direction,
    guards_kept (infer_constraints_if_possible O rec template actual direction).
Proof. intros. unfold infer_constraints_if_possible. keep_guards. Qed.

Lemma guards_kept_handle_recursive_union :
  forall items actual direction,
    guards_kept (handle_recursive_union O rec items actual direction).
Proof. intros. unfold handle_recursive_union. keep_guards. Qed.

Lemma guards_kept__infer_constraints :
  forall template actual direction,
    guards_kept (_infer_constraints O depth rec template actual direction).
Proof.
  intros. unfold _infer_constraints. cbv zeta.
  match goal with
  | |- guards_kept (if ?b then _ else _) => destruct b
  end; [ apply guards_kept_ret | ].
  assert (Hrest :
    forall t a,
      guards_kept
        (match (if Z.eqb direction SUBTYPE_OF then union_items t else None) with
         | Some t_items => for_extend t_items (fun t_item => rec t_item a direction)
         | None =>
         match (if Z.eqb direction SUPERTYPE_OF then union_items a else None) with
         | Some a_items => for_extend a_items (fun a_item => rec template a_item direction)
         | None =>
         match (if Z.eqb direction SUBTYPE_OF then union_items a else None) with
         | Some a_items =>
             options <- for_collect (simplify_away_incomplete_types O a_items)
                          (fun a_item =>
                             infer_constraints_if_possible O rec t a_item direction) ;;
             lift (any_constraints O depth options true)
         | None =>
         match (if Z.eqb direction SUPERTYPE_OF then union_items t else None) with
         | Some t_items =>
             options <- for_collect t_items
                          (fun t_item =>
                             infer_constraints_if_possible O rec t_item a direction) ;;
             result <- lift (any_constraints O depth options false) ;;
             if truthy result then ret result
             else if has_recursive_types O t && negb (has_recursive_types O a)
             then handle_recursive_union O rec t_items a direction
             else ret []
         | None => accept O rec a direction t
         end end end end)).
  { intros t a.
    destruct (if Z.eqb direction SUBTYPE_OF then union_items t else None);
      [ keep_guards | ].
    destruct (if Z.eqb direction SUPERTYPE_OF then union_items a else None);
      [ keep_guards | ].
    destruct (if Z.eqb direction SUBTYPE_OF then union_items a else None).
    { apply guards_kept_bind; [ | intros; apply guards_kept_lift ].
      apply guards_kept_for_collect. intros.
      apply guards_kept_infer_constraints_if_possible. }
    destruct (if Z.eqb direction SUPERTYPE_OF then union_items t else None).
    { apply guards_kept_bind.
      - apply guards_kept_for_collect. intros.
        apply guards_kept_infer_constraints_if_possible.
      - intros options. apply guards_kept_bind; [ apply guards_kept_lift | intros result ].
        destruct (truthy result); [ apply guards_kept_ret | ].
        destruct (has_recursive_types O t && negb (has_recursive_types O a));
          [ apply guards_kept_handle_recursive_union | apply guards_kept_ret ]. }
    apply guards_kept_accept. }
  match goal with
  | |- guards_kept (match ?t with _ => _ end) =>
      destruct t eqn:Et; try apply Hrest
  end.
  destruct v; try apply Hrest. apply guards_kept_ret.
Qed.

End Kept.

(** Every inference request keeps the guards, whatever depth it is given. *)
Lemma guards_kept_infer_constraints :
  forall O fuel template actual direction,
    guards_kept (infer_constraints O fuel template actual direction).
Proof.
  intros O fuel. induction fuel as [ | fuel IH]; intros; simpl.
  - apply guards_kept_raise.
  - apply guards_kept_bind; [ apply guards_kept_get_inferring | intros stack ].
    match goal with
    | |- guards_kept (if ?b then _ else _) => destruct b
    end; [ apply guards_kept_ret | ].
    destruct (has_recursive_types O template).
    + destruct (negb (has_type_vars O template)); [ apply guards_kept_ret | ].
      apply guards_kept_inferring_bracket; [ | intros; apply guards_kept_ret ].
      apply guards_kept__infer_constraints. exact IH.
    + apply guards_kept__infer_constraints. exact IH.
Qed.

Lemma guards_kept_actuals_loop :
  forall O fuel callee arg_types' arg_kinds' i actuals mapper,
    guards_kept (actuals_loop O fuel callee arg_types' arg_kinds' i actuals mapper).
Proof.
  intros O fuel callee arg_types' arg_kinds' i actuals.
  induction actuals as [ | actual rest IH]; intros mapper; simpl.
  - apply guards_kept_ret.
  - apply guards_kept_bind; [ apply guards_kept_index_or_raise | intros [ty | ] ].
    + apply guards_kept_bind; [ apply guards_kept_index_or_raise | intros kind ].
      apply guards_kept_bind; [ apply guards_kept_index_or_raise | intros name ].
      apply guards_kept_bind; [ apply guards_kept_index_or_raise | intros callee_kind ].
      destruct (expand_actual_type O mapper ty kind name callee_kind)
        as [actual_type mapper'].
      apply guards_kept_bind; [ apply guards_kept_index_or_raise | intros formal ].
      apply guards_kept_bind; [ apply guards_kept_infer_constraints | intros c ].
      apply guards_kept_bind; [ apply IH | intros p; apply guards_kept_ret ].
    + apply IH.
Qed.

Lemma guards_kept_formals_loop :
  forall O fuel callee arg_types' arg_kinds' formal_to_actual i mapper,
    guards_kept (formals_loop O fuel callee arg_types' arg_kinds' i formal_to_actual mapper).
Proof.
  intros O fuel callee arg_types' arg_kinds' formal_to_actual.
  induction formal_to_actual as [ | actuals rest IH]; intros i mapper; simpl.
  - apply guards_kept_ret.
  - apply guards_kept_bind; [ apply guards_kept_actuals_loop | intros p ].
    apply guards_kept_bind; [ apply IH | intros r; apply guards_kept_ret ].
Qed.

(** X13: however a request ends, by a return or by an exception, the guard
    entries its caller had are still there, in place: what is left of the
    request, if anything, lies above them.  This holds for
    [infer_constraints] at any depth and for
    [infer_constraints_for_callable]. *)
Theorem guards_of_the_caller_survive :
  forall O fuel st,
    (forall template actual direction,
        guards_extend
          (snd (infer_constraints O fuel template actual direction st)) st)
    /\ (forall callee arg_types' arg_kinds' formal_to_actual context,
        guards_extend
          (snd (infer_constraints_for_callable O fuel callee arg_types' arg_kinds'
                  formal_to_actual context st)) st).
Proof.
  intros O fuel st. split.
  - intros template actual direction.
    apply guards_kept_outcome. apply guards_kept_infer_constraints.
  - intros callee arg_types' arg_kinds' formal_to_actual context.
    unfold infer_constraints_for_callable.
    apply guards_kept_outcome. apply guards_kept_formals_loop.
Qed.

(* ------------------------------------------------------------------ *)
(** ** What any_constraints keeps of its options *)

Lemma option_all_filter_satisfiable :
  forall O (P : Constraint -> Prop) o,
    option_all P o -> option_all P (filter_satisfiable O o).
Proof.
  intros O P [l | ] H; [ | exact I ].
  unfold filter_satisfiable. destruct l as [ | c l]; [ exact H | ].
  match goal with
  | |- option_all P (match ?f with _ => _ end) =>
      assert (Hf : Forall P f); [ | destruct f; [ exact I | exact Hf ] ]
  end.
  apply Forall_forall. intros x Hx. apply filter_In in Hx.
  cbn [option_all] in H. rewrite Forall_forall in H. apply H. apply Hx.
Qed.

Lemma option_all_valid_options :
  forall (P : Constraint -> Prop) options eager,
    Forall (option_all P) options ->
    Forall (Forall P) (valid_options_of options eager).
Proof.
  intros P options eager H. apply Forall_forall. intros l Hl.
  apply valid_options_of_in in Hl. rewrite Forall_forall in H.
  exact (H _ Hl).
Qed.

(** A property of constraints that [merge_with_any] keeps, and that holds
    of every constraint of the options, holds of every constraint of the
    answer. *)
Lemma any_constraints_keeps :
  forall O (P : Constraint -> Prop),
    (forall c, P c -> P (merge_with_any O c)) ->
    forall fuel options eager res,
      Forall (option_all P) options ->
      any_constraints O fuel options eager = Ok res ->
      Forall P res.
Proof.
  intros O P Hmerge fuel.
  induction fuel as [ | fuel IH]; intros options eager res Hall H.
  - discriminate.
  - rewrite any_constraints_unfold in H. cbv zeta in H.
    pose proof (option_all_valid_options P options eager Hall) as Hvalid.
    assert (Hlast :
      (if negb (options_eq O (map (filter_satisfiable O) options) options)
       then any_constraints O fuel (map (filter_satisfiable O) options) eager
       else Ok []) = Ok res -> Forall P res).
    { destruct (negb (options_eq O (map (filter_satisfiable O) options) options)).
      - apply IH. apply Forall_forall. intros o Ho.
        apply in_map_iff in Ho. destruct Ho as (o0 & Ho0 & Hin). subst o.
        apply option_all_filter_satisfiable.
        rewrite Forall_forall in Hall. apply Hall. exact Hin.
      - intros E. inversion E. constructor. }
    destruct (valid_options_of options eager) as [ | first [ | second rest]] eqn:Hv.
    + inversion H. constructor.
    + inversion H. subst res. inversion Hvalid. assumption.
    + destruct (forallb (is_same_constraints O first) (second :: rest)).
      { inversion H. subst res. inversion Hvalid. assumption. }
      destruct (forallb (is_similar_constraints O first) (second :: rest));
        [ | exact (Hlast H) ].
      match type of H with
      | (if ?b then _ else _) = _ => destruct b
      end; [ | exact (Hlast H) ].
      apply IH in H; [ exact H | ].
      apply Forall_forall. intros o Ho.
      apply in_map_iff in Ho. destruct Ho as (l & Hl & Hin). subst o.
      apply filter_In in Hin. destruct Hin as [Hin _].
      rewrite Forall_forall in Hvalid. pose proof (Hvalid _ Hin) as Hwl.
      cbn [option_all]. apply Forall_forall. intros c Hc.
      apply in_map_iff in Hc. destruct Hc as (c0 & Hc0 & Hin0). subst c.
      apply Hmerge.
      rewrite Forall_forall in Hwl. apply Hwl. exact Hin0.
Qed.

(* ------------------------------------------------------------------ *)
(** ** Templates that hold nothing to infer *)

Lemma gives_nothing_ret : gives_nothing (ret []).
Proof. intros st r st' H. inversion H. left. reflexivity. Qed.

Lemma gives_nothing_for_extend :
  forall A (f : A -> M (list Constraint)) l,
    (forall x, gives_nothing (f x)) -> gives_nothing (for_extend l f).
Proof.
  intros A f l Hf. induction l as [ | x l IH]; intros st r st' H.
  - inversion H. left. reflexivity.
  - cbn [for_extend] in H. unfold bind at 1 in H.
    destruct (f x st) as [r1 st1] eqn:E1.
    destruct (Hf x _ _ _ E1) as [Hr | Hr]; subst r1.
    + unfold bind at 1 in H.
      destruct (for_extend l f st1) as [r2 st2] eqn:E2.
      destruct (IH _ _ _ E2) as [Hr | Hr]; subst r2.
      * inversion H. left. reflexivity.
      * inversion H. right. reflexivity.
    + inversion H. right. reflexivity.
Qed.

Lemma any_constraints_raises_on_depth_only :
  forall O fuel options eager e,
    any_constraints O fuel options eager = Raise e -> e = RecursionError.
Proof.
  intros O fuel. induction fuel as [ | fuel IH]; intros options eager e H.
  - inversion H. reflexivity.
  - rewrite any_constraints_unfold in H. cbv zeta in H.
    assert (Hlast :
      (if negb (options_eq O (map (filter_satisfiable O) options) options)
       then any_constraints O fuel (map (filter_satisfiable O) options) eager
       else Ok []) = Raise e -> e = RecursionError).
    { destruct (negb (options_eq O (map (filter_satisfiable O) options) options));
        [ apply IH | discriminate ]. }
    destruct (valid_options_of options eager) as [ | first [ | second rest]];
      try discriminate.
    destruct (forallb (is_same_constraints O first) (second :: rest));
      [ discriminate | ].
    destruct (forallb (is_similar_constraints O first) (second :: rest));
      [ | exact (Hlast H) ].
    match type of H with
    | (if ?b then _ else _) = _ => destruct b
    end; [ eapply IH; exact H | exact (Hlast H) ].
Qed.

(** Options that are all missing or empty give an empty answer. *)
Lemma any_constraints_of_empty_options :
  forall O fuel options eager r,
    Forall (fun o => o = None \/ o = Some []) options ->
    any_constraints O fuel options eager = r ->
    r = Ok [] \/ r = Raise RecursionError.
Proof.
  intros O fuel options eager r Hall H. destruct r as [res | e].
  - left. f_equal.
    assert (Hnone : Forall (fun _ : Constraint => False) res).
    { apply (any_constraints_keeps O (fun _ => False) (fun c Hc => Hc)
               fuel options eager res); [ | exact H ].
      apply Forall_forall. intros o Ho. rewrite Forall_forall in Hall.
      destruct (Hall o Ho) as [Hn | Hs]; subst o; [ exact I | constructor ]. }
    destruct res as [ | c res]; [ reflexivity | ].
    inversion Hnone. contradiction.
  - right. f_equal. eapply any_constraints_raises_on_depth_only. exact H.
Qed.

Section Leaf.

Variable O : Oracle.
Variable depth : nat.
Variable rec : Ty -> Ty -> Z -> M (list Constraint).

Lemma leaf_normalize :
  forall t, trivial_leaf t = true -> get_proper_type O t = t ->
            normalize_operand O t = t.
Proof.
  intros t Hleaf Hproper. unfold normalize_operand. rewrite Hproper.
  destruct t; try reflexivity; discriminate.
Qed.

Lemma leaf_accept :
  forall t a d st, trivial_leaf t = true -> accept O rec a d t st = (Ok [], st).
Proof.
  intros t a d st Hleaf. destruct t; try discriminate; try reflexivity.
  destruct v; try discriminate. reflexivity.
Qed.

Lemma leaf_options :
  forall t, (forall a d, gives_nothing (rec t a d)) ->
  forall items d st r st',
    for_collect items
      (fun a_item => infer_constraints_if_possible O rec t a_item d) st = (r, st') ->
    (exists options, r = Ok options
                     /\ Forall (fun o => o = None \/ o = Some []) options)
    \/ r = Raise RecursionError.
Proof.
  intros t rec_nothing items d.
  induction items as [ | a items IH]; intros st r st' H.
  - inversion H. left. exists []. split; [ reflexivity | constructor ].
  - cbn [for_collect] in H. unfold bind at 1 in H.
    destruct (infer_constraints_if_possible O rec t a d st) as [r1 st1] eqn:E1.
    assert (Hr1 : r1 = Ok None \/ r1 = Ok (Some []) \/ r1 = Raise RecursionError).
    { unfold infer_constraints_if_possible in E1.
      repeat match type of E1 with
             | (if ?b then _ else _) _ = _ =>
                 destruct b; [ inversion E1; left; reflexivity | ]
             end.
      unfold bind in E1. destruct (rec t a d st) as [r0 st0] eqn:E0.
      destruct (rec_nothing _ _ _ _ _ E0) as [Hr | Hr]; subst r0;
        inversion E1; auto. }
    assert (Hrest : forall o, r1 = Ok o -> o = None \/ o = Some [] ->
                              (exists options,
                                  r = Ok options
                                  /\ Forall (fun o => o = None \/ o = Some []) options)
                              \/ r = Raise RecursionError).
    { intros o Ho Hoo. subst r1. unfold bind at 1 in H.
      destruct (for_collect items
                  (fun a_item => infer_constraints_if_possible O rec t a_item d) st1)
        as [r2 st2] eqn:E2.
      destruct (IH _ _ _ E2) as [(options & Hr & Hall) | Hr]; subst r2.
      - inversion H. left. exists (o :: options).
        split; [ reflexivity | constructor; assumption ].
      - inversion H. right. reflexivity. }
    destruct Hr1 as [Hr | [Hr | Hr]].
    + apply (Hrest None Hr). left. reflexivity.
    + apply (Hrest (Some []) Hr). right. reflexivity.
    + subst r1. inversion H. right. reflexivity.
Qed.

Lemma leaf__infer_constraints :
  forall t, trivial_leaf t = true -> get_proper_type O t = t ->
            (forall a d, gives_nothing (rec t a d)) ->
  forall actual d, gives_nothing (_infer_constraints O depth rec t actual d).
Proof.
  intros t Hleaf Hproper rec_nothing actual d st r st' H.
  rewrite _infer_constraints_unfold in H. cbv zeta in H.
  rewrite (leaf_normalize t Hleaf Hproper) in H.
  destruct (is_suggestion_any (normalize_operand O actual));
    [ inversion H; left; reflexivity | ].
  assert (Hrest :
    match (if Z.eqb d SUPERTYPE_OF
           then union_items (normalize_operand O actual) else None) with
    | Some a_items => for_extend a_items (fun a_item => rec t a_item d)
    | None =>
    match (if Z.eqb d SUBTYPE_OF
           then union_items (normalize_operand O actual) else None) with
    | Some a_items =>
        options <- for_collect (simplify_away_incomplete_types O a_items)
                     (fun a_item => infer_constraints_if_possible O rec t a_item d) ;;
        lift (any_constraints O depth options true)
    | None => accept O rec (normalize_operand O actual) d t
    end end st = (r, st') ->
    r = Ok [] \/ r = Raise RecursionError).
  { clear H. intros H.
    destruct (if Z.eqb d SUPERTYPE_OF
              then union_items (normalize_operand O actual) else None).
    { eapply gives_nothing_for_extend; [ | exact H ]. intros x. apply rec_nothing. }
    destruct (if Z.eqb d SUBTYPE_OF
              then union_items (normalize_operand O actual) else None).
    { unfold bind in H.
      match type of H with
      | context [for_collect ?l ?f st] =>
          destruct (for_collect l f st) as [r1 st1] eqn:E1
      end.
      destruct (leaf_options t rec_nothing _ _ _ _ _ E1)
        as [(options & Hr & Hall) | Hr]; subst r1.
      - unfold lift in H. inversion H.
        eapply any_constraints_of_empty_options; [ exact Hall | reflexivity ].
      - inversion H. right. reflexivity. }
    rewrite (leaf_accept t _ _ _ Hleaf) in H. inversion H. left. reflexivity. }
  clear Hproper rec_nothing.
  destruct t; try discriminate; destruct (Z.eqb d SUBTYPE_OF), (Z.eqb d SUPERTYPE_OF);
    cbn [union_items] in H; try (apply Hrest; exact H).
  all: destruct v; try discriminate; apply Hrest; exact H.
Qed.

Lemma leaf__infer_constraints_returns :
  forall t actual d st,
    trivial_leaf t = true -> get_proper_type O t = t ->
    union_items (normalize_operand O actual) = None ->
    _infer_constraints O depth rec t actual d st = (Ok [], st).
Proof.
  intros t actual d st Hleaf Hproper Hu.
  rewrite _infer_constraints_unfold. cbv zeta.
  rewrite (leaf_normalize t Hleaf Hproper), Hu.
  destruct (is_suggestion_any (normalize_operand O actual)); [ reflexivity | ].
  pose proof (leaf_accept t (normalize_operand O actual) d st Hleaf) as Hacc.
  clear Hproper.
  destruct t; try discriminate; destruct (Z.eqb d SUBTYPE_OF), (Z.eqb d SUPERTYPE_OF);
    cbn [union_items]; try exact Hacc.
  all: destruct v; try discriminate; exact Hacc.
Qed.

End Leaf.

Lemma leaf_infer_constraints :
  forall O fuel t,
    trivial_leaf t = true -> get_proper_type O t = t ->
    forall actual d, gives_nothing (infer_constraints O fuel t actual d).
Proof.
  intros O fuel t Hleaf Hproper.
  induction fuel as [ | fuel IH]; intros actual d st r st' H.
  - inversion H. right. reflexivity.
  - rewrite infer_constraints_unfold in H.
    destruct (on_recursion_guard O t actual (inferring st));
      [ inversion H; left; reflexivity | ].
    destruct (has_recursive_types O t).
    + destruct (negb (has_type_vars O t)); [ inversion H; left; reflexivity | ].
      unfold bind at 1 in H. unfold inferring_append at 1 in H.
      unfold bind at 1 in H.
      match type of H with
      | context [_infer_constraints O fuel ?rec t actual d ?s] =>
          destruct (_infer_constraints O fuel rec t actual d s) as [r1 st1] eqn:E1
      end.
      pose proof (balanced__infer_constraints O fuel (infer_constraints O fuel)
                    (balanced_infer_constraints O fuel) t actual d) as Hbal.
      destruct (leaf__infer_constraints O fuel (infer_constraints O fuel) t
                  Hleaf Hproper IH actual d _ _ _ E1) as [Hr | Hr]; subst r1.
      * apply Hbal in E1. destruct E1 as [E1 _]. cbn [inferring] in E1.
        unfold bind at 1 in H. unfold inferring_pop in H. rewrite E1 in H.
        destruct (inferring st ++ [(t, actual)]) eqn:El.
        { destruct (inferring st); discriminate. }
        inversion H. left. reflexivity.
      * inversion H. right. reflexivity.
    + eapply leaf__infer_constraints; eassumption.
Qed.

(** X14: a template that is [Any], [None], the uninhabited type, an erased,
    deleted or unbound type, a literal type or a ParamSpec gives no
    constraint, whatever the actual type and the direction: the request
    returns the empty list, or, the recursion over a union as actual gone
    too deep, ends in RecursionError and in nothing else.  With an actual
    type that is not a union it returns the empty list at any depth. *)
Theorem leaf_template_gives_no_constraint :
  forall O fuel t actual d st,
    trivial_leaf t = true ->
    get_proper_type O t = t ->
    (fst (infer_constraints O fuel t actual d st) = Ok []
     \/ fst (infer_constraints O fuel t actual d st) = Raise RecursionError)
    /\ (union_items (normalize_operand O actual) = None ->
        fst (infer_constraints O (S fuel) t actual d st) = Ok []).
Proof.
  intros O fuel t actual d st Hleaf Hproper. split.
  - destruct (infer_constraints O fuel t actual d st) as [r st'] eqn:E.
    exact (leaf_infer_constraints O fuel t Hleaf Hproper actual d st r st' E).
  - intros Hu. rewrite infer_constraints_unfold.
    destruct (on_recursion_guard O t actual (inferring st)); [ reflexivity | ].
    destruct (has_recursive_types O t).
    + destruct (negb (has_type_vars O t)); [ reflexivity | ].
      unfold bind at 1. unfold inferring_append at 1. unfold bind at 1.
      rewrite (leaf__infer_constraints_returns O fuel (infer_constraints O fuel) t
                 actual d _ Hleaf Hproper Hu).
      unfold bind at 1. unfold inferring_pop. cbn [inferring].
      destruct (inferring st ++ [(t, actual)]) eqn:El.
      { destruct (inferring st); discriminate. }
      reflexivity.
    + rewrite (leaf__infer_constraints_returns O fuel (infer_constraints O fuel) t
                 actual d _ Hleaf Hproper Hu).
      reflexivity.
Qed.

Lemma leaf_template_example :
  (fst (infer_constraints example_oracle 1 (AnyType explicit None)
          (UnionType [ex_int; ex_str]) SUBTYPE_OF empty_guards) = Ok []
   \/ fst (infer_constraints example_oracle 1 (AnyType explicit None)
             (UnionType [ex_int; ex_str]) SUBTYPE_OF empty_guards)
      = Raise RecursionError)
  /\ fst (infer_constraints example_oracle 1 NoneType ex_list_of_int SUPERTYPE_OF
            empty_guards) = Ok [].
Proof.
  split.
  - apply (leaf_template_gives_no_constraint example_oracle 1 (AnyType explicit None)
             (UnionType [ex_int; ex_str]) SUBTYPE_OF empty_guards);
      reflexivity.
  - apply (leaf_template_gives_no_constraint example_oracle 0 NoneType
             ex_list_of_int SUPERTYPE_OF empty_guards); reflexivity.
Defined.

(* ------------------------------------------------------------------ *)
(** ** The constraints of an answer are well formed *)

Lemma well_formed_init :
  forall tv d t, valid_direction d -> well_formed (Constraint_init tv d t).
Proof. intros tv d t Hd. split; [ exact Hd | reflexivity ]. Qed.

Lemma valid_direction_sub : valid_direction SUBTYPE_OF.
Proof. left. reflexivity. Qed.

Lemma valid_direction_super : valid_direction SUPERTYPE_OF.
Proof. right. reflexivity. Qed.

Lemma neg_op_valid :
  forall d d', neg_op d = Ok d' -> valid_direction d'.
Proof.
  intros d d' H. unfold neg_op in H.
  destruct (Z.eqb d SUBTYPE_OF); [ inversion H; right; reflexivity | ].
  destruct (Z.eqb d SUPERTYPE_OF); [ inversion H; left; reflexivity | discriminate ].
Qed.

Lemma well_formed_merge_with_any :
  forall O c, well_formed c -> well_formed (merge_with_any O c).
Proof.
  intros O c [Hop Hid]. unfold merge_with_any.
  destruct (is_union_with_any O (target c)); [ split; assumption | ].
  apply well_formed_init. exact Hop.
Qed.

Lemma returns_ret : forall A (P : A -> Prop) a, P a -> returns P (ret a).
Proof. intros A P a H st a' st' E. inversion E. subst. exact H. Qed.

Lemma returns_raise : forall A (P : A -> Prop) e, returns P (@raise A e).
Proof. intros A P e st a st' E. discriminate. Qed.

Lemma returns_anything : forall A (m : M A), returns (fun _ => True) m.
Proof. intros A m st a st' E. exact I. Qed.

Lemma returns_bind :
  forall A B (P : A -> Prop) (Q : B -> Prop) (m : M A) (f : A -> M B),
    returns P m -> (forall a, P a -> returns Q (f a)) -> returns Q (bind m f).
Proof.
  intros A B P Q m f Hm Hf st b st' E. unfold bind in E.
  destruct (m st) as [[a | e] st1] eqn:Em; [ | discriminate ].
  exact (Hf a (Hm _ _ _ Em) _ _ _ E).
Qed.

Lemma returns_for_extend :
  forall A (f : A -> M (list Constraint)) l,
    (forall x, returns (Forall well_formed) (f x)) ->
    returns (Forall well_formed) (for_extend l f).
Proof.
  intros A f l Hf. induction l as [ | x l IH]; cbn [for_extend].
  - apply returns_ret. constructor.
  - apply (returns_bind _ _ (Forall well_formed)); [ apply Hf | intros r Hr ].
    apply (returns_bind _ _ (Forall well_formed)); [ exact IH | intros rs Hrs ].
    apply returns_ret. apply Forall_app. split; assumption.
Qed.

Lemma returns_for_collect :
  forall A B (P : B -> Prop) (f : A -> M B) l,
    (forall x, returns P (f x)) -> returns (Forall P) (for_collect l f).
Proof.
  intros A B P f l Hf. induction l as [ | x l IH]; cbn [for_collect].
  - apply returns_ret. constructor.
  - apply (returns_bind _ _ P); [ apply Hf | intros r Hr ].
    apply (returns_bind _ _ (Forall P)); [ exact IH | intros rs Hrs ].
    apply returns_ret. constructor; assumption.
Qed.

Lemma returns_neg_op :
  forall A (P : A -> Prop) d (f : Z -> M A),
    (forall d', valid_direction d' -> returns P (f d')) ->
    returns P (bind (lift (neg_op d)) f).
Proof.
  intros A P d f H st a st' E. unfold bind, lift in E.
  destruct (neg_op d) as [d' | e] eqn:En; [ | discriminate ].
  apply neg_op_valid in En. exact (H d' En _ _ _ E).
Qed.

Lemma returns_lift_any_constraints :
  forall O depth options eager,
    Forall (option_all well_formed) options ->
    returns (Forall well_formed) (lift (any_constraints O depth options eager)).
Proof.
  intros O depth options eager Hall st a st' E. unfold lift in E.
  inversion E as [[Ea Est]].
  eapply any_constraints_keeps;
    [ apply well_formed_merge_with_any | eassumption | eassumption ].
Qed.

(** The payload of a return: lists of well-formed constraints put together. *)
Ltac wf_payload :=
  cbn [option_all fst snd] in *;
  repeat first
    [ assumption
    | exact I
    | apply Forall_nil
    | apply Forall_app; split
    | apply Forall_cons
    | apply well_formed_init
    | apply valid_direction_sub
    | apply valid_direction_super ].

(** One step through a computation of the matcher. *)
Ltac wf_step :=
  first
    [ assumption
    | apply returns_raise
    | apply returns_ret; solve [ wf_payload ]
    | apply returns_for_extend; intros
    | apply returns_neg_op; intros
    | match goal with
      | H : forall t a d, valid_direction d -> returns _ (?rec t a d)
        |- returns _ (?rec _ _ _) =>
          apply H; solve [ wf_payload ]
      | |- returns _ (bind ?m _) =>
          match type of m with
          | M (list Constraint) =>
              apply (returns_bind _ _ (Forall well_formed)); [ | intros ]
          | M (option (list Constraint)) =>
              apply (returns_bind _ _ (option_all well_formed)); [ | intros ]
          | M (Ty * list Constraint)%type =>
              apply (returns_bind _ _ (fun p => Forall well_formed (snd p)));
              [ | intros ]
          | _ =>
              apply (returns_bind _ _ (fun _ => True));
              [ apply returns_anything | intros ]
          end
      | |- returns _ (match ?x with _ => _ end) => destruct x
      end ].

Ltac wf := cbv beta; repeat (wf_step; cbv beta).

Section WellFormed.

Variable O : Oracle.
Variable depth : nat.
Variable rec : Ty -> Ty -> Z -> M (list Constraint).
Hypothesis rec_wf :
  forall t a d, valid_direction d -> returns (Forall well_formed) (rec t a d).

Section Direction.

Variable direction : Z.
Hypothesis direction_valid : valid_direction direction.

Lemma wf_infer_against_any :
  forall types any_type,
    returns (Forall well_formed) (infer_against_any rec direction types any_type).
Proof. intros. unfold infer_against_any. wf. Qed.

Lemma wf_protocol_members_loop :
  forall members res instance template subtype protocol class_obj,
    Forall well_formed res ->
    returns (Forall well_formed)
      (protocol_members_loop O rec direction members res
         instance template subtype protocol class_obj).
Proof.
  intros members.
  induction members as [ | member rest IH]; intros; cbn [protocol_members_loop].
  - wf.
  - wf. apply IH. wf_payload.
Qed.

Lemma wf_infer_constraints_from_protocol_members :
  forall instance template subtype protocol class_obj,
    returns (Forall well_formed)
      (infer_constraints_from_protocol_members O rec direction
         instance template subtype protocol class_obj).
Proof.
  intros. unfold infer_constraints_from_protocol_members.
  apply wf_protocol_members_loop. constructor.
Qed.

Lemma wf_visit_parameters :
  forall actual template,
    returns (Forall well_formed) (visit_parameters rec actual direction template).
Proof.
  intros. unfold visit_parameters.
  destruct (is_AnyType actual);
    [ apply wf_infer_against_any | apply returns_raise ].
Qed.

Lemma wf_nominal_type_var_arg :
  forall v t a,
    returns (Forall well_formed) (nominal_type_var_arg rec direction v t a).
Proof. intros. unfold nominal_type_var_arg. wf. Qed.

Lemma wf_param_spec_arg_constraints :
  forall ps prefix other,
    Forall well_formed (param_spec_arg_constraints O ps prefix other).
Proof.
  intros. unfold param_spec_arg_constraints. cbv zeta.
  repeat match goal with
         | |- Forall _ (match ?x with _ => _ end) => destruct x
         end; wf_payload.
Qed.

Lemma wf_nominal_subtype_arg :
  forall x, returns (Forall well_formed) (nominal_subtype_arg O rec direction x).
Proof.
  intros [[tvar mapped_arg] instance_arg]. unfold nominal_subtype_arg.
  destruct tvar; try apply wf_nominal_type_var_arg; try apply returns_raise.
  repeat match goal with
         | |- returns _ (match ?x with _ => _ end) => destruct x
         end;
    apply returns_ret; try apply wf_param_spec_arg_constraints; constructor.
Qed.

Lemma wf_nominal_supertype_arg :
  forall x, returns (Forall well_formed) (nominal_supertype_arg O rec direction x).
Proof.
  intros [[tvar mapped_arg] template_arg]. unfold nominal_supertype_arg.
  destruct tvar; try apply wf_nominal_type_var_arg; try apply returns_raise.
  repeat match goal with
         | |- returns _ (match ?x with _ => _ end) => destruct x
         end;
    apply returns_ret; try apply wf_param_spec_arg_constraints; constructor.
Qed.

Lemma wf_unpack_middle_constraints :
  forall template_middle mapped_middle,
    returns (Forall well_formed)
      (unpack_middle_constraints O rec direction template_middle mapped_middle).
Proof. intros. unfold unpack_middle_constraints. wf. Qed.

Lemma wf_visit_instance_callback_protocol :
  forall actual template,
    returns (option_all well_formed)
      (visit_instance_callback_protocol O rec actual direction template).
Proof. intros. unfold visit_instance_callback_protocol. wf. Qed.

Lemma wf_visit_instance_class_object :
  forall actual template,
    returns (fun p => Forall well_formed (snd p))
      (visit_instance_class_object O rec actual direction template).
Proof.
  intros. unfold visit_instance_class_object. cbv zeta.
  apply (returns_bind _ _ (fun p => Forall well_formed (snd p))).
  - destruct actual; try (apply returns_ret; constructor).
    destruct (fallback c); [ | apply returns_ret; constructor ].
    apply (returns_bind _ _ (Forall well_formed));
      [ | intros; apply returns_ret; assumption ].
    destruct (is_type_obj O c && is_protocol O (type template));
      [ | apply returns_ret; constructor ].
    match goal with
    | |- returns _ (match ?x with _ => _ end) => destruct x
    end; try (apply returns_ret; constructor);
      apply wf_infer_constraints_from_protocol_members.
  - intros [actual1 res] Hres. cbn [snd] in Hres.
    destruct actual1; try (apply returns_ret; exact Hres).
    destruct (is_protocol O (type template)); [ | apply returns_ret; exact Hres ].
    destruct actual1; try (apply returns_ret; exact Hres).
    apply (returns_bind _ _ (Forall well_formed));
      [ apply wf_infer_constraints_from_protocol_members | intros r Hr ].
    apply returns_ret. cbn [snd]. apply Forall_app. split; assumption.
Qed.

Lemma wf_visit_instance_instance :
  forall template original_actual instance res,
    Forall well_formed res ->
    returns (option_all well_formed)
      (visit_instance_instance O rec direction template original_actual
         instance res).
Proof.
  intros template original_actual instance res Hres.
  unfold visit_instance_instance. cbv zeta.
  destruct (erase_typevars O (Instance template)); try apply returns_raise.
  match goal with
  | |- returns _ (if ?b then _ else _) => destruct b
  end.
  { apply (returns_bind _ _ (Forall well_formed)).
    - apply returns_for_extend. apply wf_nominal_subtype_arg.
    - intros r Hr. apply returns_ret. wf_payload. }
  match goal with
  | |- returns _ (if ?b then _ else _) => destruct b
  end.
  { apply (returns_bind _ _ (fun p : list Constraint * list TypeVarLikeType
                                     * list Ty * list Ty =>
                               Forall well_formed (fst (fst (fst p))))).
    - destruct (has_type_var_tuple_type O (type template));
        [ | apply returns_ret; constructor ].
      destruct (split_with_instance O _) as [[mp mm] ms].
      destruct (split_with_instance O template) as [[tp tm] ts].
      apply (returns_bind _ _ (Forall well_formed));
        [ apply wf_unpack_middle_constraints | intros r0 Hr0 ].
      destruct (type_var_tuple_prefix O (type template)); [ | apply returns_raise ].
      destruct (type_var_tuple_suffix O (type template)); [ | apply returns_raise ].
      destruct (split_with_prefix_and_suffix O _ _ _) as [[tvp tvm] tvs].
      apply returns_ret. exact Hr0.
    - intros [[[r0 tvars'] mapped_args] template_args] Hr0. cbn [fst] in Hr0.
      apply (returns_bind _ _ (Forall well_formed)).
      + apply returns_for_extend. apply wf_nominal_supertype_arg.
      + intros r Hr. apply returns_ret. wf_payload. }
  apply (returns_bind _ _ (fun _ => True)); [ apply returns_anything | intros stack_t _ ].
  match goal with
  | |- returns _ (if ?b then _ else _) => destruct b
  end.
  { apply (returns_bind _ _ (fun _ => True)); [ apply returns_anything | intros _ _ ].
    apply (returns_bind _ _ (Forall well_formed));
      [ apply wf_infer_constraints_from_protocol_members | intros r Hr ].
    apply (returns_bind _ _ (fun _ => True)); [ apply returns_anything | intros _ _ ].
    apply returns_ret. wf_payload. }
  apply (returns_bind _ _ (fun _ => True)); [ apply returns_anything | intros stack_i _ ].
  match goal with
  | |- returns _ (if ?b then _ else _) => destruct b
  end; [ | apply returns_ret; exact I ].
  apply (returns_bind _ _ (fun _ => True)); [ apply returns_anything | intros _ _ ].
  apply (returns_bind _ _ (Forall well_formed));
    [ apply wf_infer_constraints_from_protocol_members | intros r Hr ].
  apply (returns_bind _ _ (fun _ => True)); [ apply returns_anything | intros _ _ ].
  apply returns_ret. wf_payload.
Qed.

Lemma wf_visit_instance_fallbacks :
  forall template actual',
    returns (Forall well_formed)
      (visit_instance_fallbacks O rec direction template actual').
Proof.
  intros. unfold visit_instance_fallbacks.
  destruct actual'; try (apply returns_ret; constructor).
  - apply wf_infer_against_any.
  - wf.
  - wf.
Qed.

Lemma wf_visit_instance :
  forall actual template,
    returns (Forall well_formed) (visit_instance O rec actual direction template).
Proof.
  intros. unfold visit_instance.
  apply (returns_bind _ _ (option_all well_formed));
    [ apply wf_visit_instance_callback_protocol | intros returned Hret ].
  destruct returned; [ apply returns_ret; exact Hret | ].
  apply (returns_bind _ _ (fun p => Forall well_formed (snd p)));
    [ apply wf_visit_instance_class_object | intros [actual1 res] Hres ].
  cbn [snd] in Hres. cbv zeta.
  apply (returns_bind _ _ (option_all well_formed)).
  - destruct (visit_instance_unwrap O actual1); try (apply returns_ret; exact I).
    apply wf_visit_instance_instance. exact Hres.
  - intros returned' Hret'. destruct returned'; [ apply returns_ret; exact Hret' | ].
    destruct (truthy res); [ apply returns_ret; exact Hres | ].
    apply wf_visit_instance_fallbacks.
Qed.

Lemma wf_infer_against_overloaded :
  forall overloaded template,
    returns (Forall well_formed)
      (infer_against_overloaded O rec direction overloaded template).
Proof. intros. unfold infer_against_overloaded. wf. Qed.

Lemma wf_callable_args_constraints :
  forall template cactual,
    returns (Forall well_formed)
      (callable_args_constraints O rec direction template cactual).
Proof.
  intros. unfold callable_args_constraints.
  destruct (param_spec O template) as [[[ps_id prefix] ps_bound] | ].
  - cbv zeta. destruct (param_spec O cactual) as [[[a_id a_prefix] a_bound] | ];
      wf.
  - wf.
Qed.

Lemma wf_visit_callable_type :
  forall actual template,
    returns (Forall well_formed)
      (visit_callable_type O rec actual direction template).
Proof.
  intros. unfold visit_callable_type. cbv zeta.
  destruct actual; try (apply returns_ret; constructor).
  - apply (returns_bind _ _ (Forall well_formed)); [ | intros; wf ].
    destruct (param_spec O (with_unpacked_kwargs O template))
      as [[[ps_id prefix] ps_bound] | ];
      [ apply returns_ret; wf_payload | apply wf_infer_against_any ].
  - wf.
  - apply (returns_bind _ _ (Forall well_formed));
      [ apply wf_callable_args_constraints | intros; wf ].
  - apply wf_infer_against_overloaded.
  - wf.
Qed.

Lemma wf_visit_tuple_type :
  forall actual t_items t_fallback,
    returns (Forall well_formed)
      (visit_tuple_type O rec actual direction t_items t_fallback).
Proof.
  intros. unfold visit_tuple_type. cbv zeta.
  apply (returns_bind _ _ (option_all well_formed)).
  - destruct (find_unpack_in_list O t_items) as [unpack_index | ];
      [ | apply returns_ret; exact I ].
    apply (returns_bind _ _ (fun _ => True)); [ apply returns_anything | intros item _ ].
    destruct (get_proper_type O item); try apply returns_raise.
    match goal with
    | |- returns _ (match get_proper_type O ?u with _ => _ end) =>
        destruct (get_proper_type O u)
    end; try (apply returns_ret; exact I).
    match goal with
    | |- returns _ (match ?v with _ => _ end) => destruct v
    end; try (apply returns_ret; exact I).
    apply (returns_bind _ _ (fun _ => True)); [ apply returns_anything | intros _ _ ].
    destruct actual;
      try (destruct (split_with_prefix_and_suffix O _ _ _) as [[x1 x2] x3]);
      try match goal with
          | |- returns _ (if ?b then _ else _) => destruct b
          end;
      apply returns_ret; wf_payload.
  - intros returned Hret. destruct returned; [ apply returns_ret; exact Hret | ].
    destruct actual; try (apply returns_ret; constructor).
    + apply wf_infer_against_any.
    + wf.
Qed.

Lemma wf_visit_typeddict_type :
  forall actual t_items t_fallback,
    returns (Forall well_formed)
      (visit_typeddict_type O rec actual direction t_items t_fallback).
Proof.
  intros. unfold visit_typeddict_type.
  destruct actual; try (apply returns_ret; constructor).
  - apply wf_infer_against_any.
  - wf.
Qed.

Lemma wf_visit_overloaded :
  forall actual t_items,
    returns (Forall well_formed) (visit_overloaded O rec actual direction t_items).
Proof. intros. unfold visit_overloaded. wf. Qed.

Lemma wf_visit_type_type :
  forall actual item,
    returns (Forall well_formed) (visit_type_type rec actual direction item).
Proof. intros. unfold visit_type_type. wf. Qed.

Lemma wf_accept :
  forall actual template,
    returns (Forall well_formed) (accept O rec actual direction template).
Proof.
  intros. unfold accept.
  destruct template; try (apply returns_ret; constructor); try apply returns_raise.
  - destruct v;
      [ apply returns_raise | apply returns_ret; constructor | apply returns_raise ].
  - apply wf_visit_parameters.
  - apply wf_visit_instance.
  - apply wf_visit_callable_type.
  - apply wf_visit_tuple_type.
  - apply wf_visit_typeddict_type.
  - apply wf_visit_overloaded.
  - apply wf_visit_type_type.
Qed.

Lemma wf_infer_constraints_if_possible :
  forall template actual,
    returns (option_all well_formed)
      (infer_constraints_if_possible O rec template actual direction).
Proof. intros. unfold infer_constraints_if_possible. wf. Qed.

Lemma wf_handle_recursive_union :
  forall items actual,
    returns (Forall well_formed)
      (handle_recursive_union O rec items actual direction).
Proof. intros. unfold handle_recursive_union. wf. Qed.

Lemma wf__infer_constraints :
  forall template actual,
    returns (Forall well_formed)
      (_infer_constraints O depth rec template actual direction).
Proof.
  intros. rewrite _infer_constraints_unfold. cbv zeta.
  match goal with
  | |- returns _ (if ?b then _ else _) => destruct b
  end; [ apply returns_ret; constructor | ].
  assert (Hrest :
    forall t a,
      returns (Forall well_formed)
        (match (if Z.eqb direction SUBTYPE_OF then union_items t else None) with
         | Some t_items => for_extend t_items (fun t_item => rec t_item a direction)
         | None =>
         match (if Z.eqb direction SUPERTYPE_OF then union_items a else None) with
         | Some a_items => for_extend a_items (fun a_item => rec template a_item direction)
         | None =>
         match (if Z.eqb direction SUBTYPE_OF then union_items a else None) with
         | Some a_items =>
             options <- for_collect (simplify_away_incomplete_types O a_items)
                          (fun a_item =>
                             infer_constraints_if_possible O rec t a_item direction) ;;
             lift (any_constraints O depth options true)
         | None =>
         match (if Z.eqb direction SUPERTYPE_OF then union_items t else None) with
         | Some t_items =>
             options <- for_collect t_items
                          (fun t_item =>
                             infer_constraints_if_possible O rec t_item a direction) ;;
             result <- lift (any_constraints O depth options false) ;;
             if truthy result then ret result
             else if has_recursive_types O t && negb (has_recursive_types O a)
             then handle_recursive_union O rec t_items a direction
             else ret []
         | None => accept O rec a direction t
         end end end end)).
  { intros t a.
    destruct (if Z.eqb direction SUBTYPE_OF then union_items t else None);
      [ wf | ].
    destruct (if Z.eqb direction SUPERTYPE_OF then union_items a else None);
      [ wf | ].
    destruct (if Z.eqb direction SUBTYPE_OF then union_items a else None).
    { apply (returns_bind _ _ (Forall (option_all well_formed))).
      - apply returns_for_collect. intros.
        apply wf_infer_constraints_if_possible.
      - intros options Hopt. apply returns_lift_any_constraints. exact Hopt. }
    destruct (if Z.eqb direction SUPERTYPE_OF then union_items t else None).
    { apply (returns_bind _ _ (Forall (option_all well_formed))).
      - apply returns_for_collect. intros.
        apply wf_infer_constraints_if_possible.
      - intros options Hopt.
        apply (returns_bind _ _ (Forall well_formed));
          [ apply returns_lift_any_constraints; exact Hopt | intros result Hres ].
        destruct (truthy result); [ apply returns_ret; exact Hres | ].
        destruct (has_recursive_types O t && negb (has_recursive_types O a));
          [ apply wf_handle_recursive_union | apply returns_ret; constructor ]. }
    apply wf_accept. }
  match goal with
  | |- returns _ (match ?t with _ => _ end) =>
      destruct t eqn:Et; try apply Hrest
  end.
  destruct v; try apply Hrest. apply returns_ret. wf_payload.
Qed.

End Direction.

End WellFormed.

(** Every request in a valid direction answers with well-formed
    constraints, whatever depth it is given. *)
Lemma wf_infer_constraints :
  forall O fuel template actual direction,
    valid_direction direction ->
    returns (Forall well_formed) (infer_constraints O fuel template actual direction).
Proof.
  intros O fuel. induction fuel as [ | fuel IH]; intros template actual direction Hd.
  - apply returns_raise.
  - cbn [infer_constraints].
    apply (returns_bind _ _ (fun _ => True)); [ apply returns_anything | intros stack _ ].
    match goal with
    | |- returns _ (if ?b then _ else _) => destruct b
    end; [ apply returns_ret; constructor | ].
    destruct (has_recursive_types O template).
    + destruct (negb (has_type_vars O template)); [ apply returns_ret; constructor | ].
      apply (returns_bind _ _ (fun _ => True)); [ apply returns_anything | intros _ _ ].
      apply (returns_bind _ _ (Forall well_formed)).
      * apply wf__infer_constraints; [ exact IH | exact Hd ].
      * intros res Hres.
        apply (returns_bind _ _ (fun _ => True)); [ apply returns_anything | intros _ _ ].
        apply returns_ret. exact Hres.
    + apply wf__infer_constraints; [ exact IH | exact Hd ].
Qed.

Lemma wf_actuals_loop :
  forall O fuel callee arg_types' arg_kinds' i actuals mapper,
    returns (fun p => Forall well_formed (fst p))
      (actuals_loop O fuel callee arg_types' arg_kinds' i actuals mapper).
Proof.
  intros O fuel callee arg_types' arg_kinds' i actuals.
  induction actuals as [ | actual rest IH]; intros mapper; cbn [actuals_loop].
  - apply returns_ret. constructor.
  - apply (returns_bind _ _ (fun _ => True));
      [ apply returns_anything | intros [ty | ] _ ].
    + apply (returns_bind _ _ (fun _ => True));
        [ apply returns_anything | intros kind _ ].
      apply (returns_bind _ _ (fun _ => True));
        [ apply returns_anything | intros name _ ].
      apply (returns_bind _ _ (fun _ => True));
        [ apply returns_anything | intros callee_kind _ ].
      destruct (expand_actual_type O mapper ty kind name callee_kind)
        as [actual_type mapper'].
      apply (returns_bind _ _ (fun _ => True));
        [ apply returns_anything | intros formal _ ].
      apply (returns_bind _ _ (Forall well_formed));
        [ apply wf_infer_constraints; apply valid_direction_super | intros c Hc ].
      apply (returns_bind _ _ (fun p => Forall well_formed (fst p)));
        [ apply IH | intros p Hp ].
      apply returns_ret. cbn [fst]. apply Forall_app. split; assumption.
    + apply IH.
Qed.

Lemma wf_formals_loop :
  forall O fuel callee arg_types' arg_kinds' formal_to_actual i mapper,
    returns (Forall well_formed)
      (formals_loop O fuel callee arg_types' arg_kinds' i formal_to_actual mapper).
Proof.
  intros O fuel callee arg_types' arg_kinds' formal_to_actual.
  induction formal_to_actual as [ | actuals rest IH]; intros i mapper;
    cbn [formals_loop].
  - apply returns_ret. constructor.
  - apply (returns_bind _ _ (fun p => Forall well_formed (fst p)));
      [ apply wf_actuals_loop | intros p Hp ].
    apply (returns_bind _ _ (Forall well_formed)); [ apply IH | intros r Hr ].
    apply returns_ret. apply Forall_app. split; assumption.
Qed.

(** X15: every constraint of an answer is well formed.  A request to
    [infer_constraints] in one of the two directions, at any depth, and a
    request to [infer_constraints_for_callable] return only constraints
    whose direction is SUBTYPE_OF or SUPERTYPE_OF and whose [type_var] is
    the id of their [origin_type_var]. *)
Theorem answers_are_well_formed :
  forall O fuel st res st',
    (forall template actual direction,
        valid_direction direction ->
        infer_constraints O fuel template actual direction st = (Ok res, st') ->
        Forall well_formed res)
    /\ (forall callee arg_types' arg_kinds' formal_to_actual context,
        infer_constraints_for_callable O fuel callee arg_types' arg_kinds'
          formal_to_actual context st = (Ok res, st') ->
        Forall well_formed res).
Proof.
  intros O fuel st res st'. split.
  - intros template actual direction Hd H.
    exact (wf_infer_constraints O fuel template actual direction Hd st res st' H).
  - intros callee arg_types' arg_kinds' formal_to_actual context H.
    unfold infer_constraints_for_callable in H.
    exact (wf_formals_loop O fuel callee arg_types' arg_kinds' formal_to_actual
             0%nat _ st res st' H).
Qed.

Lemma answers_are_well_formed_example :
  let r := [Constraint_init ex_T SUBTYPE_OF ex_int;
            Constraint_init ex_T SUPERTYPE_OF ex_int] in
  infer_constraints example_oracle 2 ex_list_of_T ex_list_of_int SUBTYPE_OF
    empty_guards = (Ok r, empty_guards)
  /\ Forall well_formed r.
Proof.
  cbv zeta. split; [ reflexivity | ].
  apply (proj1 (answers_are_well_formed example_oracle 2 empty_guards
                  [Constraint_init ex_T SUBTYPE_OF ex_int;
                   Constraint_init ex_T SUPERTYPE_OF ex_int] empty_guards)
           ex_list_of_T ex_list_of_int SUBTYPE_OF).
  - left. reflexivity.
  - reflexivity.
Defined.
